(** * FMM2D: a shallow embedding of the quadtree index, the cells and the
      solver phases of the 2-D fast multipole code, with the properties of
      its specification.

    The C++ sources embedded here are [Util.cc] (bit interleaving),
    [Point.cc], [Potential.cc], [Box.cc], [FmmTree.cc] and [Example1.cc]
    (the points and charges of the example).

    - [int] is a 32-bit two's-complement integer, modelled as [Z] with the
      wrap-around written out ([wrap]) where the code computes an address
      ([index << 2], [x + i], [p + 1], [1 << pos]).  Loop counters, bit
      positions and the operation counter (a [long]) stay far inside their
      ranges and are plain integers.  [unsigned int] is [Z] modulo [2^32].
    - [double] is the kernel's binary64 [float]; [std::complex<double>] is a
      pair of them.
    - [std::vector] is a [list]; [operator[]] is unchecked in C++, so an
      access outside the vector is undefined behaviour: the model returns
      [Undefined] there.  A failed [assert] and an uncaught exception both
      end the process: the model returns [Abort].
    - The functions of the C++ run-time library on complex numbers
      ([std::log], [std::pow], [std::abs], complex product and quotient) are
      not part of the repository; the model takes them as an interface,
      [ComplexLib]. *)

From Stdlib Require Import ZArith Floats Lia Bool.
From stdpp Require Import base list.

Local Open Scope Z_scope.

(** ** Outcomes of a C++ computation *)

Inductive result (A : Type) : Type :=
  | Ret (a : A)      (* normal completion *)
  | Abort            (* failed assert, or uncaught exception: std::abort *)
  | Undefined.       (* undefined behaviour: unchecked access out of bounds *)
Arguments Ret {A} a.
Arguments Abort {A}.
Arguments Undefined {A}.

Definition rbind {A B} (m : result A) (k : A -> result B) : result B :=
  match m with
  | Ret a => k a
  | Abort => Abort
  | Undefined => Undefined
  end.

Notation "'do' x <- m ; k" := (rbind m (fun x => k))
  (at level 10, x name, m at level 100, k at level 200,
   format "'[v' 'do'  x  <-  m ; '/' k ']'").
Notation "'do' ' pat <- m ; k" := (rbind m (fun x => match x with pat => k end))
  (at level 10, pat pattern, m at level 100, k at level 200).

Definition assert (b : bool) : result unit := if b then Ret tt else Abort.

(** ** Loops *)

(** [for (i = lo; i < hi; ++i) s = body i s]. *)
Fixpoint iter_up {S} (n : nat) (i : Z) (body : Z -> S -> S) (s : S) : S :=
  match n with
  | O => s
  | S n' => iter_up n' (i + 1) body (body i s)
  end.
Definition for_ {S} (lo hi : Z) (body : Z -> S -> S) (s : S) : S :=
  iter_up (Z.to_nat (hi - lo)) lo body s.

(** The same loop when the body can fail. *)
Fixpoint iterM_up {S} (n : nat) (i : Z) (body : Z -> S -> result S) (s : S)
  : result S :=
  match n with
  | O => Ret s
  | S n' => do s' <- body i s; iterM_up n' (i + 1) body s'
  end.
Definition forM {S} (lo hi : Z) (body : Z -> S -> result S) (s : S) : result S :=
  iterM_up (Z.to_nat (hi - lo)) lo body s.

(** [for (i = hi; i >= lo; --i) s = body i s]. *)
Fixpoint iterM_down {S} (n : nat) (i : Z) (body : Z -> S -> result S) (s : S)
  : result S :=
  match n with
  | O => Ret s
  | S n' => do s' <- body i s; iterM_down n' (i - 1) body s'
  end.
Definition forM_down {S} (hi lo : Z) (body : Z -> S -> result S) (s : S)
  : result S :=
  iterM_down (Z.to_nat (hi - lo + 1)) hi body s.

(** ** std::vector *)

Definition size {A} (v : list A) : Z := Z.of_nat (length v).

(** [v[i]] read. *)
Definition vget {A} (v : list A) (i : Z) : result A :=
  if i <? 0 then Undefined
  else match v !! Z.to_nat i with
       | Some a => Ret a
       | None => Undefined
       end.

(** [v[i] = a]. *)
Definition vset {A} (v : list A) (i : Z) (a : A) : result (list A) :=
  if (0 <=? i) && (i <? size v) then Ret (<[Z.to_nat i := a]> v) else Undefined.

(** [std::vector<A> v(n)]: [n] value-initialised elements.  An [int] below
    zero converts to a [size_t] above [max_size()], and the constructor throws
    [std::length_error], which nothing catches. *)
Definition vnew {A} (n : Z) (a : A) : result (list A) :=
  if n <? 0 then Abort else Ret (replicate (Z.to_nat n) a).

Definition push_back {A} (v : list A) (a : A) : list A := v ++ [a].

(** ** int *)

Definition int_min : Z := - 2 ^ 31.
Definition int_max : Z := 2 ^ 31 - 1.

(** Reduction of a mathematical integer to the 32-bit signed range. *)
Definition wrap (z : Z) : Z := (z + 2 ^ 31) mod 2 ^ 32 - 2 ^ 31.

Definition iadd (a b : Z) : Z := wrap (a + b).
(** [a << k] and [a >> k] for a shift count in [0, 31]. *)
Definition shl (a k : Z) : Z := wrap (Z.shiftl a k).
Definition shr (a k : Z) : Z := Z.shiftr a k.

(** ** double and std::complex<double> *)

Definition double := float.

(** [std::numeric_limits<double>::epsilon()]. *)
Definition epsilon : double := 0x1p-52%float.

(** Conversion of an integer to [double]; exact below [2^53] in magnitude,
    so for every [int]. *)
Definition double_of_Z (z : Z) : double :=
  if z <? 0 then PrimFloat.opp (PrimFloat.of_uint63 (Uint63.of_Z (- z)))
  else PrimFloat.of_uint63 (Uint63.of_Z z).

(** The integer part of a finite [double], rounded toward zero. *)
Definition truncZ (f : double) : option Z :=
  match Prim2SF f with
  | S754_zero _ => Some 0
  | S754_finite s m e =>
      let a := if 0 <=? e then Z.shiftl (Z.pos m) e else Z.shiftr (Z.pos m) (- e) in
      Some (if s then - a else a)
  | _ => None
  end.

(** [(int) f].  Outside the range of [int] (and for NaN) the conversion is
    undefined in C++; x86-64's [cvttsd2si] gives [INT_MIN], which is what the
    model returns. *)
Definition int_of_double (f : double) : Z :=
  match truncZ f with
  | Some z => if (int_min <=? z) && (z <=? int_max) then z else int_min
  | None => int_min
  end.

(** [std::floor]. *)
Definition dfloor (f : double) : double :=
  match Prim2SF f with
  | S754_finite s m e =>
      if 0 <=? e then f
      else let q := Z.shiftr (Z.pos m) (- e) in
           if Z.shiftl q (- e) =? Z.pos m then f   (* already an integer *)
           else if s then double_of_Z (- (q + 1))
           else double_of_Z q
  | _ => f
  end.

(** [std::pow(2, k)] and [std::pow(2.0, k)] for an integer [k]: the power of
    two itself, which is a [double]. *)
Definition pow2 (k : Z) : double := Z.ldexp 1%float k.

(** [std::max(a, b)]: [(a < b) ? b : a]. *)
Definition dmax (a b : double) : double := if (a <? b)%float then b else a.

Record complex : Type := Cplx { real : double; imag : double }.

Definition czero : complex := Cplx 0%float 0%float.
Definition cadd (a b : complex) : complex :=
  Cplx (real a + real b)%float (imag a + imag b)%float.
Definition csub (a b : complex) : complex :=
  Cplx (real a - real b)%float (imag a - imag b)%float.
(** [z * r] and [r * z] for a [double] r: both parts are multiplied by [r]. *)
Definition cscale (z : complex) (r : double) : complex :=
  Cplx (real z * r)%float (imag z * r)%float.
(** [z / r] for a [double] r. *)
Definition cdivr (z : complex) (r : double) : complex :=
  Cplx (real z / r)%float (imag z / r)%float.
(** [z == 0]. *)
Definition cis_zero (z : complex) : bool :=
  (real z =? 0)%float && (imag z =? 0)%float.

(** The run-time library's functions on [std::complex<double>]. *)
Class ComplexLib : Type := {
  cmul : complex -> complex -> complex;   (* operator*  *)
  cdiv : complex -> complex -> complex;   (* operator/  *)
  cabs : complex -> double;               (* std::abs   *)
  clog : complex -> complex;              (* std::log   *)
  cpow : complex -> Z -> complex;         (* std::pow(z, int) *)
}.

(** ** Util.cc: bit operations and the Morton index *)

Module Util.

(** [(n & (1 << pos)) != 0 ? 1 : 0] *)
Definition getbit (n pos : Z) : Z :=
  if Z.land n (shl 1 pos) =? 0 then 0 else 1.

(** [setto == 1 ? n | (1 << pos) : n & ~(1 << pos)] *)
Definition setbit (n pos setto : Z) : Z :=
  if setto =? 1 then Z.lor n (shl 1 pos)
  else Z.land n (Z.lnot (shl 1 pos)).

(** The body of the loop of [interleave]. *)
Definition interleave_step (x y level i ans : Z) : Z :=
  let ans := setbit ans ((level - i) * 2 - 1) (getbit x (level - i - 1)) in
  setbit ans ((level - i) * 2 - 2) (getbit y (level - i - 1)).

Definition interleave (x y level : Z) : Z :=
  if (x =? 0) && (y =? 0) then 0
  else for_ 0 level (interleave_step x y level) 0.

(** The body of the loop of [uninterleave], on [(xInt, yInt)]. *)
Definition uninterleave_step (n L i : Z) (xy : Z * Z) : Z * Z :=
  let '(xInt, yInt) := xy in
  (setbit xInt (L - i - 1) (getbit n ((L - i - 1) * 2 + 1)),
   setbit yInt (L - i - 1) (getbit n ((L - i - 1) * 2))).

(** The two integers [xInt], [yInt] that the loop of [uninterleave] builds. *)
Definition uninterleave_ints (n L : Z) : Z * Z :=
  for_ 0 L (uninterleave_step n L) (0, 0).

(** [uninterleave] returns the two integers as a [std::complex<double>]. *)
Definition uninterleave (n L : Z) : complex :=
  if n =? 0 then Cplx 0%float 0%float
  else
    let '(xInt, yInt) := uninterleave_ints n L in
    Cplx (double_of_Z xInt) (double_of_Z yInt).

End Util.

(** ** Point.cc *)

Module Point.

Record t : Type := mk { coord : complex }.

(** [Point()] *)
Definition default : t := mk (Cplx 0%float 0%float).

Definition getCoord (pt : t) : complex := coord pt.
Definition setCoord (pt : t) (coord : complex) : t := mk coord.
(** [coord.imag(y_coord)] and [coord.real(x_coord)] *)
Definition setY (pt : t) (y_coord : double) : t := mk (Cplx (real (coord pt)) y_coord).
Definition setX (pt : t) (x_coord : double) : t := mk (Cplx x_coord (imag (coord pt))).

Section WithLib.
Context {L : ComplexLib}.

(** [std::abs(this->coord - p.getCoord()) < epsilon] *)
Definition equals (this p : t) : bool :=
  (cabs (csub (coord this) (getCoord p)) <? epsilon)%float.

End WithLib.

(** [util.interleave(std::floor(x * std::pow(2,level)),
                    std::floor(y * std::pow(2,level)), level)];
    the two [double]s convert to the [int] parameters of [interleave]. *)
Definition getBoxIndex (this : t) (level : Z) : Z :=
  Util.interleave
    (int_of_double (dfloor (real (coord this) * pow2 level)%float))
    (int_of_double (dfloor (imag (coord this) * pow2 level)%float))
    level.

End Point.

(** ** Potential.cc *)

Module Potential.

Definition DEFAULT_P : Z := 12.

Record t : Type := mk { p : Z }.

Definition default : t := mk DEFAULT_P.
Definition getP (this : t) : Z := p this.

Definition matrix : Type := list (list complex).

(** [m[i][j]] and [m[i][j] = v] *)
Definition mget (m : matrix) (i j : Z) : result complex :=
  do row <- vget m i; vget row j.
Definition mset (m : matrix) (i j : Z) (v : complex) : result matrix :=
  do row <- vget m i;
  do row' <- vset row j v;
  vset m i row'.

(** [std::vector<std::vector<complex> > m(p, std::vector<complex>(p))] *)
Definition mnew (n : Z) : result matrix :=
  do row <- vnew n czero; vnew n row.

Definition of_double (r : double) : complex := Cplx r 0%float.

Section WithLib.
Context {L : ComplexLib}.

Definition getSCoeff (this : t) (xi xstar : complex) : result (list complex) :=
  let p := p this in
  do ans <- vnew p czero;
  (* ans[0].real(1.0); ans[0].imag(0.0); *)
  do a0 <- vget ans 0;
  do ans <- vset ans 0 (Cplx 1%float (imag a0));
  do a0 <- vget ans 0;
  do ans <- vset ans 0 (Cplx (real a0) 0%float);
  forM 1 p
    (fun i ans =>
       vset ans i (cdivr (cscale (cpow (csub xi xstar) i) (-1)%float) (double_of_Z i)))
    ans.

(** The row-by-vector products that end [getSR], [getSS] and [getRR]:
    [ans[i] = 0; for j: ans[i] = ans[i] + m[i][j] * coeff[j]]. *)
Definition apply_matrix (swap : bool) (p : Z) (m : matrix) (coeff : list complex)
  : result (list complex) :=
  do ans <- vnew p czero;
  forM 0 p
    (fun i ans =>
       do ans <- vset ans i (of_double 0%float);
       forM 0 p
         (fun j ans =>
            do a <- vget ans i;
            do mij <- mget m i j;
            do cj <- vget coeff j;
            vset ans i (cadd a (if swap then cmul cj mij else cmul mij cj)))
         ans)
    ans.

Definition getSR (this : t) (from to : complex) (sCoeff : list complex)
  : result (list complex) :=
  let p := p this in
  let t := csub to from in
  do sr <- mnew p;
  do sr <- mset sr 0 0 (clog t);
  do sr <- mset sr 1 0 (cdiv (of_double 1%float) t);
  do sr <- forM 2 p
             (fun i sr =>
                do v <- mget sr (i - 1) 0;
                mset sr i 0
                  (cdiv (cscale (cscale v (-1)%float) (double_of_Z (i - 1)))
                        (cscale t (double_of_Z i))))
             sr;
  do sr <- forM 1 p
             (fun j sr => mset sr 0 j (cdiv (of_double 1%float) (cpow t j)))
             sr;
  do sr <- forM 1 p
             (fun i sr =>
                forM 1 p
                  (fun j sr =>
                     do v <- mget sr (i - 1) j;
                     mset sr i j
                       (cdivr (cscale (cscale v (-1)%float) (double_of_Z (i + j - 1)))
                              (double_of_Z i)))
                  sr)
             sr;
  apply_matrix false p sr sCoeff.

Definition getSS (this : t) (from to : complex) (sCoeff : list complex)
  : result (list complex) :=
  let p := p this in
  let t := csub to from in
  do ss <- mnew p;
  do ss <- forM 0 p (fun i ss => mset ss i i (of_double 1%float)) ss;
  do ss <- mset ss 1 0 t;
  do ss <- forM 2 p
             (fun i ss =>
                do v <- mget ss (i - 1) 0;
                mset ss i 0
                  (cdivr (cscale (cscale v (double_of_Z (i - 1))) (-1)%float)
                         (double_of_Z i)))
             ss;
  do ss <- forM 1 p
             (fun i ss =>
                forM_down (i - 1) 1
                  (fun j ss =>
                     do v <- mget ss i (j + 1);
                     mset ss i j
                       (cscale (cscale v (-1)%float)
                               (double_of_Z j / double_of_Z (i - j))%float))
                  ss)
             ss;
  do ss <- forM 0 p
             (fun i ss => forM (i + 1) p (fun j ss => mset ss i j (of_double 0%float)) ss)
             ss;
  apply_matrix true p ss sCoeff.

Definition getRR (this : t) (from to : complex) (rCoeff : list complex)
  : result (list complex) :=
  let p := p this in
  let t := csub to from in
  do rr <- mnew p;
  do rr <- forM 0 p (fun i rr => mset rr i i (of_double 1%float)) rr;
  do rr <- forM 1 p
             (fun j rr => do v <- mget rr 0 (j - 1); mset rr 0 j (cmul v t))
             rr;
  do rr <- forM 1 p
             (fun i rr =>
                forM (i + 1) p
                  (fun j rr =>
                     do v <- mget rr (i - 1) j;
                     mset rr i j
                       (cdiv (cscale v (double_of_Z (j - i + 1)))
                             (cscale t (double_of_Z i))))
                  rr)
             rr;
  do rr <- forM 1 p
             (fun i rr => forM 0 i (fun j rr => mset rr i j (of_double 0%float)) rr)
             rr;
  apply_matrix false p rr rCoeff.

Definition getRVector (this : t) (y xstar : complex) : result (list complex) :=
  let p := p this in
  do rVec <- vnew p czero;
  forM 0 p (fun i rVec => vset rVec i (cpow (csub y xstar) i)) rVec.

Definition direct (yj xi : complex) : complex := clog (csub yj xi).

End WithLib.

End Potential.

(** ** Box.cc *)

Module Box.

Definition DEFAULT_P : Z := 12.
Definition DEFAULT_LEVEL : Z := 3.
Definition DEFAULT_INDEX : Z := 0.

Record t : Type := mk {
  level : Z;
  index : Z;
  p : Z;
  empty : bool;
  c : list complex;
  dtilde : list complex;
  d : list complex;
  x : list Point.t;
  y : list Point.t;
}.

Definition with_c (b : t) (v : list complex) : t :=
  mk (level b) (index b) (p b) (empty b) v (dtilde b) (d b) (x b) (y b).
Definition with_dtilde (b : t) (v : list complex) : t :=
  mk (level b) (index b) (p b) (empty b) (c b) v (d b) (x b) (y b).
Definition with_d (b : t) (v : list complex) : t :=
  mk (level b) (index b) (p b) (empty b) (c b) (dtilde b) v (x b) (y b).

(** The body shared by the two constructors: the member initialisers
    [c(p+1), dtilde(p+1), d(p+1)], then the loop that zeroes the entries
    [0 .. p-1]. *)
Definition construct (level index p : Z) : result t :=
  do c <- vnew (iadd p 1) czero;
  do dtilde <- vnew (iadd p 1) czero;
  do d <- vnew (iadd p 1) czero;
  forM 0 p
    (fun i b =>
       do c <- vset (Box.c b) i (Cplx 0%float 0%float);
       do dtilde <- vset (Box.dtilde b) i (Cplx 0%float 0%float);
       do d <- vset (Box.d b) i (Cplx 0%float 0%float);
       Ret (with_d (with_dtilde (with_c b c) dtilde) d))
    (mk level index p true c dtilde d [] []).

(** [Box()] *)
Definition default : result t := construct DEFAULT_LEVEL DEFAULT_INDEX DEFAULT_P.
(** [Box(int level, int index, int p)] *)
Definition new (level index p : Z) : result t := construct level index p.

Definition setLevel (b : t) (i : Z) : t :=
  mk i (index b) (p b) (empty b) (c b) (dtilde b) (d b) (x b) (y b).
Definition setIndex (b : t) (i : Z) : t :=
  mk (level b) i (p b) (empty b) (c b) (dtilde b) (d b) (x b) (y b).
Definition setP (b : t) (p : Z) : t :=
  mk (level b) (index b) p (empty b) (c b) (dtilde b) (d b) (x b) (y b).
Definition getIndex (b : t) : Z := index b.
Definition getC (b : t) : list complex := c b.
Definition getD (b : t) : list complex := d b.
Definition getDtilde (b : t) : list complex := dtilde b.
Definition getX (b : t) : list Point.t := x b.
Definition getY (b : t) : list Point.t := y b.
Definition getSizeX (b : t) : Z := size (x b).
Definition getSizeY (b : t) : Z := size (y b).

(** [std::pow(2.0, -level)] *)
Definition getSize (b : t) : double := pow2 (- level b).

(** [ll_corner = uninterleave(index, level); ll_corner += (0.5,0.5);
     ll_corner *= getSize()] *)
Definition center (level index : Z) : complex :=
  cscale (cadd (Util.uninterleave index level) (Cplx 0.5%float 0.5%float))
         (pow2 (- level)).
Definition getCenter (b : t) : Point.t := Point.mk (center (level b) (index b)).

(** [for (i = 0; i < v.size(); ++i) v[i] = v[i] + increment[i]] *)
Definition add_into (v increment : list complex) : result (list complex) :=
  forM 0 (size v)
    (fun i v =>
       do vi <- vget v i;
       do inc <- vget increment i;
       vset v i (cadd vi inc))
    v.

Definition addToC (b : t) (increment : list complex) : result t :=
  do v <- add_into (c b) increment; Ret (with_c b v).
Definition addToD (b : t) (increment : list complex) : result t :=
  do v <- add_into (d b) increment; Ret (with_d b v).
Definition addToDtilde (b : t) (increment : list complex) : result t :=
  do v <- add_into (dtilde b) increment; Ret (with_dtilde b v).

Definition addX (b : t) (pt : Point.t) : t :=
  mk (level b) (index b) (p b) (empty b) (c b) (dtilde b) (d b) (push_back (x b) pt) (y b).
Definition addY (b : t) (pt : Point.t) : t :=
  mk (level b) (index b) (p b) (empty b) (c b) (dtilde b) (d b) (x b) (push_back (y b) pt).

Definition getParentIndex (b : t) : Z := shr (index b) 2.

(** The double loop of [getNeighborsIndex] and [getParentsNeighborsIndex]
    around the cell [(x, y)] of the grid of [level]: the tests against
    [std::pow(2, level)] compare the [int] as a [double]. *)
Definition neighbors_of (x y level : Z) : list Z :=
  for_ (-1) 2
    (fun i acc =>
       for_ (-1) 2
         (fun j acc =>
            if (negb (i =? 0) || negb (j =? 0))
               && (iadd x i >=? 0)
               && (double_of_Z (iadd x i) <? pow2 level)%float
               && (iadd y j >=? 0)
               && (double_of_Z (iadd y j) <? pow2 level)%float
            then push_back acc (Util.interleave (iadd x i) (iadd y j) level)
            else acc)
         acc)
    [].

Definition getNeighborsIndex (b : t) : list Z :=
  let tmp := Util.uninterleave (index b) (level b) in
  let x := int_of_double (real tmp) in
  let y := int_of_double (imag tmp) in
  neighbors_of x y (level b).

Definition getParentsNeighborsIndex (b : t) : list Z :=
  let parent_index := getParentIndex b in
  let tmp := Util.uninterleave parent_index (level b - 1) in
  let x := int_of_double (real tmp) in
  let y := int_of_double (imag tmp) in
  neighbors_of x y (level b - 1).

(** [for (i = 0; i < 4; ++i) push_back((indexOfBox << 2) + i)] *)
Definition getChildrenIndexOfBox (levelOfBox indexOfBox : Z) : list Z :=
  for_ 0 4 (fun i acc => push_back acc (iadd (shl indexOfBox 2) i)) [].

Definition getChildrenIndex (b : t) : list Z :=
  for_ 0 4 (fun i acc => push_back acc (iadd (shl (index b) 2) i)) [].

Definition getNeighborsE4Index (b : t) : list Z :=
  let neighbor_indexes := getNeighborsIndex b in
  let parents_neighbor_indexes := getParentsNeighborsIndex b in
  let parent_neighbor_children_indexes :=
    fold_left
      (fun acc pn =>
         fold_left push_back (getChildrenIndexOfBox (level b - 1) pn) acc)
      parents_neighbor_indexes [] in
  fold_left
    (fun e4 candidate =>
       let flag_not_in_list :=
         fold_left (fun flag nb => if candidate =? nb then true else flag)
                   neighbor_indexes false in
       if flag_not_in_list then e4 else push_back e4 candidate)
    parent_neighbor_children_indexes [].

End Box.

(** ** FmmTree.cc *)

Module FmmTree.

Record t : Type := mk {
  numOfLevels : Z;
  currLevel : Z;
  x : list Point.t;
  y : list Point.t;
  potential : Potential.t;
  tree_structure : list (list Box.t);
  numOpsIndirect : Z;
}.

Definition with_tree (this : t) (ts : list (list Box.t)) : t :=
  mk (numOfLevels this) (currLevel this) (x this) (y this) (potential this) ts
     (numOpsIndirect this).
(** [numOpsIndirect += n] *)
Definition count (this : t) (n : Z) : t :=
  mk (numOfLevels this) (currLevel this) (x this) (y this) (potential this)
     (tree_structure this) (numOpsIndirect this + n).

(** [tree_structure[l][k]], read and written through a [Box&]. *)
Definition get_box (this : t) (l k : Z) : result Box.t :=
  do row <- vget (tree_structure this) l; vget row k.
Definition set_box (this : t) (l k : Z) (b : Box.t) : result t :=
  do row <- vget (tree_structure this) l;
  do row' <- vset row k b;
  do ts <- vset (tree_structure this) l row';
  Ret (with_tree this ts).

(** [v.resize(n)] on a vector of boxes: new elements are [Box()]. *)
Definition resize_boxes (v : list Box.t) (n : Z) : result (list Box.t) :=
  if n <? 0 then Abort
  else if n <=? size v then Ret (take (Z.to_nat n) v)
  else do b0 <- Box.default; Ret (v ++ replicate (Z.to_nat (n - size v)) b0).

Definition initStruct (this : t) : result t :=
  do this <-
    forM 0 (size (tree_structure this))
      (fun i this =>
         (* std::pow(4,i), a double, converted to int *)
         let cells_in_tree_structure_i := int_of_double (pow2 (2 * i)) in
         do row <- vget (tree_structure this) i;
         do row <- resize_boxes row cells_in_tree_structure_i;
         do ts <- vset (tree_structure this) i row;
         forM 0 (size row)
           (fun j this =>
              do b <- get_box this i j;
              set_box this i j
                (Box.setP (Box.setIndex (Box.setLevel b i) j)
                          (Potential.getP (potential this))))
           (with_tree this ts))
      this;
  let leaf := numOfLevels this - 1 in
  do this <-
    forM 0 (size (x this))
      (fun i this =>
         do xi <- vget (x this) i;
         let n := Point.getBoxIndex xi leaf in
         do b <- get_box this leaf n;
         set_box this leaf n (Box.addX b xi))
      this;
  forM 0 (size (y this))
    (fun i this =>
       do yi <- vget (y this) i;
       let n := Point.getBoxIndex yi leaf in
       do b <- get_box this leaf n;
       set_box this leaf n (Box.addY b yi))
    this.

(** [FmmTree(int level, sources, targets, potential)]: the member
    initialisers run first ([tree_structure(numOfLevels)] throws for a
    negative level), then the two asserts, the copy loop and [initStruct]. *)
Definition new (level : Z) (sources targets : list Point.t)
    (potential : Potential.t) : result t :=
  do ts <- vnew level [];
  do _ <- assert (level >? 0);
  do _ <- assert (level <=? 8);
  let length := size sources in
  let x0 := replicate (Z.to_nat length) Point.default in
  let y0 := replicate (Z.to_nat length) Point.default in
  do '(x, y) <-
    forM 0 length
      (fun i '(x, y) =>
         do s <- vget sources i;
         do x <- vset x i s;
         do tg <- vget targets i;
         do y <- vset y i tg;
         Ret (x, y))
      (x0, y0);
  initStruct (mk level (level - 1) x y potential ts 0).

(** [FmmTree()]: four levels, none of them filled, the kernel of [Potential()]. *)
Definition default : result t :=
  do ts <- vnew 4 [];
  Ret (mk 4 (4 - 1) [] [] Potential.default ts 0).

Definition getNumOfLevels (this : t) : Z := numOfLevels this.
Definition getBox (this : t) (level index : Z) : result Box.t := get_box this level index.

(** The largest number of sources or of targets in a cell of the finest level. *)
Definition getClusterThreshold (this : t) : result Z :=
  let leaf := numOfLevels this - 1 in
  do row <- vget (tree_structure this) leaf;
  forM 0 (size row)
    (fun i ans =>
       do b <- get_box this leaf i;
       let xlength := Box.getSizeX b in
       let ylength := Box.getSizeY b in
       let ans := if xlength >? ans then xlength else ans in
       let ans := if ylength >? ans then ylength else ans in
       Ret ans)
    0.

Section WithLib.
Context {L : ComplexLib}.

(** The first [i] with [z[i].equals(p)], or [-1]. *)
Fixpoint getIndex_from (z : list Point.t) (p : Point.t) (i : Z) : Z :=
  match z with
  | [] => -1
  | q :: z' => if Point.equals q p then i else getIndex_from z' p (i + 1)
  end.
Definition getIndex (z : list Point.t) (p : Point.t) : Z := getIndex_from z p 0.

Definition upwardPass (this : t) (u : list double) : result t :=
  let leaf := numOfLevels this - 1 in
  do leaves <- vget (tree_structure this) leaf;
  do this <-
    forM 0 (size leaves)
      (fun i this =>
         do thisBox <- get_box this leaf i;
         let xPoints := Box.getX thisBox in
         forM 0 (size xPoints)
           (fun j this =>
              do thisX <- vget xPoints j;
              do thisBox <- get_box this leaf i;
              do B <- Potential.getSCoeff (potential this) (Point.getCoord thisX)
                        (Point.getCoord (Box.getCenter thisBox));
              let this := count this (1 + Potential.getP (potential this)) in
              do thisU <- vget u (getIndex (x this) thisX);
              do B <- forM 0 (size B)
                        (fun k B => do bk <- vget B k; vset B k (cscale bk thisU)) B;
              let this := count this (size B) in
              do thisBox <- Box.addToC thisBox B;
              do this <- set_box this leaf i thisBox;
              Ret (count this (Potential.getP (potential this))))
           this)
      this;
  forM_down (numOfLevels this - 1) 2
    (fun el this =>
       do row <- vget (tree_structure this) el;
       forM 0 (size row)
         (fun k this =>
            do thisBox <- get_box this el k;
            let parentBoxLevel := el - 1 in
            do parentBox <- get_box this parentBoxLevel (Box.getParentIndex thisBox);
            let from := Point.getCoord (Box.getCenter thisBox) in
            let to := Point.getCoord (Box.getCenter parentBox) in
            do newCoeffs <- Potential.getSS (potential this) from to (Box.getC thisBox);
            do parentBox <- Box.addToC parentBox newCoeffs;
            do this <- set_box this parentBoxLevel (Box.getParentIndex thisBox) parentBox;
            let p := Potential.getP (potential this) in
            Ret (count this (3 + p * p + p)))
         this)
    this.

Definition downwardPass1 (this : t) : result t :=
  forM 2 (numOfLevels this)
    (fun el this =>
       do row <- vget (tree_structure this) el;
       forM 0 (size row)
         (fun k this =>
            do thisBox <- get_box this el k;
            let thisBoxNeighborsE4Indexes := Box.getNeighborsE4Index thisBox in
            forM 0 (size thisBoxNeighborsE4Indexes)
              (fun j this =>
                 do n <- vget thisBoxNeighborsE4Indexes j;
                 do thisBoxE4Neighbor <- get_box this el n;
                 do thisBox <- get_box this el k;
                 let from := Point.getCoord (Box.getCenter thisBoxE4Neighbor) in
                 let to := Point.getCoord (Box.getCenter thisBox) in
                 do newCoeffs <- Potential.getSR (potential this) from to
                                   (Box.getC thisBoxE4Neighbor);
                 do thisBox <- Box.addToDtilde thisBox newCoeffs;
                 do this <- set_box this el k thisBox;
                 Ret (count this 2))
              this)
         this)
    this.

Definition downwardPass2 (this : t) : result t :=
  do row2 <- vget (tree_structure this) 2;
  do this <-
    forM 0 (size row2)
      (fun i this =>
         do b <- get_box this 2 i;
         do b <- Box.addToD b (Box.getDtilde b);
         do this <- set_box this 2 i b;
         Ret (count this (Potential.getP (potential this))))
      this;
  forM 2 (numOfLevels this - 1)
    (fun el this =>
       do row <- vget (tree_structure this) el;
       forM 0 (size row)
         (fun m this =>
            do thisBox <- get_box this el m;
            let from := Point.getCoord (Box.getCenter thisBox) in
            let this := count this 1 in
            let children_indexes := Box.getChildrenIndex thisBox in
            forM 0 (size children_indexes)
              (fun k this =>
                 do n <- vget children_indexes k;
                 do thisBoxChild <- get_box this (el + 1) n;
                 do thisBox <- get_box this el m;
                 let to := Point.getCoord (Box.getCenter thisBoxChild) in
                 do newCoeffs <- Potential.getRR (potential this) from to
                                   (Box.getD thisBox);
                 do thisBoxChild <- Box.addToD thisBoxChild newCoeffs;
                 do thisBoxChild <- Box.addToD thisBoxChild (Box.getDtilde thisBoxChild);
                 do this <- set_box this (el + 1) n thisBoxChild;
                 let p := Potential.getP (potential this) in
                 Ret (count this (1 + p * p + p * 2)))
              this)
         this)
    this.

(** The coincidence test of [solve]: lines 23-24 of its loop nest. *)
Definition coincident_solve (thisYCoord thisXCoord : complex) : bool :=
  let maxXY := dmax (cabs thisXCoord) (cabs thisYCoord) in
  let maxXYOne := dmax 1%float maxXY in
  (cabs (csub thisYCoord thisXCoord) <=? epsilon * maxXYOne)%float.

(** One source [thisX] of a near neighbour, for the target [thisY]:
    the state is [(sinPart, this)]. *)
Definition near_source (u : list double) (thisY thisX : Point.t)
    (st : double * t) : result (double * t) :=
  let '(sinPart, this) := st in
  do thisU <- vget u (getIndex (x this) thisX);
  let thisYCoord := Point.getCoord thisY in
  let thisXCoord := Point.getCoord thisX in
  if coincident_solve thisYCoord thisXCoord then Ret (sinPart, this)
  else
    let inc := Potential.direct (Point.getCoord thisY) (Point.getCoord thisX) in
    let inc := cscale inc thisU in
    Ret ((sinPart + real inc)%float, count this 1).

(** One target point [thisY] of the leaf [thisBox]: the state is [(v, this)]. *)
Definition evaluate_target (u : list double) (thisBox : Box.t) (thisY : Point.t)
    (st : list double * t) : result (list double * t) :=
  let '(v, this) := st in
  let leaf := numOfLevels this - 1 in
  let d := Box.getD thisBox in
  do rVec <- Potential.getRVector (potential this) (Point.getCoord thisY)
               (Point.getCoord (Box.getCenter thisBox));
  let this := count this (Potential.getP (potential this)) in
  do '(regPart, this) <-
    forM 0 (size d)
      (fun k '(regPart, this) =>
         do dk <- vget d k;
         do rk <- vget rVec k;
         Ret ((regPart + real (cmul dk rk))%float, count this 1))
      (0%float, this);
  let neighbors_indexes_and_me :=
    push_back (Box.getNeighborsIndex thisBox) (Box.getIndex thisBox) in
  do '(sinPart, this) <-
    forM 0 (size neighbors_indexes_and_me)
      (fun m st =>
         do n <- vget neighbors_indexes_and_me m;
         do thisNeighborsBox <- get_box (snd st) leaf n;
         let thisNeighborsX := Box.getX thisNeighborsBox in
         forM 0 (size thisNeighborsX)
           (fun q st => do thisX <- vget thisNeighborsX q; near_source u thisY thisX st)
           st)
      (0%float, this);
  do v <- vset v (getIndex (y this) thisY) (sinPart + regPart)%float;
  Ret (v, this).

(** The evaluation phase: the loop nest that ends [solve]. *)
Definition evaluate (this : t) (u : list double) (v : list double)
  : result (list double * t) :=
  let leaf := numOfLevels this - 1 in
  do leaves <- vget (tree_structure this) leaf;
  forM 0 (size leaves)
    (fun i st =>
       do thisBox <- get_box (snd st) leaf i;
       let yPoints := Box.getY thisBox in
       forM 0 (size yPoints)
         (fun j st => do thisY <- vget yPoints j; evaluate_target u thisBox thisY st)
         st)
    (v, this).

Definition solve (this : t) (u : list double) : result (list double * t) :=
  do this <- upwardPass this u;
  do this <- downwardPass1 this;
  do this <- downwardPass2 this;
  let v := replicate (Z.to_nat (size (y this))) 0%float in
  evaluate this u v.

(** The coincidence test of [solveDirect]. *)
Definition coincident_direct (yj xi : complex) : bool :=
  let maxXY := dmax (cabs yj) (cabs xi) in
  let maxXYOne := dmax 1%float maxXY in
  (cabs (csub yj xi) <=? epsilon * maxXYOne)%float.

(** The body of the inner loop of [solveDirect], for [y[j]] and [x[i]]. *)
Definition direct_source (u : list double) (yj xi : Point.t) (i : Z) (vj : double)
  : result double :=
  if coincident_direct (Point.getCoord yj) (Point.getCoord xi) then Ret vj
  else
    do ui <- vget u i;
    let potential_direct_calculation :=
      cscale (Potential.direct (Point.getCoord yj) (Point.getCoord xi)) ui in
    Ret (vj + real potential_direct_calculation)%float.

(** [solveDirect]; its counter [numOpsDirect] is left out: no constructor
    initialises it and nothing reads it. *)
Definition solveDirect (this : t) (u : list double) : result (list double) :=
  let v0 := replicate (Z.to_nat (size (y this))) 0%float in
  forM 0 (size v0)
    (fun j v =>
       forM 0 (size (x this))
         (fun i v =>
            do yj <- vget (y this) j;
            do xi <- vget (x this) i;
            do vj <- vget v j;
            do vj <- direct_source u yj xi i vj;
            vset v j vj)
         v)
    v0.

End WithLib.

End FmmTree.

(** ** A reference implementation of the library interface

    Textbook formulas on [double]s, not the correctly rounded functions of a
    C++ run time; they serve to run the model on concrete inputs.  Every
    theorem below is stated for an arbitrary [ComplexLib]. *)

Module RefLib.

Definition mul (a b : complex) : complex :=
  Cplx (real a * real b - imag a * imag b)%float
       (real a * imag b + imag a * real b)%float.

Definition div (a b : complex) : complex :=
  let n := (real b * real b + imag b * imag b)%float in
  Cplx ((real a * real b + imag a * imag b) / n)%float
       ((imag a * real b - real a * imag b) / n)%float.

Definition abs (z : complex) : double :=
  PrimFloat.sqrt (real z * real z + imag z * imag z)%float.

(** [z^n] by repeated multiplication. *)
Definition pow (z : complex) (n : Z) : complex :=
  let r := for_ 0 (Z.abs n) (fun _ acc => mul acc z) (Cplx 1%float 0%float) in
  if n <? 0 then div (Cplx 1%float 0%float) r else r.

Definition ln2 : double := 0x1.62e42fefa39efp-1%float.
Definition pi : double := 0x1.921fb54442d18p+1%float.

(** [sum_{k < 30} (-1)^(sign*k) s^(2k+1) / (2k+1)]: the series of [atanh]
    ([alternate = false]) and of [atan] ([alternate = true]). *)
Definition odd_series (alternate : bool) (s : double) : double :=
  let s2 := (if alternate then - (s * s) else s * s)%float in
  fst (for_ 0 30
         (fun k '(sum, pw) => ((sum + pw / double_of_Z (2 * k + 1))%float, (pw * s2)%float))
         (0%float, s)).

(** Natural logarithm of a positive finite [double]. *)
Definition ln (r : double) : double :=
  let '(m, e) := Z.frexp r in
  (double_of_Z e * ln2 + 2 * odd_series false ((m - 1) / (m + 1)))%float.

(** Arc tangent for [|z| <= 1], after two halvings of the angle. *)
Definition atan_small (z : double) : double :=
  let half z := (z / (1 + PrimFloat.sqrt (1 + z * z)))%float in
  (4 * odd_series true (half (half z)))%float.

Definition atan (z : double) : double :=
  if (PrimFloat.abs z <=? 1)%float then atan_small z
  else if (0 <? z)%float then (pi / 2 - atan_small (1 / z))%float
  else (- (pi / 2) - atan_small (1 / z))%float.

Definition atan2 (y x : double) : double :=
  if (0 <? x)%float then atan (y / x)%float
  else if (x <? 0)%float then
    (if (y <? 0)%float then atan (y / x) - pi else atan (y / x) + pi)%float
  else if (0 <? y)%float then (pi / 2)%float
  else if (y <? 0)%float then (- (pi / 2))%float
  else 0%float.

Definition log (z : complex) : complex :=
  Cplx (ln (abs z)) (atan2 (imag z) (real z)).

End RefLib.

Definition ref_lib : ComplexLib :=
  {| cmul := RefLib.mul; cdiv := RefLib.div; cabs := RefLib.abs;
     clog := RefLib.log; cpow := RefLib.pow |}.

(** ** Statements of the specification *)

(** The coincidence rule in the words of the specification:
    [|y - x| <= machineEpsilon * max(1, |x|, |y|)]. *)
Definition max3 (a b c : double) : double := dmax a (dmax b c).
Definition coincident {L : ComplexLib} (y x : complex) : bool :=
  (cabs (csub y x) <=? epsilon * max3 1%float (cabs x) (cabs y))%float.

(** The operations of a cell, and the cells that a constructor followed by
    any number of them produces; [p0] is the order given to the constructor. *)
Inductive box_op : Type :=
  | SetLevel (i : Z)
  | SetIndex (i : Z)
  | SetP (p : Z)
  | AddToC (increment : list complex)
  | AddToD (increment : list complex)
  | AddToDtilde (increment : list complex)
  | AddX (pt : Point.t)
  | AddY (pt : Point.t).

Definition box_step (o : box_op) (b : Box.t) : result Box.t :=
  match o with
  | SetLevel i => Ret (Box.setLevel b i)
  | SetIndex i => Ret (Box.setIndex b i)
  | SetP p => Ret (Box.setP b p)
  | AddToC inc => Box.addToC b inc
  | AddToD inc => Box.addToD b inc
  | AddToDtilde inc => Box.addToDtilde b inc
  | AddX pt => Ret (Box.addX b pt)
  | AddY pt => Ret (Box.addY b pt)
  end.

Inductive box_reachable (p0 : Z) : Box.t -> Prop :=
  | reach_new level index b :
      Box.new level index p0 = Ret b -> box_reachable p0 b
  | reach_default b :
      p0 = Box.DEFAULT_P -> Box.default = Ret b -> box_reachable p0 b
  | reach_step o b b' :
      box_reachable p0 b -> box_step o b = Ret b' -> box_reachable p0 b'.

(** Building the tree and solving, as [main] does. *)
Definition build_and_solve {L : ComplexLib} (level p : Z)
    (sources targets : list Point.t) (u : list double) : result (list double) :=
  do tree <- FmmTree.new level sources targets (Potential.mk p);
  do r <- FmmTree.solve tree u;
  Ret (fst r).

(** The integers [0 .. n-1], to check a property of each by evaluation. *)
Definition zrange (n : Z) : list Z := map Z.of_nat (seq 0 (Z.to_nat n)).

(** One coordinate of the centre of a cell: [(a + 0.5) * 2^-level]. *)
Definition center_coord (level a : Z) : double :=
  ((double_of_Z a + 0.5) * pow2 (- level))%float.

(** What [neighbors_of] collects around the cell [(x, y)]. *)
Definition is_neighbor_of (x y level m : Z) : Prop :=
  exists i j, -1 <= i <= 1 /\ -1 <= j <= 1 /\ (i <> 0 \/ j <> 0) /\
    0 <= x + i < 2 ^ level /\ 0 <= y + j < 2 ^ level /\
    m = Util.interleave (x + i) (y + j) level.

(** A vector whose valid indices are exactly [0 .. hi]. *)
Definition indexed_upto {A} (v : list A) (hi : Z) : Prop :=
  size v = hi + 1 /\ forall i, (exists a, vget v i = Ret a) <-> 0 <= i <= hi.

(** Everything of a tree but its operation counter. *)
Definition frame (this : FmmTree.t) :=
  (FmmTree.tree_structure this, FmmTree.x this, FmmTree.y this,
   FmmTree.potential this, FmmTree.numOfLevels this, FmmTree.currLevel this).

(** Unwrapping of a result, for the examples. *)
Definition from_result {A} (default : A) (r : result A) : A :=
  match r with Ret a => a | _ => default end.

(** ** A small configuration, to run the model

    Three points that are sources and targets at once, as in [main]; the
    tree has 3 levels and the order is 13. *)
Definition demo_points : list Point.t :=
  [Point.mk (Cplx 0.125 0.125); Point.mk (Cplx 0.875 0.875);
   Point.mk (Cplx 0.8125 0.9375)]%float.
Definition demo_charges : list double := [1; 1; 1]%float.
(** The second point, as a target and as the source it coincides with. *)
Definition demo_target : Point.t := Point.mk (Cplx 0.875 0.875)%float.
Definition demo_source : Point.t := Point.mk (Cplx 0.875 0.875)%float.

Definition empty_tree : FmmTree.t := FmmTree.mk 0 0 [] [] (Potential.mk 0) [] 0.

(** The tree after the upward pass and the two downward passes. *)
Definition demo_tree : FmmTree.t :=
  Eval vm_compute in
    from_result empty_tree
      (do t <- FmmTree.new 3 demo_points demo_points (Potential.mk 13);
       do t <- FmmTree.upwardPass (L := ref_lib) t demo_charges;
       do t <- FmmTree.downwardPass1 (L := ref_lib) t;
       FmmTree.downwardPass2 (L := ref_lib) t).

(** A cell with nothing in it, for the index computations. *)
Definition cell (level index : Z) : Box.t := Box.mk level index 12 true [] [] [] [] [].

(** The outcome of the evaluation phase on it. *)
Definition demo_evaluated : list double * FmmTree.t :=
  Eval vm_compute in
    from_result ([], empty_tree)
      (FmmTree.evaluate (L := ref_lib) demo_tree demo_charges [0; 0; 0]%float).

(** The offsets that the double loop of [neighbors_of] visits, in its order. *)
Definition offsets : list (Z * Z) :=
  [(-1, -1); (-1, 0); (-1, 1); (0, -1); (0, 0); (0, 1); (1, -1); (1, 0); (1, 1)].

(** The test of that loop on exact integers. *)
Definition in_grid (x y level : Z) (ij : Z * Z) : bool :=
  (negb (fst ij =? 0) || negb (snd ij =? 0))
  && (x + fst ij >=? 0) && (x + fst ij <? 2 ^ level)
  && (y + snd ij >=? 0) && (y + snd ij <? 2 ^ level).

(** Two cells of a level touch: they differ, and their grid coordinates
    differ by at most one in each direction. *)
Definition adjacent (level n m : Z) : Prop :=
  n <> m /\
  Z.abs (fst (Util.uninterleave_ints m level) - fst (Util.uninterleave_ints n level)) <= 1 /\
  Z.abs (snd (Util.uninterleave_ints m level) - snd (Util.uninterleave_ints n level)) <= 1.

(** [n] coefficients, all zero. *)
Definition zeros (n : Z) : list complex := replicate (Z.to_nat n) czero.

(** A tree whose level [i] has the cells [cf i 0 .. cf i (w i - 1)]. *)
Definition grid_tree (levels : Z) (w : Z -> Z) (cf : Z -> Z -> Box.t)
  : list (list Box.t) :=
  map (fun i => map (cf i) (zrange (w i))) (zrange levels).

(** The points of a list that [getBoxIndex] sends to cell [n] of [level], in
    the order of the list. *)
Definition sorted_into (level n : Z) (pts : list Point.t) : list Point.t :=
  List.filter (fun pt => Point.getBoxIndex pt level =? n) pts.

(** Cell [j] of level [i] of a tree of [levels] levels, as the constructor
    leaves it: made by [Box()], relabelled, and filled at the finest level. *)
Definition built_cell (levels p : Z) (xs ys : list Point.t) (i j : Z) : Box.t :=
  Box.mk i j p true (zeros 13) (zeros 13) (zeros 13)
    (if i =? levels - 1 then sorted_into i j xs else [])
    (if i =? levels - 1 then sorted_into i j ys else []).

Definition built_tree (levels p : Z) (xs ys : list Point.t) : list (list Box.t) :=
  grid_tree levels (fun i => 4 ^ i) (built_cell levels p xs ys).

(** What the solver phases leave alone in a cell: everything but the values
    of the coefficients. *)
Definition cell_shape (b : Box.t) :=
  (Box.level b, Box.index b, Box.p b, Box.empty b, Box.x b, Box.y b,
   size (Box.c b), size (Box.dtilde b), size (Box.d b)).

(** And in a tree: everything but the values of the coefficients and the
    operation counter. *)
Definition tree_shape (this : FmmTree.t) :=
  (FmmTree.numOfLevels this, FmmTree.currLevel this, FmmTree.x this, FmmTree.y this,
   FmmTree.potential this, map (map cell_shape) (FmmTree.tree_structure this)).

(** A computation that ends without a result: by an abort or in undefined
    behaviour. *)
Definition no_result {A} (r : result A) : Prop := r = Abort \/ r = Undefined.

(** A matrix of [n] rows of [n] entries. *)
Definition square (n : Z) (m : Potential.matrix) : Prop :=
  size m = n /\ Forall (fun row => size row = n) m.

(** The sum that [solveDirect] forms for the target [yj]: over the sources
    in their order, each with its charge, leaving out the sources that
    coincide with the target. *)
Definition direct_sum {L : ComplexLib} (xs : list Point.t) (u : list double)
    (yj : Point.t) : double :=
  fold_left
    (fun vj xu =>
       if FmmTree.coincident_direct (Point.getCoord yj) (Point.getCoord (fst xu)) then vj
       else (vj + real (cscale (Potential.direct (Point.getCoord yj)
                                                  (Point.getCoord (fst xu)))
                               (snd xu)))%float)
    (zip xs u) 0%float.

(** A tree that differs from the one the constructor has built for the order
    [p] only in the values of its coefficients and in its operation counter. *)
Definition built_like (levels p : Z) (xs ys : list Point.t) (t : FmmTree.t) : Prop :=
  tree_shape t =
  tree_shape (FmmTree.mk levels (levels - 1) xs ys (Potential.mk p)
                (built_tree levels p xs ys) 0).

(** Every point of the list is a point that [equals] itself. *)
Definition self_equal {L : ComplexLib} (pts : list Point.t) : Prop :=
  Forall (fun pt => Point.equals pt pt = true) pts.


(** The offsets, from the lower left child of the parent, of the cells of
    the 6 x 6 block made of the children of the parent and of the parent's
    neighbours. *)
Definition block_offsets : list (Z * Z) :=
  list_prod [-2; -1; 0; 1; 2; 3] [-2; -1; 0; 1; 2; 3].

(** Those of them that do not touch the child at the offset [(rx, ry)]. *)
Definition far_offsets (rx ry : Z) : list (Z * Z) :=
  List.filter (fun d => (1 <? Z.abs (fst d - rx)) || (1 <? Z.abs (snd d - ry)))
              block_offsets.


(** ** Example1.cc: the points and the charges of the example *)

(** [unsigned int]: arithmetic modulo [2^32]. *)
Definition uint_max : Z := 2 ^ 32 - 1.
Definition uadd (a b : Z) : Z := (a + b) mod 2 ^ 32.
Definition usub (a b : Z) : Z := (a - b) mod 2 ^ 32.

(** [(unsigned int) f]: the value is truncated toward zero; the conversion is
    undefined when the truncated value is not an [unsigned int] (and for NaN
    and the infinities). *)
Definition uint_of_double (f : double) : result Z :=
  match truncZ f with
  | Some z => if (0 <=? z) && (z <=? uint_max) then Ret z else Undefined
  | None => Undefined
  end.

(** [v.resize(n)] on a vector whose new elements are value-initialised to [a]. *)
Definition resize {A} (v : list A) (n : Z) (a : A) : list A :=
  if n <=? size v then take (Z.to_nat n) v
  else v ++ replicate (Z.to_nat (n - size v)) a.

(** [for (double c = c0; c < 1.0; c += step) s = body c s], for a body that
    can fail, with a bound on the number of rounds. *)
Fixpoint loop_below_one {S} (rounds : nat) (c step : double)
    (body : double -> S -> result S) (s : S) : result S :=
  if (c <? 1)%float then
    match rounds with
    | O => Undefined
    | Datatypes.S rounds' =>
        do s' <- body c s; loop_below_one rounds' (c + step)%float step body s'
    end
  else Ret s.

Module Example1.

Record t : Type := mk {
  x : list Point.t;
  y : list Point.t;
  u : list double;
  L : Z;                          (* unsigned int *)
  cells_per_side : double;
  cell_length : double;
  quarter_length : double;
  three_quarter_length : double;
  nTotalParticles : Z             (* unsigned int *)
}.

Definition getX (this : t) : list Point.t := x this.
Definition getY (this : t) : list Point.t := y this.
Definition getU (this : t) : list double := u this.

Definition with_x (this : t) (v : list Point.t) : t :=
  mk v (y this) (u this) (L this) (cells_per_side this) (cell_length this)
     (quarter_length this) (three_quarter_length this) (nTotalParticles this).
Definition with_y (this : t) (v : list Point.t) : t :=
  mk (x this) v (u this) (L this) (cells_per_side this) (cell_length this)
     (quarter_length this) (three_quarter_length this) (nTotalParticles this).
Definition with_u (this : t) (v : list double) : t :=
  mk (x this) (y this) v (L this) (cells_per_side this) (cell_length this)
     (quarter_length this) (three_quarter_length this) (nTotalParticles this).

(** [v[n].setX(x_coord); v[n].setY(y_coord);] *)
Definition set_point (v : list Point.t) (n : Z) (x_coord y_coord : double)
  : result (list Point.t) :=
  do pt <- vget v n;
  do v <- vset v n (Point.setX pt x_coord);
  do pt <- vget v n;
  vset v n (Point.setY pt y_coord).

(** The two loops of [createSourcePointsX] and of [createTargetPointsY],
    which differ in the vector they fill only, with a bound on the rounds of
    each loop. *)
Definition create_points_within (rounds : nat) (this : t) (v : list Point.t)
  : result (list Point.t) :=
  let n_points := 0 in
  do '(n_points, v) <-
    loop_below_one rounds 0%float (cell_length this)
      (fun y_coord st =>
         loop_below_one rounds 0%float (cell_length this)
           (fun x_coord '(n_points, v) =>
              do v <- set_point v n_points (x_coord + quarter_length this)%float
                                           (y_coord + quarter_length this)%float;
              let n_points := uadd n_points 1 in
              do v <- set_point v n_points (x_coord + three_quarter_length this)%float
                                           (y_coord + quarter_length this)%float;
              let n_points := uadd n_points 1 in
              do v <- set_point v n_points (x_coord + quarter_length this)%float
                                           (y_coord + three_quarter_length this)%float;
              let n_points := uadd n_points 1 in
              do v <- set_point v n_points (x_coord + three_quarter_length this)%float
                                           (y_coord + three_quarter_length this)%float;
              let n_points := uadd n_points 1 in
              Ret (n_points, v))
           st)
      (n_points, v);
  Ret v.

(** Every round of either loop writes four more elements of [v], so a write
    has left the vector before a loop has made as many rounds as [v] has
    elements. *)
Definition create_points (this : t) (v : list Point.t) : result (list Point.t) :=
  create_points_within (length v) this v.

Definition createSourcePointsX (this : t) : result t :=
  do v <- create_points this (x this); Ret (with_x this v).

Definition createTargetPointsY (this : t) : result t :=
  do v <- create_points this (y this); Ret (with_y this v).

Definition createSourceParticleChargesU (this : t) : result t :=
  do v <- forM 0 (size (u this)) (fun i u => vset u i 1%float) (u this);
  Ret (with_u this v).

(** [Example1(unsigned int upper_refinement_level_L)].  [L - 1] is computed
    on [unsigned int]; [pow(2.0, L-1)] and [pow(4, L-1)] are the powers of
    two themselves, as [double]s. *)
Definition new (upper_refinement_level_L : Z) : result t :=
  let L := upper_refinement_level_L in
  let cells_per_side := pow2 (usub L 1) in
  let cell_length := ((1 - 0) / cells_per_side)%float in
  let quarter_length := (0.25 * cell_length)%float in
  let three_quarter_length := (0.75 * cell_length)%float in
  do nTotalParticles <- uint_of_double (4 * pow2 (2 * usub L 1))%float;
  let this :=
    mk (resize [] nTotalParticles Point.default)
       (resize [] nTotalParticles Point.default)
       (resize [] nTotalParticles 0%float)
       L cells_per_side cell_length quarter_length three_quarter_length
       nTotalParticles in
  do this <- createSourcePointsX this;
  do this <- createTargetPointsY this;
  createSourceParticleChargesU this.

End Example1.

(** Point number [m] of the example of level [L]: corner [m mod 4] (lower
    left, lower right, upper left, upper right) of the cell [m / 4], the
    cells being counted row by row in a grid of [2^(L-1)] columns; the
    corners lie a quarter and three quarters of a cell into the cell. *)
Definition grid_point (L m : Z) : Point.t :=
  let col := (m / 4) mod 2 ^ (L - 1) in
  let row := (m / 4) / 2 ^ (L - 1) in
  Point.mk
    (Cplx ((double_of_Z col + (if Z.odd m then 0.75 else 0.25)) * pow2 (1 - L))%float
          ((double_of_Z row + (if Z.odd (m / 2) then 0.75 else 0.25)) * pow2 (1 - L))%float).

Definition grid_points (L : Z) : list Point.t := map (grid_point L) (zrange (4 ^ L)).

(** * Properties *)

(** ** Outcomes, loops and vectors *)

Lemma rbind_Ret {A B} (m : result A) (k : A -> result B) (b : B) :
  rbind m k = Ret b -> exists a, m = Ret a /\ k a = Ret b.
Proof. destruct m; simpl; intros H; try discriminate. eauto. Qed.

Lemma size_nonneg {A} (v : list A) : 0 <= size v.
Proof. unfold size. lia. Qed.

Lemma vget_Ret {A} (v : list A) (i : Z) (a : A) :
  vget v i = Ret a <-> 0 <= i /\ v !! Z.to_nat i = Some a.
Proof.
  unfold vget. destruct (Z.ltb_spec i 0).
  - split; [discriminate | lia].
  - destruct (v !! Z.to_nat i) eqn:E; split; intros H1;
      try discriminate; try (destruct H1; congruence).
    inversion H1; subst. auto.
Qed.

Lemma vget_in_range {A} (v : list A) (i : Z) :
  0 <= i < size v -> exists a, vget v i = Ret a.
Proof.
  intros Hi. unfold vget. destruct (Z.ltb_spec i 0); [lia|].
  assert (Hlt : (Z.to_nat i < length v)%nat) by (unfold size in Hi; lia).
  destruct (lookup_lt_is_Some_2 v (Z.to_nat i) Hlt) as [a Ha].
  rewrite Ha. eauto.
Qed.

Lemma vget_out_of_range {A} (v : list A) (i : Z) :
  ~ (0 <= i < size v) -> vget v i = Undefined.
Proof.
  intros Hi. unfold vget. destruct (Z.ltb_spec i 0); [reflexivity|].
  rewrite lookup_ge_None_2; [reflexivity|]. unfold size in Hi. lia.
Qed.

Lemma vset_Ret {A} (v v' : list A) (i : Z) (a : A) :
  vset v i a = Ret v' ->
  0 <= i < size v /\ v' = <[Z.to_nat i := a]> v /\ size v' = size v.
Proof.
  unfold vset. destruct (Z.leb_spec 0 i), (Z.ltb_spec i (size v)); simpl;
    intros H1; try discriminate.
  inversion H1; subst. unfold size. rewrite length_insert. auto.
Qed.

Lemma vset_in_range {A} (v : list A) (i : Z) (a : A) :
  0 <= i < size v -> vset v i a = Ret (<[Z.to_nat i := a]> v).
Proof.
  intros Hi. unfold vset.
  destruct (Z.leb_spec 0 i), (Z.ltb_spec i (size v)); simpl; auto; lia.
Qed.

Lemma vnew_Ret {A} (n : Z) (a : A) (v : list A) :
  vnew n a = Ret v -> 0 <= n /\ v = replicate (Z.to_nat n) a /\ size v = n.
Proof.
  unfold vnew. destruct (Z.ltb_spec n 0); intros H1; [discriminate|].
  inversion H1; subst. unfold size. rewrite length_replicate.
  repeat split; lia.
Qed.

(** A loop whose body keeps an invariant keeps it. *)
Lemma iterM_up_inv {S} (P : S -> Prop) (body : Z -> S -> result S) :
  (forall i s s', P s -> body i s = Ret s' -> P s') ->
  forall n i s s', P s -> iterM_up n i body s = Ret s' -> P s'.
Proof.
  intros Hbody n. induction n as [|n IH]; simpl; intros i s s' Hs H.
  - inversion H; subst. exact Hs.
  - apply rbind_Ret in H as (s1 & H1 & H2). eauto.
Qed.

Lemma forM_inv {S} (P : S -> Prop) (body : Z -> S -> result S) lo hi s s' :
  (forall i s s', P s -> body i s = Ret s' -> P s') ->
  P s -> forM lo hi body s = Ret s' -> P s'.
Proof. intros Hbody Hs H. eapply iterM_up_inv; eauto. Qed.

Lemma forM_down_inv {S} (P : S -> Prop) (body : Z -> S -> result S) hi lo s s' :
  (forall i s s', P s -> body i s = Ret s' -> P s') ->
  P s -> forM_down hi lo body s = Ret s' -> P s'.
Proof.
  intros Hbody Hs. unfold forM_down.
  generalize (Z.to_nat (hi - lo + 1)) as n. intros n. revert hi s Hs.
  induction n as [|n IH]; simpl; intros hi s Hs H.
  - inversion H; subst. exact Hs.
  - apply rbind_Ret in H as (s1 & H1 & H2). eauto.
Qed.

(** A property of the first [n] integers that a computation checks. *)
Lemma forall_below (P : Z -> bool) (n : nat) :
  forallb P (map Z.of_nat (seq 0 n)) = true ->
  forall k, 0 <= k < Z.of_nat n -> P k = true.
Proof.
  intros H k Hk. rewrite forallb_forall in H. apply H.
  apply in_map_iff. exists (Z.to_nat k). split; [lia|].
  apply in_seq. lia.
Qed.

(** ** int and bits *)

Lemma wrap_small (z : Z) : int_min <= z <= int_max -> wrap z = z.
Proof.
  unfold wrap, int_min, int_max. intros H.
  rewrite Z.mod_small; lia.
Qed.

Lemma iadd_small (a b : Z) : int_min <= a + b <= int_max -> iadd a b = a + b.
Proof. apply wrap_small. Qed.

Lemma pow2_le_30 (pos : Z) : 0 <= pos <= 30 -> 0 < 2 ^ pos <= 2 ^ 30.
Proof.
  intros H. split; [apply Z.pow_pos_nonneg; lia|].
  apply Z.pow_le_mono_r; lia.
Qed.

Lemma shl_1 (pos : Z) : 0 <= pos <= 30 -> shl 1 pos = 2 ^ pos.
Proof.
  intros H. unfold shl. rewrite Z.shiftl_1_l.
  apply wrap_small. pose proof (pow2_le_30 pos H).
  unfold int_min, int_max. lia.
Qed.

Lemma land_pow2 (n pos : Z) :
  0 <= pos -> Z.land n (2 ^ pos) = if Z.testbit n pos then 2 ^ pos else 0.
Proof.
  intros H. apply Z.bits_inj'. intros k Hk.
  rewrite Z.land_spec, Z.pow2_bits_eqb by lia.
  destruct (Z.eqb_spec pos k) as [->|Hne].
  - destruct (Z.testbit n k); simpl.
    + rewrite Z.pow2_bits_eqb, Z.eqb_refl by lia. reflexivity.
    + rewrite Z.bits_0. reflexivity.
  - rewrite andb_false_r. destruct (Z.testbit n pos).
    + rewrite Z.pow2_bits_eqb by lia. symmetry. apply Z.eqb_neq. exact Hne.
    + rewrite Z.bits_0. reflexivity.
Qed.

Lemma getbit_spec (n pos : Z) :
  0 <= pos <= 30 -> Util.getbit n pos = if Z.testbit n pos then 1 else 0.
Proof.
  intros H. unfold Util.getbit. rewrite shl_1, land_pow2 by lia.
  destruct (Z.testbit n pos).
  - pose proof (pow2_le_30 pos H). destruct (Z.eqb_spec (2 ^ pos) 0); [lia | reflexivity].
  - reflexivity.
Qed.

(** Writing bit [q] of [m] at position [pos] of [n]. *)
Lemma setbit_getbit_testbit (n pos m q k : Z) :
  0 <= pos <= 30 -> 0 <= q <= 30 -> 0 <= k ->
  Z.testbit (Util.setbit n pos (Util.getbit m q)) k =
  if k =? pos then Z.testbit m q else Z.testbit n k.
Proof.
  intros Hpos Hq Hk. unfold Util.setbit. rewrite getbit_spec, shl_1 by lia.
  destruct (Z.testbit m q); simpl.
  - rewrite Z.lor_spec, Z.pow2_bits_eqb by lia.
    rewrite (Z.eqb_sym pos k). destruct (k =? pos); [apply orb_true_r | apply orb_false_r].
  - rewrite Z.land_spec, Z.lnot_spec, Z.pow2_bits_eqb by lia.
    rewrite (Z.eqb_sym pos k). destruct (k =? pos); [apply andb_false_r | apply andb_true_r].
Qed.

(** An integer whose bits from position [n] on are all clear lies in
    [[0, 2^n)]. *)
Lemma bits_above_clear (r n : Z) :
  0 <= n -> (forall k, n <= k -> Z.testbit r k = false) -> 0 <= r < 2 ^ n.
Proof.
  intros Hn Hbits.
  assert (E : r = r mod 2 ^ n).
  { apply Z.bits_inj'. intros k Hk. destruct (Z.lt_ge_cases k n).
    - rewrite Z.mod_pow2_bits_low by lia. reflexivity.
    - rewrite Z.mod_pow2_bits_high by lia. apply Hbits. lia. }
  rewrite E. apply Z.mod_pos_bound. apply Z.pow_pos_nonneg; lia.
Qed.

Lemma bits_clear_above (r n k : Z) :
  0 <= r < 2 ^ n -> n <= k -> Z.testbit r k = false.
Proof.
  intros Hr Hk. destruct (Z.eq_dec r 0) as [->|Hne]; [apply Z.bits_0|].
  apply Z.bits_above_log2; [lia|].
  assert (0 <= n).
  { destruct (Z.lt_ge_cases n 0); [|lia]. rewrite Z.pow_neg_r in Hr; lia. }
  assert (Z.log2 r < n) by (apply Z.log2_lt_pow2; lia). lia.
Qed.

(** Every position is even or odd. *)
Lemma position_cases (k : Z) : 0 <= k -> exists j, 0 <= j /\ (k = 2 * j \/ k = 2 * j + 1).
Proof.
  intros Hk. exists (k / 2). pose proof (Z.div_mod k 2). pose proof (Z.mod_pos_bound k 2).
  split; [apply Z.div_pos; lia | lia].
Qed.

(** ** The Morton index, bit by bit *)


Lemma interleave_loop_bits (x y level : Z) (n : nat) : forall (i ans j : Z),
  0 <= level <= 15 -> 0 <= i -> i + Z.of_nat n = level -> 0 <= j ->
  Z.testbit (iter_up n i (Util.interleave_step x y level) ans) (2 * j + 1) =
    (if j <? level - i then Z.testbit x j else Z.testbit ans (2 * j + 1)) /\
  Z.testbit (iter_up n i (Util.interleave_step x y level) ans) (2 * j) =
    (if j <? level - i then Z.testbit y j else Z.testbit ans (2 * j)).
Proof.
  induction n as [|n IH]; intros i ans j Hl Hi Hn Hj; simpl.
  - destruct (Z.ltb_spec j (level - i)); [lia | auto].
  - destruct (IH (i + 1) (Util.interleave_step x y level i ans) j) as [IHx IHy]; [lia..|].
    rewrite IHx, IHy. unfold Util.interleave_step.
    rewrite !setbit_getbit_testbit by lia.
    destruct (Z.ltb_spec j (level - (i + 1))), (Z.ltb_spec j (level - i)); try lia.
    + auto.
    + repeat match goal with |- context [?a =? ?b] => destruct (Z.eqb_spec a b); try lia end.
      replace (level - i - 1) with j by lia. auto.
    + repeat match goal with |- context [?a =? ?b] => destruct (Z.eqb_spec a b); try lia end.
      auto.
Qed.

Lemma interleave_bits (x y level j : Z) : 0 <= level <= 15 -> 0 <= j ->
  Z.testbit (Util.interleave x y level) (2 * j + 1) = (j <? level) && Z.testbit x j /\
  Z.testbit (Util.interleave x y level) (2 * j) = (j <? level) && Z.testbit y j.
Proof.
  intros Hl Hj.
  destruct (interleave_loop_bits x y level (Z.to_nat (level - 0)) 0 0 j) as [Ex Ey]; [lia..|].
  unfold Util.interleave, for_.
  destruct (Z.eqb_spec x 0) as [->|Hx]; simpl.
  - destruct (Z.eqb_spec y 0) as [->|Hy].
    + rewrite !Z.bits_0, !andb_false_r. auto.
    + rewrite Ex, Ey, !Z.bits_0, Z.sub_0_r. destruct (j <? level); auto.
  - rewrite Ex, Ey, !Z.bits_0, Z.sub_0_r. destruct (j <? level); auto.
Qed.

Lemma interleave_range (x y level : Z) :
  0 <= level <= 15 -> 0 <= Util.interleave x y level < 4 ^ level.
Proof.
  intros Hl. replace (4 ^ level) with (2 ^ (2 * level)).
  2:{ rewrite Z.pow_mul_r by lia. reflexivity. }
  apply bits_above_clear; [lia|]. intros k Hk.
  destruct (position_cases k) as (j & Hj & [->| ->]); [lia | |].
  - destruct (interleave_bits x y level j Hl Hj) as [_ ->].
    destruct (Z.ltb_spec j level); [lia | reflexivity].
  - destruct (interleave_bits x y level j Hl Hj) as [-> _].
    destruct (Z.ltb_spec j level); [lia | reflexivity].
Qed.


Lemma uninterleave_loop_bits (n L : Z) (m : nat) : forall (i xInt yInt j : Z),
  0 <= L <= 15 -> 0 <= i -> i + Z.of_nat m = L -> 0 <= j ->
  Z.testbit (fst (iter_up m i (Util.uninterleave_step n L) (xInt, yInt))) j =
    (if j <? L - i then Z.testbit n (2 * j + 1) else Z.testbit xInt j) /\
  Z.testbit (snd (iter_up m i (Util.uninterleave_step n L) (xInt, yInt))) j =
    (if j <? L - i then Z.testbit n (2 * j) else Z.testbit yInt j).
Proof.
  induction m as [|m IH]; intros i xInt yInt j HL Hi Hm Hj; simpl.
  - destruct (Z.ltb_spec j (L - i)); [lia | auto].
  - destruct (IH (i + 1)
                (Util.setbit xInt (L - i - 1) (Util.getbit n ((L - i - 1) * 2 + 1)))
                (Util.setbit yInt (L - i - 1) (Util.getbit n ((L - i - 1) * 2))) j)
      as [IHx IHy]; [lia..|].
    rewrite IHx, IHy. rewrite !setbit_getbit_testbit by lia.
    destruct (Z.ltb_spec j (L - (i + 1))), (Z.ltb_spec j (L - i)); try lia.
    + auto.
    + destruct (Z.eqb_spec j (L - i - 1)); [|lia].
      replace ((L - i - 1) * 2 + 1) with (2 * j + 1) by lia.
      replace ((L - i - 1) * 2) with (2 * j) by lia. auto.
    + destruct (Z.eqb_spec j (L - i - 1)); [lia|]. auto.
Qed.

Lemma uninterleave_ints_bits (n L j : Z) : 0 <= L <= 15 -> 0 <= j ->
  Z.testbit (fst (Util.uninterleave_ints n L)) j = (j <? L) && Z.testbit n (2 * j + 1) /\
  Z.testbit (snd (Util.uninterleave_ints n L)) j = (j <? L) && Z.testbit n (2 * j).
Proof.
  intros HL Hj. unfold Util.uninterleave_ints, for_.
  destruct (uninterleave_loop_bits n L (Z.to_nat (L - 0)) 0 0 0 j) as [Ex Ey]; [lia..|].
  rewrite Ex, Ey, !Z.bits_0, Z.sub_0_r. destruct (j <? L); auto.
Qed.

Lemma uninterleave_ints_range (n L : Z) :
  0 <= L <= 15 ->
  0 <= fst (Util.uninterleave_ints n L) < 2 ^ L /\
  0 <= snd (Util.uninterleave_ints n L) < 2 ^ L.
Proof.
  intros HL. split; (apply bits_above_clear; [lia|]); intros k Hk.
  - destruct (uninterleave_ints_bits n L k) as [-> _]; [lia..|].
    destruct (Z.ltb_spec k L); [lia | reflexivity].
  - destruct (uninterleave_ints_bits n L k) as [_ ->]; [lia..|].
    destruct (Z.ltb_spec k L); [lia | reflexivity].
Qed.

(** [interleave] undoes the loop of [uninterleave]. *)
Lemma interleave_uninterleave_ints (n L : Z) :
  0 <= L <= 15 -> 0 <= n < 4 ^ L ->
  Util.interleave (fst (Util.uninterleave_ints n L)) (snd (Util.uninterleave_ints n L)) L = n.
Proof.
  intros HL Hn. apply Z.bits_inj'. intros k Hk.
  assert (Hhigh : forall k, 2 * L <= k -> Z.testbit n k = false).
  { intros k' Hk'. apply (bits_clear_above n (2 * L)); [|lia].
    rewrite Z.pow_mul_r by lia. exact Hn. }
  destruct (position_cases k Hk) as (j & Hj & [->| ->]).
  - destruct (interleave_bits (fst (Util.uninterleave_ints n L))
                (snd (Util.uninterleave_ints n L)) L j HL Hj) as [_ ->].
    destruct (uninterleave_ints_bits n L j HL Hj) as [_ ->].
    destruct (Z.ltb_spec j L); simpl; [reflexivity|]. symmetry. apply Hhigh. lia.
  - destruct (interleave_bits (fst (Util.uninterleave_ints n L))
                (snd (Util.uninterleave_ints n L)) L j HL Hj) as [-> _].
    destruct (uninterleave_ints_bits n L j HL Hj) as [-> _].
    destruct (Z.ltb_spec j L); simpl; [reflexivity|]. symmetry. apply Hhigh. lia.
Qed.

(** [interleave] is injective on the grid of a level. *)
Lemma interleave_inj (x y x' y' level : Z) :
  0 <= level <= 15 ->
  0 <= x < 2 ^ level -> 0 <= y < 2 ^ level ->
  0 <= x' < 2 ^ level -> 0 <= y' < 2 ^ level ->
  Util.interleave x y level = Util.interleave x' y' level -> x = x' /\ y = y'.
Proof.
  intros Hl Hx Hy Hx' Hy' E.
  split; apply Z.bits_inj'; intros j Hj.
  - destruct (interleave_bits x y level j Hl Hj) as [E1 _].
    destruct (interleave_bits x' y' level j Hl Hj) as [E2 _].
    rewrite E, E2 in E1. destruct (Z.ltb_spec j level); simpl in E1; [auto|].
    rewrite (bits_clear_above x level j), (bits_clear_above x' level j); auto.
  - destruct (interleave_bits x y level j Hl Hj) as [_ E1].
    destruct (interleave_bits x' y' level j Hl Hj) as [_ E2].
    rewrite E, E2 in E1. destruct (Z.ltb_spec j level); simpl in E1; [auto|].
    rewrite (bits_clear_above y level j), (bits_clear_above y' level j); auto.
Qed.

(** [interleave] reads the low [level] bits of its arguments only. *)
Lemma interleave_mod (x y level : Z) :
  0 <= level <= 15 ->
  Util.interleave x y level = Util.interleave (x mod 2 ^ level) (y mod 2 ^ level) level.
Proof.
  intros Hl. apply Z.bits_inj'. intros k Hk.
  destruct (position_cases k Hk) as (j & Hj & [->| ->]).
  - destruct (interleave_bits x y level j Hl Hj) as [_ ->].
    destruct (interleave_bits (x mod 2 ^ level) (y mod 2 ^ level) level j Hl Hj) as [_ ->].
    destruct (Z.ltb_spec j level); simpl; [|reflexivity].
    rewrite Z.mod_pow2_bits_low by lia. reflexivity.
  - destruct (interleave_bits x y level j Hl Hj) as [-> _].
    destruct (interleave_bits (x mod 2 ^ level) (y mod 2 ^ level) level j Hl Hj) as [-> _].
    destruct (Z.ltb_spec j level); simpl; [|reflexivity].
    rewrite Z.mod_pow2_bits_low by lia. reflexivity.
Qed.

(** ** Exact computations on doubles

    The grid coordinates of the tree are integers below [2^8]; the facts
    about their images in [double] are checked by evaluation over the whole
    range. *)

Lemma zrange_check (P : Z -> bool) (n k : Z) :
  forallb P (zrange n) = true -> 0 <= k < n -> P k = true.
Proof. intros H Hk. apply (forall_below P (Z.to_nat n)); [exact H | lia]. Qed.

Lemma int_of_double_of_Z (k : Z) :
  0 <= k <= 256 -> int_of_double (double_of_Z k) = k.
Proof.
  intros Hk.
  assert (H : forallb (fun k => int_of_double (double_of_Z k) =? k) (zrange 257) = true)
    by (vm_compute; reflexivity).
  apply Z.eqb_eq. apply (zrange_check _ 257 k H). lia.
Qed.

(** The test [x + i < std::pow(2, level)] of the neighbour loops. *)
Lemma lt_pow2_exact (level k : Z) :
  0 <= level <= 8 -> -1 <= k <= 256 ->
  (double_of_Z k <? pow2 level)%float = (k <? 2 ^ level).
Proof.
  intros Hl Hk.
  assert (H : forallb (fun l => forallb (fun k' =>
                 Bool.eqb (double_of_Z (k' - 1) <? pow2 l)%float (k' - 1 <? 2 ^ l))
                 (zrange 258)) (zrange 9) = true)
    by (vm_compute; reflexivity).
  pose proof (zrange_check _ 9 level H ltac:(lia)) as H1. cbv beta in H1.
  pose proof (zrange_check _ 258 (k + 1) H1 ltac:(lia)) as H2. cbv beta in H2.
  replace (k + 1 - 1) with k in H2 by lia.
  apply Bool.eqb_prop. exact H2.
Qed.

Lemma center_coord_distinct (level a b : Z) :
  0 <= level <= 8 -> 0 <= a < 2 ^ level -> 0 <= b < 2 ^ level -> a <> b ->
  (center_coord level a - center_coord level b =? 0)%float = false.
Proof.
  intros Hl Ha Hb Hab.
  assert (H : forallb (fun l => forallb (fun a => forallb (fun b =>
                 (a =? b) || negb (center_coord l a - center_coord l b =? 0)%float)
                 (zrange (2 ^ l))) (zrange (2 ^ l))) (zrange 9) = true)
    by (vm_compute; reflexivity).
  pose proof (zrange_check _ 9 level H ltac:(lia)) as H1. cbv beta in H1.
  pose proof (zrange_check _ _ a H1 Ha) as H2. cbv beta in H2.
  pose proof (zrange_check _ _ b H2 Hb) as H3. cbv beta in H3.
  destruct (Z.eqb_spec a b); [contradiction|]. simpl in H3.
  apply negb_true_iff. exact H3.
Qed.

(** [std::floor(1.0 * std::pow(2, level))] and [std::floor(0.0 * ...)]. *)
Lemma floor_one_scaled (level : Z) :
  0 <= level <= 8 -> int_of_double (dfloor (1 * pow2 level)%float) = 2 ^ level.
Proof.
  intros Hl.
  assert (H : forallb (fun l => int_of_double (dfloor (1 * pow2 l)%float) =? 2 ^ l)
                (zrange 9) = true)
    by (vm_compute; reflexivity).
  apply Z.eqb_eq. apply (zrange_check _ 9 level H). lia.
Qed.

Lemma floor_zero_scaled (level : Z) :
  0 <= level <= 8 -> int_of_double (dfloor (0 * pow2 level)%float) = 0.
Proof.
  intros Hl.
  assert (H : forallb (fun l => int_of_double (dfloor (0 * pow2 l)%float) =? 0)
                (zrange 9) = true)
    by (vm_compute; reflexivity).
  apply Z.eqb_eq. apply (zrange_check _ 9 level H). lia.
Qed.

(** ** Grid coordinates *)

Lemma for_inv {S} (P : S -> Prop) (lo hi : Z) (body : Z -> S -> S) (s : S) :
  (forall i s, lo <= i < hi -> P s -> P (body i s)) -> P s -> P (for_ lo hi body s).
Proof.
  unfold for_. intros Hbody.
  remember (Z.to_nat (hi - lo)) as n eqn:En. revert lo s En Hbody.
  induction n as [|n IH]; intros lo s En Hbody Hs; simpl; [exact Hs|].
  apply IH; [lia | |].
  - intros i s' Hi. apply Hbody. lia.
  - apply Hbody; [lia | exact Hs].
Qed.

Lemma pow2_le_256 (level : Z) : 0 <= level <= 8 -> 0 < 2 ^ level <= 256.
Proof.
  intros H. split; [apply Z.pow_pos_nonneg; lia|].
  change 256 with (2 ^ 8). apply Z.pow_le_mono_r; lia.
Qed.

Lemma uninterleave_ints_0 (L : Z) : 0 <= L <= 15 -> Util.uninterleave_ints 0 L = (0, 0).
Proof.
  intros HL. rewrite (surjective_pairing (Util.uninterleave_ints 0 L)).
  f_equal; apply Z.bits_inj'; intros j Hj; rewrite Z.bits_0.
  - destruct (uninterleave_ints_bits 0 L j HL Hj) as [-> _].
    rewrite Z.bits_0. apply andb_false_r.
  - destruct (uninterleave_ints_bits 0 L j HL Hj) as [_ ->].
    rewrite Z.bits_0. apply andb_false_r.
Qed.

(** [uninterleave] is the pair of integers of its loop, as doubles. *)
Lemma uninterleave_as_ints (n L : Z) :
  0 <= L <= 15 ->
  Util.uninterleave n L =
  Cplx (double_of_Z (fst (Util.uninterleave_ints n L)))
       (double_of_Z (snd (Util.uninterleave_ints n L))).
Proof.
  intros HL. unfold Util.uninterleave. destruct (Z.eqb_spec n 0) as [->|Hn].
  - rewrite uninterleave_ints_0 by exact HL. reflexivity.
  - destruct (Util.uninterleave_ints n L). reflexivity.
Qed.

(** The grid coordinates that the callers of [uninterleave] read back with
    [(int) tmp.real()] and [(int) tmp.imag()]. *)
Lemma uninterleave_read_back (n L : Z) :
  0 <= L <= 8 ->
  int_of_double (real (Util.uninterleave n L)) = fst (Util.uninterleave_ints n L) /\
  int_of_double (imag (Util.uninterleave n L)) = snd (Util.uninterleave_ints n L).
Proof.
  intros HL. rewrite uninterleave_as_ints by lia. simpl.
  destruct (uninterleave_ints_range n L) as [Hx Hy]; [lia|].
  pose proof (pow2_le_256 L HL).
  split; apply int_of_double_of_Z; lia.
Qed.

Lemma uninterleave_ints_inj (n m L : Z) :
  0 <= L <= 15 -> 0 <= n < 4 ^ L -> 0 <= m < 4 ^ L ->
  Util.uninterleave_ints n L = Util.uninterleave_ints m L -> n = m.
Proof.
  intros HL Hn Hm E.
  rewrite <- (interleave_uninterleave_ints n L HL Hn),
          <- (interleave_uninterleave_ints m L HL Hm), E.
  reflexivity.
Qed.

(** The centre of a cell, coordinate by coordinate. *)
Lemma center_coords (level n : Z) :
  0 <= level <= 15 ->
  Box.center level n =
  Cplx (center_coord level (fst (Util.uninterleave_ints n level)))
       (center_coord level (snd (Util.uninterleave_ints n level))).
Proof. intros Hl. unfold Box.center. rewrite uninterleave_as_ints by exact Hl. reflexivity. Qed.

Lemma centers_distinct (level n m : Z) :
  0 <= level <= 8 -> 0 <= n < 4 ^ level -> 0 <= m < 4 ^ level -> n <> m ->
  cis_zero (csub (Box.center level n) (Box.center level m)) = false.
Proof.
  intros Hl Hn Hm Hnm. rewrite !center_coords by lia. unfold cis_zero, csub. simpl.
  destruct (uninterleave_ints_range n level) as [Hxn Hyn]; [lia|].
  destruct (uninterleave_ints_range m level) as [Hxm Hym]; [lia|].
  destruct (Z.eq_dec (fst (Util.uninterleave_ints n level))
                     (fst (Util.uninterleave_ints m level))) as [Ex|Nx].
  - destruct (Z.eq_dec (snd (Util.uninterleave_ints n level))
                       (snd (Util.uninterleave_ints m level))) as [Ey|Ny].
    + exfalso. apply Hnm. apply (uninterleave_ints_inj n m level); [lia | auto..].
      rewrite (surjective_pairing (Util.uninterleave_ints n level)),
              (surjective_pairing (Util.uninterleave_ints m level)), Ex, Ey.
      reflexivity.
    + rewrite (center_coord_distinct level _ _ Hl Hyn Hym Ny). apply andb_false_r.
  - rewrite (center_coord_distinct level _ _ Hl Hxn Hxm Nx). reflexivity.
Qed.

(** ** Neighbours, children and the interaction list *)

Lemma neighbors_of_spec (x y level : Z) :
  0 <= level <= 8 -> 0 <= x < 2 ^ level -> 0 <= y < 2 ^ level ->
  Forall (is_neighbor_of x y level) (Box.neighbors_of x y level).
Proof.
  intros Hl Hx Hy. pose proof (pow2_le_256 level Hl) as Hp.
  unfold Box.neighbors_of.
  apply for_inv; [|constructor]. intros i acc Hi Hacc.
  apply for_inv; [|exact Hacc]. intros j acc' Hj Hacc'.
  assert (Ei : iadd x i = x + i) by (apply iadd_small; unfold int_min, int_max; lia).
  assert (Ej : iadd y j = y + j) by (apply iadd_small; unfold int_min, int_max; lia).
  rewrite Ei, Ej, !lt_pow2_exact by lia.
  destruct (_ && _) eqn:C; [|exact Hacc'].
  unfold push_back. apply Forall_app. split; [exact Hacc'|].
  constructor; [|constructor].
  repeat (apply andb_true_iff in C as [C ?]).
  exists i, j. repeat split; lia.
Qed.

Lemma children_of_box (l q : Z) :
  0 <= q < 2 ^ 29 ->
  Box.getChildrenIndexOfBox l q = [4 * q; 4 * q + 1; 4 * q + 2; 4 * q + 3].
Proof.
  intros Hq. unfold Box.getChildrenIndexOfBox, for_.
  change (Z.to_nat (4 - 0)) with 4%nat. cbn [iter_up push_back app].
  assert (E : shl q 2 = 4 * q).
  { unfold shl. rewrite Z.shiftl_mul_pow2 by lia. change (2 ^ 2) with 4.
    rewrite wrap_small; unfold int_min, int_max; lia. }
  rewrite E. rewrite !iadd_small by (unfold int_min, int_max; simpl; lia).
  repeat f_equal; lia.
Qed.

Lemma shr_2_child (q r : Z) : 0 <= r < 4 -> shr (4 * q + r) 2 = q.
Proof.
  intros Hr. unfold shr. rewrite Z.shiftr_div_pow2 by lia. change (2 ^ 2) with 4.
  symmetry. apply (Z.div_unique (4 * q + r) 4 q r); lia.
Qed.

Lemma fold_left_push_back {A} (l acc : list A) : fold_left push_back l acc = acc ++ l.
Proof.
  revert acc. induction l as [|a l IH]; intros acc; simpl.
  - symmetry. apply app_nil_r.
  - rewrite IH. unfold push_back. rewrite <- app_assoc. reflexivity.
Qed.

(** The children of the parent's neighbours, before filtering. *)
Lemma candidates_spec (l : Z) (pns : list Z) (m : Z) : forall acc,
  m ∈ fold_left (fun acc pn => fold_left push_back (Box.getChildrenIndexOfBox l pn) acc)
        pns acc ->
  m ∈ acc \/ exists pn, pn ∈ pns /\ m ∈ Box.getChildrenIndexOfBox l pn.
Proof.
  induction pns as [|pn pns IH]; intros acc H; cbn [fold_left] in H; [auto|].
  apply IH in H as [H|(pn' & H1 & H2)].
  - rewrite fold_left_push_back in H. apply elem_of_app in H as [H|H]; [auto|].
    right. exists pn. split; [constructor | exact H].
  - right. exists pn'. split; [constructor; exact H1 | exact H2].
Qed.

(** The flag of the filtering loop is set exactly for a near neighbour. *)
Lemma flag_spec (c : Z) (nbrs : list Z) : forall flag,
  fold_left (fun flag nb => if c =? nb then true else flag) nbrs flag = true <->
  flag = true \/ c ∈ nbrs.
Proof.
  induction nbrs as [|nb nbrs IH]; intros flag; simpl.
  - split; [auto | intros [H|H]; [exact H | inversion H]].
  - rewrite IH. destruct (Z.eqb_spec c nb) as [->|Hne].
    + split; [intros _; right; constructor | auto].
    + split; intros [H|H]; auto.
      * right. constructor. exact H.
      * inversion H; subst; [contradiction | auto].
Qed.

Lemma filter_spec (nbrs cands : list Z) (m : Z) : forall acc,
  m ∈ fold_left
        (fun e4 candidate =>
           if fold_left (fun flag nb => if candidate =? nb then true else flag) nbrs false
           then e4 else push_back e4 candidate)
        cands acc ->
  m ∈ acc \/ (m ∈ cands /\ m ∉ nbrs).
Proof.
  induction cands as [|c cands IH]; intros acc H; cbn [fold_left] in H; [auto|].
  apply IH in H as [H|[H1 H2]].
  - destruct (fold_left _ nbrs false) eqn:F; [auto|].
    apply elem_of_app in H as [H|H]; [auto|].
    apply list_elem_of_singleton in H as ->. right. split; [constructor|].
    intros Hin. assert (F' : fold_left (fun flag nb => if c =? nb then true else flag) nbrs false = true)
      by (apply flag_spec; auto).
    congruence.
  - right. split; [constructor; exact H1 | exact H2].
Qed.

(** A member of the interaction list is a child of a neighbour of the
    parent, and is no near neighbour. *)
Lemma E4_members (b : Box.t) (m : Z) :
  m ∈ Box.getNeighborsE4Index b ->
  (exists pn, pn ∈ Box.getParentsNeighborsIndex b /\
              m ∈ Box.getChildrenIndexOfBox (Box.level b - 1) pn) /\
  m ∉ Box.getNeighborsIndex b.
Proof.
  unfold Box.getNeighborsE4Index. intros H.
  apply filter_spec in H as [H|[H1 H2]]; [inversion H|].
  split; [|exact H2].
  apply candidates_spec in H1 as [H1|H1]; [inversion H1 | exact H1].
Qed.

Lemma parent_range (n level : Z) :
  1 <= level -> 0 <= n < 4 ^ level -> 0 <= shr n 2 < 4 ^ (level - 1).
Proof.
  intros Hl Hn. unfold shr. rewrite Z.shiftr_div_pow2 by lia. change (2 ^ 2) with 4.
  replace (4 ^ level) with (4 * 4 ^ (level - 1)) in Hn.
  2:{ rewrite <- Z.pow_succ_r by lia. f_equal. lia. }
  split; [apply Z.div_pos; lia|].
  apply Z.div_lt_upper_bound; lia.
Qed.

(** A neighbour of the parent is a cell of the parent's level other than
    the parent. *)
Lemma parents_neighbors_spec (b : Box.t) (pn : Z) :
  2 <= Box.level b <= 8 -> 0 <= Box.index b < 4 ^ Box.level b ->
  pn ∈ Box.getParentsNeighborsIndex b ->
  0 <= pn < 4 ^ (Box.level b - 1) /\ pn <> Box.getParentIndex b.
Proof.
  intros Hl Hn Hpn. unfold Box.getParentsNeighborsIndex in Hpn.
  set (l := Box.level b - 1) in *. set (P := Box.getParentIndex b) in *.
  assert (HP : 0 <= P < 4 ^ l) by (apply parent_range; lia).
  destruct (uninterleave_read_back P l) as [Ex Ey]; [lia|].
  rewrite Ex, Ey in Hpn.
  destruct (uninterleave_ints_range P l) as [Hx Hy]; [lia|].
  pose proof (neighbors_of_spec _ _ l ltac:(lia) Hx Hy) as HF.
  rewrite Forall_forall in HF. apply HF in Hpn as (i & j & Hi & Hj & Hij & Hxi & Hyj & ->).
  split; [apply interleave_range; lia|].
  intros E.
  assert (E' : Util.interleave (fst (Util.uninterleave_ints P l) + i)
                 (snd (Util.uninterleave_ints P l) + j) l =
               Util.interleave (fst (Util.uninterleave_ints P l))
                 (snd (Util.uninterleave_ints P l)) l)
    by (rewrite interleave_uninterleave_ints by lia; exact E).
  apply interleave_inj in E' as [E1 E2]; lia.
Qed.

(** ** The spatial index *)

(** C6. For every level L in [1,8] and every address n in [0, 4^L),
    interleaving at level L the grid coordinates that [uninterleave n L]
    returns (read back from the complex value as its callers do) gives [n]
    again. *)
Theorem interleave_uninterleave (L n : Z) :
  1 <= L <= 8 -> 0 <= n < 4 ^ L ->
  Util.interleave (int_of_double (real (Util.uninterleave n L)))
                  (int_of_double (imag (Util.uninterleave n L))) L = n.
Proof.
  intros HL Hn.
  destruct (uninterleave_read_back n L) as [-> ->]; [lia|].
  apply interleave_uninterleave_ints; lia.
Qed.

Lemma interleave_uninterleave_witness :
  Util.interleave (int_of_double (real (Util.uninterleave 46 3)))
                  (int_of_double (imag (Util.uninterleave 46 3))) 3 = 46.
Proof. apply (interleave_uninterleave 3 46); [lia | split; [lia | reflexivity]]. Defined.

(** C7. For every non-negative address n whose children are representable
    ([n < 2^29], which holds for every address of a tree of at most 8
    levels), each of the four addresses [(n << 2) + i] that
    [getChildrenIndex] produces has parent address [n] under
    [getParentIndex], that is [c >> 2]. *)
Theorem children_have_parent (b child : Box.t) (c : Z) :
  0 <= Box.index b < 2 ^ 29 ->
  c ∈ Box.getChildrenIndex b -> Box.index child = c ->
  Box.getParentIndex child = Box.index b.
Proof.
  intros Hn Hc Hchild. unfold Box.getParentIndex. rewrite Hchild.
  change (Box.getChildrenIndex b) with (Box.getChildrenIndexOfBox 0 (Box.index b)) in Hc.
  rewrite children_of_box in Hc by exact Hn.
  repeat (apply elem_of_cons in Hc as [->|Hc]);
    [ rewrite <- (Z.add_0_r (4 * _)) | | | | inversion Hc ];
    apply shr_2_child; lia.
Qed.

Lemma children_have_parent_witness :
  Box.getParentIndex (Box.mk 3 38 12 true [] [] [] [] []) = 9.
Proof.
  apply (children_have_parent (Box.mk 2 9 12 true [] [] [] [] [])
           (Box.mk 3 38 12 true [] [] [] [] []) 38).
  - simpl. lia.
  - vm_compute. do 2 constructor. constructor.
  - reflexivity.
Defined.

(** C10. For every level in [1,8] and all non-negative grid coordinates,
    [interleave] reads the low [level] bits of each coordinate only and
    returns an address in [0, 4^level).  In particular the grid coordinate
    [2^level] of a point with a coordinate equal to 1.0 is taken as 0, and
    [getBoxIndex] gives such a point the in-range leaf address of the point
    with that coordinate at 0.0. *)
Theorem interleave_low_bits (level gx gy : Z) :
  1 <= level <= 8 -> 0 <= gx -> 0 <= gy ->
  Util.interleave gx gy level =
    Util.interleave (gx mod 2 ^ level) (gy mod 2 ^ level) level /\
  0 <= Util.interleave gx gy level < 4 ^ level /\
  Util.interleave (2 ^ level) gy level = Util.interleave 0 gy level /\
  Util.interleave gx (2 ^ level) level = Util.interleave gx 0 level /\
  (forall c : double,
     Point.getBoxIndex (Point.mk (Cplx 1%float c)) level =
       Point.getBoxIndex (Point.mk (Cplx 0%float c)) level /\
     Point.getBoxIndex (Point.mk (Cplx c 1%float)) level =
       Point.getBoxIndex (Point.mk (Cplx c 0%float)) level /\
     0 <= Point.getBoxIndex (Point.mk (Cplx 1%float c)) level < 4 ^ level /\
     0 <= Point.getBoxIndex (Point.mk (Cplx c 1%float)) level < 4 ^ level).
Proof.
  intros Hl Hx Hy.
  assert (Hp : 0 < 2 ^ level) by (apply Z.pow_pos_nonneg; lia).
  assert (Hwx : forall b, Util.interleave (2 ^ level) b level = Util.interleave 0 b level).
  { intros b. rewrite (interleave_mod (2 ^ level)), (interleave_mod 0) by lia.
    rewrite Z.mod_same, Z.mod_0_l by lia. reflexivity. }
  assert (Hwy : forall a, Util.interleave a (2 ^ level) level = Util.interleave a 0 level).
  { intros a. rewrite (interleave_mod a (2 ^ level)), (interleave_mod a 0) by lia.
    rewrite Z.mod_same, Z.mod_0_l by lia. reflexivity. }
  split; [apply interleave_mod; lia|].
  split; [apply interleave_range; lia|].
  split; [apply Hwx|]. split; [apply Hwy|].
  intros c. unfold Point.getBoxIndex. simpl.
  rewrite floor_one_scaled, floor_zero_scaled by lia.
  split; [apply Hwx|]. split; [apply Hwy|].
  split; apply interleave_range; lia.
Qed.

Lemma interleave_low_bits_witness :
  Util.interleave 8 2 3 = Util.interleave (8 mod 2 ^ 3) (2 mod 2 ^ 3) 3 /\
  0 <= Util.interleave 8 2 3 < 4 ^ 3 /\
  Util.interleave (2 ^ 3) 2 3 = Util.interleave 0 2 3 /\
  Util.interleave 8 (2 ^ 3) 3 = Util.interleave 8 0 3 /\
  (forall c : double,
     Point.getBoxIndex (Point.mk (Cplx 1%float c)) 3 =
       Point.getBoxIndex (Point.mk (Cplx 0%float c)) 3 /\
     Point.getBoxIndex (Point.mk (Cplx c 1%float)) 3 =
       Point.getBoxIndex (Point.mk (Cplx c 0%float)) 3 /\
     0 <= Point.getBoxIndex (Point.mk (Cplx 1%float c)) 3 < 4 ^ 3 /\
     0 <= Point.getBoxIndex (Point.mk (Cplx c 1%float)) 3 < 4 ^ 3).
Proof. apply (interleave_low_bits 3 8 2); lia. Defined.

(** C5. For every level in [2,8] and every address n of that level, a member
    m of the interaction list that [getNeighborsE4Index] builds is neither n
    nor a member of n's neighbour list; hence the translation vector
    [to - from] that [downwardPass1] hands to [getSR], from the centre of
    cell m to the centre of cell n, is not zero. *)
Theorem interaction_list_disjoint (b nb : Box.t) (m : Z) :
  2 <= Box.level b <= 8 -> 0 <= Box.index b < 4 ^ Box.level b ->
  m ∈ Box.getNeighborsE4Index b ->
  Box.level nb = Box.level b -> Box.index nb = m ->
  m <> Box.index b /\
  (m ∉ Box.getNeighborsIndex b) /\
  cis_zero (csub (Point.getCoord (Box.getCenter b))
                 (Point.getCoord (Box.getCenter nb))) = false.
Proof.
  intros Hl Hn Hm Hlevel Hindex.
  apply E4_members in Hm as [(pn & Hpn & Hchild) Hnear].
  apply parents_neighbors_spec in Hpn as [Hrange Hne]; [|lia..].
  assert (H4 : 4 ^ Box.level b = 4 * 4 ^ (Box.level b - 1)).
  { rewrite <- Z.pow_succ_r by lia. f_equal. lia. }
  assert (H7 : 4 ^ (Box.level b - 1) <= 4 ^ 7) by (apply Z.pow_le_mono_r; lia).
  rewrite children_of_box in Hchild by (change (2 ^ 29) with (4 ^ 7 * 2 ^ 15); lia).
  assert (Hr : exists r, 0 <= r < 4 /\ m = 4 * pn + r).
  { repeat (apply elem_of_cons in Hchild as [->|Hchild]);
      [exists 0 | exists 1 | exists 2 | exists 3 | inversion Hchild]; lia. }
  destruct Hr as (r & Hr & ->).
  assert (Hdiff : 4 * pn + r <> Box.index b).
  { intros E. apply Hne. unfold Box.getParentIndex. rewrite <- E.
    symmetry. apply shr_2_child. exact Hr. }
  split; [exact Hdiff|]. split; [exact Hnear|].
  unfold Box.getCenter, Point.getCoord. simpl. rewrite Hlevel, Hindex.
  apply centers_distinct; lia.
Qed.

Lemma interaction_list_disjoint_witness :
  32 <> 46 /\
  (32 ∉ Box.getNeighborsIndex (Box.mk 3 46 12 true [] [] [] [] [])) /\
  cis_zero (csub (Point.getCoord (Box.getCenter (Box.mk 3 46 12 true [] [] [] [] [])))
                 (Point.getCoord (Box.getCenter (Box.mk 3 32 12 true [] [] [] [] [])))) = false.
Proof.
  apply (interaction_list_disjoint (Box.mk 3 46 12 true [] [] [] [] [])
           (Box.mk 3 32 12 true [] [] [] [] []) 32).
  - simpl. lia.
  - simpl. lia.
  - vm_compute. constructor.
  - reflexivity.
  - reflexivity.
Defined.

(** ** The expansion coefficients *)

(** Case analysis on every integer comparison of the goal. *)
Ltac case_zbool :=
  repeat match goal with
    | |- context [?a <=? ?b] => destruct (Z.leb_spec a b)
    | |- context [?a <? ?b] => destruct (Z.ltb_spec a b)
    | |- context [?a =? ?b] => destruct (Z.eqb_spec a b)
    end;
  simpl.

(** A loop that stores [f i] at every index [i] it visits. *)
Lemma iterM_up_fill {A} (f : Z -> A) (n : nat) : forall (i : Z) (v : list A),
  0 <= i -> i + Z.of_nat n <= size v ->
  exists v', iterM_up n i (fun i v => vset v i (f i)) v = Ret v' /\
    size v' = size v /\
    forall k, 0 <= k ->
      v' !! Z.to_nat k =
      if (i <=? k) && (k <? i + Z.of_nat n) then Some (f k) else v !! Z.to_nat k.
Proof.
  induction n as [|n IH]; intros i v Hi Hn; simpl.
  - exists v. repeat split. intros k Hk. case_zbool; auto; lia.
  - rewrite vset_in_range by lia. simpl.
    destruct (IH (i + 1) (<[Z.to_nat i := f i]> v)) as (v' & E & Hsize & Hlook).
    { lia. } { unfold size in *. rewrite length_insert. lia. }
    exists v'. split; [exact E|]. split.
    { rewrite Hsize. unfold size. rewrite length_insert. reflexivity. }
    intros k Hk. rewrite Hlook by exact Hk.
    destruct (Z.eq_dec k i) as [->|Hne].
    + case_zbool; try lia.
      apply list_lookup_insert_eq. unfold size in Hn. lia.
    + rewrite list_lookup_insert_ne by lia.
      case_zbool; auto; lia.
Qed.

Lemma vget_lookup {A} (v : list A) (k : Z) (a : A) :
  0 <= k -> v !! Z.to_nat k = Some a -> vget v k = Ret a.
Proof. intros Hk H. apply vget_Ret. auto. Qed.

Section Coefficients.
Context {L : ComplexLib}.

(** C8. For every truncation order p >= 1 and all complex xi, xstar,
    [getSCoeff] returns a vector b of exactly p coefficients with b[0] = 1
    and, for every m in 1..p-1, b[m] = -(xi - xstar)^m / m, computed as
    [-1.0 * pow(xi - xstar, m) / (double) m]. *)
Theorem getSCoeff_spec (pot : Potential.t) (xi xstar : complex) :
  1 <= Potential.p pot ->
  exists b, Potential.getSCoeff pot xi xstar = Ret b /\
    size b = Potential.p pot /\
    vget b 0 = Ret (Cplx 1%float 0%float) /\
    forall m, 1 <= m < Potential.p pot ->
      vget b m =
      Ret (cdivr (cscale (cpow (csub xi xstar) m) (-1)%float) (double_of_Z m)).
Proof.
  intros Hp. unfold Potential.getSCoeff.
  set (f := fun i : Z => cdivr (cscale (cpow (csub xi xstar) i) (-1)%float) (double_of_Z i)).
  unfold vnew. destruct (Z.ltb_spec (Potential.p pot) 0); [lia|]. simpl.
  destruct (Z.to_nat (Potential.p pot)) as [|n] eqn:En; [lia|]. simpl.
  change (vget (czero :: replicate n czero) 0) with (Ret czero). simpl.
  set (v1 := Cplx 1%float 0%float :: replicate n czero).
  assert (Hsize : size v1 = Potential.p pot).
  { unfold size, v1. simpl. rewrite length_replicate. lia. }
  unfold forM.
  destruct (iterM_up_fill f (Z.to_nat (Potential.p pot - 1)) 1 v1)
    as (b & E & Hb & Hlook); [lia | lia |].
  exists b. split; [exact E|]. split; [lia|]. split.
  - apply vget_lookup; [lia|]. rewrite (Hlook 0) by lia. reflexivity.
  - intros m Hm. apply vget_lookup; [lia|]. rewrite (Hlook m) by lia.
    case_zbool; try lia. reflexivity.
Qed.

End Coefficients.

Lemma getSCoeff_spec_witness :
  exists b, Potential.getSCoeff (L := ref_lib) (Potential.mk 5)
              (Cplx 0.25 0.5)%float (Cplx 0.125 0.125)%float = Ret b /\
    size b = 5 /\
    vget b 0 = Ret (Cplx 1%float 0%float) /\
    forall m, 1 <= m < 5 ->
      vget b m =
      Ret (cdivr (cscale (@cpow ref_lib (csub (Cplx 0.25 0.5)%float
                                                   (Cplx 0.125 0.125)%float) m)
                         (-1)%float) (double_of_Z m)).
Proof.
  apply (getSCoeff_spec (L := ref_lib) (Potential.mk 5)
           (Cplx 0.25 0.5)%float (Cplx 0.125 0.125)%float).
  simpl. lia.
Defined.

(** ** Cells and their coefficient arrays *)

Lemma indexed_upto_size {A} (v : list A) (hi : Z) : size v = hi + 1 -> indexed_upto v hi.
Proof.
  intros Hs. split; [exact Hs|]. intros i. split.
  - intros [a Ha]. apply vget_Ret in Ha as [Hi Hl].
    apply lookup_lt_Some in Hl. unfold size in Hs. lia.
  - intros Hi. apply vget_in_range. lia.
Qed.

(** [add_into] keeps the length of the array it adds into. *)
Lemma add_into_size (v increment v' : list complex) :
  Box.add_into v increment = Ret v' -> size v' = size v.
Proof.
  unfold Box.add_into. intros H.
  apply (forM_inv (fun w => size w = size v)) in H; [exact H | | reflexivity].
  intros i w w' Hw Hbody.
  apply rbind_Ret in Hbody as (vi & _ & Hbody).
  apply rbind_Ret in Hbody as (inc & _ & Hbody).
  apply vset_Ret in Hbody as (_ & _ & Hs). lia.
Qed.

(** It reads [increment[i]] for every index of the array: a shorter
    increment is read past its end. *)
Lemma add_into_short (v increment : list complex) :
  size increment < size v -> Box.add_into v increment = Undefined.
Proof.
  intros Hshort. unfold Box.add_into, forM. rewrite Z.sub_0_r.
  assert (H : forall n i w, size w = size v -> 0 <= i <= size increment ->
                i + Z.of_nat n = size v ->
                iterM_up n i (fun i v => do vi <- vget v i;
                                         do inc <- vget increment i;
                                         vset v i (cadd vi inc)) w = Undefined).
  { induction n as [|n IH]; intros i w Hw Hi Hn; [lia|]. simpl.
    assert (Hiw : 0 <= i < size w) by lia.
    destruct (vget_in_range w i Hiw) as [vi Evi]. rewrite Evi. simpl.
    destruct (Z.eq_dec i (size increment)) as [Heq|Hne].
    - rewrite vget_out_of_range by lia. reflexivity.
    - assert (Hii : 0 <= i < size increment) by lia.
      destruct (vget_in_range increment i Hii) as [inc Einc]. rewrite Einc. simpl.
      rewrite vset_in_range by lia. simpl. apply IH; [|lia..].
      unfold size in *. rewrite length_insert. exact Hw. }
  pose proof (size_nonneg increment). pose proof (size_nonneg v).
  apply H; [reflexivity | lia | lia].
Qed.

Lemma iadd_int_max : iadd int_max 1 = int_min.
Proof. reflexivity. Qed.

Lemma construct_sizes (level index p : Z) (b : Box.t) :
  int_min <= p <= int_max -> Box.construct level index p = Ret b ->
  size (Box.c b) = p + 1 /\ size (Box.dtilde b) = p + 1 /\ size (Box.d b) = p + 1.
Proof.
  intros Hp H. unfold Box.construct in H.
  apply rbind_Ret in H as (c0 & Hc & H). apply vnew_Ret in Hc as (Hn & _ & Hc).
  apply rbind_Ret in H as (dt0 & Hdt & H). apply vnew_Ret in Hdt as (_ & _ & Hdt).
  apply rbind_Ret in H as (d0 & Hd & H). apply vnew_Ret in Hd as (_ & _ & Hd).
  assert (E : iadd p 1 = p + 1).
  { destruct (Z.eq_dec p int_max) as [Heq|Hne].
    - rewrite Heq, iadd_int_max in Hn. unfold int_min in Hn. lia.
    - apply iadd_small. unfold int_min, int_max in *. lia. }
  rewrite E in Hc, Hdt, Hd.
  apply (forM_inv (fun b => size (Box.c b) = p + 1 /\ size (Box.dtilde b) = p + 1 /\
                            size (Box.d b) = p + 1)) in H; [exact H | | simpl; auto].
  intros i b0 b1 (H1 & H2 & H3) Hbody.
  apply rbind_Ret in Hbody as (c1 & Hc1 & Hbody). apply vset_Ret in Hc1 as (_ & _ & Hc1).
  apply rbind_Ret in Hbody as (dt1 & Hdt1 & Hbody). apply vset_Ret in Hdt1 as (_ & _ & Hdt1).
  apply rbind_Ret in Hbody as (d1 & Hd1 & Hbody). apply vset_Ret in Hd1 as (_ & _ & Hd1).
  inversion Hbody; subst. simpl. lia.
Qed.

Lemma default_unfold :
  Box.construct Box.DEFAULT_LEVEL Box.DEFAULT_INDEX Box.DEFAULT_P = Box.default.
Proof. unfold Box.default. reflexivity. Qed.

Lemma box_step_sizes (o : box_op) (b b' : Box.t) :
  box_step o b = Ret b' ->
  size (Box.c b') = size (Box.c b) /\ size (Box.dtilde b') = size (Box.dtilde b) /\
  size (Box.d b') = size (Box.d b).
Proof.
  destruct o; simpl; intros H;
    try (inversion H; subst; simpl; auto; fail);
    unfold Box.addToC, Box.addToD, Box.addToDtilde in H;
    apply rbind_Ret in H as (v & Hv & H); apply add_into_size in Hv;
    inversion H; subst; simpl; auto.
Qed.

(** The lengths of the three arrays of a reachable cell. *)
Lemma reachable_sizes (p0 : Z) (b : Box.t) :
  int_min <= p0 <= int_max -> box_reachable p0 b ->
  size (Box.c b) = p0 + 1 /\ size (Box.dtilde b) = p0 + 1 /\ size (Box.d b) = p0 + 1.
Proof.
  intros Hp Hreach.
  induction Hreach as [level index b Hnew | b Heq Hdef | o b b' _ IH Hstep].
  - apply (construct_sizes level index); [exact Hp | exact Hnew].
  - apply (construct_sizes Box.DEFAULT_LEVEL Box.DEFAULT_INDEX); [exact Hp|].
    rewrite Heq, default_unfold. exact Hdef.
  - apply box_step_sizes in Hstep. destruct Hstep as (-> & -> & ->). exact IH.
Qed.

(** C1, as the code has it.  The three coefficient arrays c, dtilde and d of
    a cell have exactly p+1 entries each, with indices 0..p, from
    construction onward and after every operation, where p is the truncation
    order the cell was constructed with ([DEFAULT_P] for [Box()]). *)
Theorem coefficient_arrays_size (p0 : Z) (b : Box.t) :
  int_min <= p0 <= int_max -> box_reachable p0 b ->
  indexed_upto (Box.c b) p0 /\ indexed_upto (Box.dtilde b) p0 /\
  indexed_upto (Box.d b) p0.
Proof.
  intros Hp Hreach.
  destruct (reachable_sizes p0 b Hp Hreach) as (H1 & H2 & H3).
  split; [|split]; apply indexed_upto_size; assumption.
Qed.

Lemma coefficient_arrays_size_witness :
  indexed_upto (Box.c (from_result (Box.mk 0 0 0 true [] [] [] [] []) (Box.new 2 7 5))) 5 /\
  indexed_upto (Box.dtilde (from_result (Box.mk 0 0 0 true [] [] [] [] []) (Box.new 2 7 5))) 5 /\
  indexed_upto (Box.d (from_result (Box.mk 0 0 0 true [] [] [] [] []) (Box.new 2 7 5))) 5.
Proof.
  apply (coefficient_arrays_size 5).
  - unfold int_min, int_max. lia.
  - apply (reach_new 5 2 7). vm_compute. reflexivity.
Defined.

(** C1 as stated fails: a cell constructed with order 5 has 6 entries in its
    array c, not 5. *)
Lemma coefficient_arrays_not_p :
  exists b, Box.new 2 7 5 = Ret b /\ box_reachable 5 b /\ size (Box.c b) = 6 /\
            vget (Box.c b) 5 = Ret czero.
Proof.
  eexists. split; [vm_compute; reflexivity|].
  split; [apply (reach_new 5 2 7); vm_compute; reflexivity|].
  split; vm_compute; reflexivity.
Qed.

(** ** The evaluation phase *)

Section Evaluation.
Context {L : ComplexLib}.

Lemma near_source_frame u thisY thisX sinPart this sinPart' this' :
  FmmTree.near_source u thisY thisX (sinPart, this) = Ret (sinPart', this') ->
  frame this' = frame this.
Proof.
  unfold FmmTree.near_source. intros H.
  apply rbind_Ret in H as (thisU & _ & H).
  destruct (FmmTree.coincident_solve _ _); inversion H; subst; reflexivity.
Qed.

Lemma evaluate_target_frame u thisBox thisY v this v' this' :
  FmmTree.evaluate_target u thisBox thisY (v, this) = Ret (v', this') ->
  frame this' = frame this /\ size v' = size v.
Proof.
  unfold FmmTree.evaluate_target. intros H.
  apply rbind_Ret in H as (rVec & _ & H).
  apply rbind_Ret in H as ([regPart this1] & Hreg & H).
  apply rbind_Ret in H as ([sinPart this2] & Hsin & H).
  apply rbind_Ret in H as (v1 & Hv & H).
  inversion H; subst. clear H.
  apply vset_Ret in Hv as (_ & _ & Hv).
  apply (forM_inv (fun st => frame (snd st) = frame this)) in Hreg.
  - apply (forM_inv (fun st => frame (snd st) = frame this)) in Hsin.
    + simpl in Hsin. split; [exact Hsin | exact Hv].
    + intros m st st' Hst Hbody.
      apply rbind_Ret in Hbody as (n & _ & Hbody).
      apply rbind_Ret in Hbody as (thisNeighborsBox & _ & Hbody).
      apply (forM_inv (fun st => frame (snd st) = frame this)) in Hbody;
        [exact Hbody | | exact Hst].
      intros q [s t] [s' t'] Ht Hq. simpl in *.
      apply rbind_Ret in Hq as (thisX & _ & Hq).
      apply near_source_frame in Hq. congruence.
    + simpl in *. exact Hreg.
  - intros k [r t] [r' t'] Ht Hbody. simpl in *.
    apply rbind_Ret in Hbody as (dk & _ & Hbody).
    apply rbind_Ret in Hbody as (rk & _ & Hbody).
    inversion Hbody; subst. exact Ht.
  - reflexivity.
Qed.

(** C9. The evaluation phase, the loop nest over the targets that ends
    [solve], changes the coefficient state of no cell: the arrays c, dtilde
    and d of every cell are the same before and after it.  It writes the
    output vector (and advances the operation counter); the cells, the point
    lists and the kernel are left as they were. *)
Theorem evaluate_frame (this this' : FmmTree.t) (u v v' : list double) :
  FmmTree.evaluate this u v = Ret (v', this') ->
  FmmTree.tree_structure this' = FmmTree.tree_structure this /\
  (forall l k b, FmmTree.get_box this l k = Ret b ->
     exists b', FmmTree.get_box this' l k = Ret b' /\
       Box.c b' = Box.c b /\ Box.dtilde b' = Box.dtilde b /\ Box.d b' = Box.d b) /\
  frame this' = frame this /\ size v' = size v.
Proof.
  unfold FmmTree.evaluate. intros H.
  apply rbind_Ret in H as (leaves & _ & H).
  apply (forM_inv (fun st => frame (snd st) = frame this /\ size (fst st) = size v)) in H.
  - simpl in H. destruct H as [Hf Hv].
    assert (Ht : FmmTree.tree_structure this' = FmmTree.tree_structure this)
      by (unfold frame in Hf; congruence).
    split; [exact Ht|]. split; [|split; assumption].
    intros l k b Hb. exists b. unfold FmmTree.get_box in *. rewrite Ht. auto.
  - intros i st st' Hst Hbody.
    apply rbind_Ret in Hbody as (thisBox & _ & Hbody).
    apply (forM_inv (fun st => frame (snd st) = frame this /\ size (fst st) = size v))
      in Hbody; [exact Hbody | | exact Hst].
    intros j [w t] [w' t'] [Ht Hw] Hj. simpl in *.
    apply rbind_Ret in Hj as (thisY & _ & Hj).
    apply evaluate_target_frame in Hj as [Hf Hs]. split; congruence.
  - simpl. auto.
Qed.

End Evaluation.

(** ** Comparisons of doubles *)

Lemma SFcompare_antisym (a b : spec_float) :
  SFcompare b a = option_map CompOpp (SFcompare a b).
Proof.
  destruct a as [sa|sa| |sa ma ea], b as [sb|sb| |sb mb eb]; simpl; try reflexivity;
    try (destruct sa; reflexivity); try (destruct sb; reflexivity);
    try (destruct sa, sb; reflexivity).
  destruct sa, sb; simpl; try reflexivity.
  - rewrite (Z.compare_antisym ea eb). destruct (ea ?= eb); simpl; try reflexivity.
    rewrite CompOpp_involutive. f_equal. exact (Pos.compare_cont_antisym mb ma Eq).
  - rewrite (Z.compare_antisym ea eb). destruct (ea ?= eb); simpl; try reflexivity.
    f_equal. symmetry. exact (Pos.compare_cont_antisym ma mb Eq).
Qed.

(** Doubles that compare equal are the same double, or two zeros. *)
Lemma SFcompare_Eq (a b : spec_float) :
  SFcompare a b = Some Eq ->
  a = b \/ exists sa sb, a = S754_zero sa /\ b = S754_zero sb.
Proof.
  destruct a as [sa|sa| |sa ma ea], b as [sb|sb| |sb mb eb]; simpl; intros H;
    try discriminate; try (destruct sa; discriminate); try (destruct sb; discriminate).
  - right. eauto.
  - left. destruct sa, sb; try discriminate; reflexivity.
  - left. destruct sa, sb; try discriminate.
    + destruct (ea ?= eb) eqn:Ce; try discriminate. apply Z.compare_eq in Ce.
      destruct (Pos.compare_cont Eq ma mb) eqn:E; try discriminate.
      apply Pos.compare_eq in E. subst. reflexivity.
    + destruct (ea ?= eb) eqn:Ce; try discriminate. apply Z.compare_eq in Ce.
      destruct (Pos.compare_cont Eq ma mb) eqn:E; try discriminate.
      apply Pos.compare_eq in E. subst. reflexivity.
Qed.

Lemma is_nan_false (a : double) : is_nan a = false -> Prim2SF a <> S754_nan.
Proof.
  unfold is_nan. rewrite FloatAxioms.eqb_spec. unfold SFeqb. intros H E. rewrite E in H.
  discriminate.
Qed.

Lemma ltb_one_zero (a : double) (s : bool) :
  Prim2SF a = S754_zero s -> (1 <? a)%float = false.
Proof. intros E. rewrite FloatAxioms.ltb_spec, E. destruct s; reflexivity. Qed.

(** [max(1.0, max(a, b))] does not depend on the order of [a] and [b] when
    neither is a NaN. *)
Lemma dmax_one_comm (a b : double) :
  is_nan a = false -> is_nan b = false ->
  dmax 1%float (dmax a b) = dmax 1%float (dmax b a).
Proof.
  intros Ha Hb. apply is_nan_false in Ha, Hb.
  unfold dmax at 2 4. rewrite !FloatAxioms.ltb_spec. unfold SFltb.
  rewrite (SFcompare_antisym (Prim2SF a) (Prim2SF b)).
  destruct (SFcompare (Prim2SF a) (Prim2SF b)) as [[| |]|] eqn:C; simpl; try reflexivity.
  - apply SFcompare_Eq in C as [E|(sa & sb & Ea & Eb)].
    + apply Prim2SF_inj in E. subst. reflexivity.
    + unfold dmax. rewrite (ltb_one_zero a sa Ea), (ltb_one_zero b sb Eb). reflexivity.
  - exfalso. destruct (Prim2SF a) as [| | |], (Prim2SF b) as [| | |];
      simpl in C; try discriminate; congruence.
Qed.

(** ** The coincidence rule *)

Section Coincidence.
Context {L : ComplexLib}.

(** C3. For a target y and a source x that the evaluation phase of [solve]
    or [solveDirect] considers (points whose moduli are numbers, as those of
    the unit square are), the pair adds nothing to the near-field sum exactly
    when [|y - x| <= epsilon * max(1, |x|, |y|)]: both solvers apply this one
    rule; a coincident pair leaves the sum as it was and is no error, and
    every other pair adds [u * log(y - x)]'s real part. *)
Theorem coincidence_rule (thisY thisX : Point.t) (u : list double) (i : Z)
    (sinPart vj : double) (this : FmmTree.t) :
  is_nan (cabs (Point.coord thisX)) = false ->
  is_nan (cabs (Point.coord thisY)) = false ->
  FmmTree.coincident_solve (Point.coord thisY) (Point.coord thisX) =
    coincident (Point.coord thisY) (Point.coord thisX) /\
  FmmTree.coincident_direct (Point.coord thisY) (Point.coord thisX) =
    coincident (Point.coord thisY) (Point.coord thisX) /\
  FmmTree.near_source u thisY thisX (sinPart, this) =
    (do thisU <- vget u (FmmTree.getIndex (FmmTree.x this) thisX);
     if coincident (Point.coord thisY) (Point.coord thisX)
     then Ret (sinPart, this)
     else Ret ((sinPart +
                real (cscale (clog (csub (Point.coord thisY) (Point.coord thisX)))
                             thisU))%float,
               FmmTree.count this 1)) /\
  FmmTree.direct_source u thisY thisX i vj =
    (if coincident (Point.coord thisY) (Point.coord thisX)
     then Ret vj
     else do ui <- vget u i;
          Ret (vj + real (cscale (clog (csub (Point.coord thisY) (Point.coord thisX)))
                                 ui))%float).
Proof.
  intros Hx Hy.
  assert (Hs : FmmTree.coincident_solve (Point.coord thisY) (Point.coord thisX) =
               coincident (Point.coord thisY) (Point.coord thisX)) by reflexivity.
  assert (Hd : FmmTree.coincident_direct (Point.coord thisY) (Point.coord thisX) =
               coincident (Point.coord thisY) (Point.coord thisX)).
  { unfold FmmTree.coincident_direct, coincident, max3.
    rewrite (dmax_one_comm _ _ Hy Hx). reflexivity. }
  split; [exact Hs|]. split; [exact Hd|]. split.
  - unfold FmmTree.near_source, Point.getCoord. rewrite Hs. reflexivity.
  - unfold FmmTree.direct_source, Point.getCoord. rewrite Hd. reflexivity.
Qed.

End Coincidence.

(** ** Running the model *)

(** Evaluation of a closed instance of the model, conjunct by conjunct. *)
Ltac run_model :=
  lazymatch goal with
  | |- _ /\ _ => split; [vm_compute; reflexivity | run_model]
  | |- _ => vm_compute; reflexivity
  end.

Lemma coincidence_rule_witness :
  FmmTree.coincident_solve (L := ref_lib) (Point.coord demo_target) (Point.coord demo_source) =
    coincident (L := ref_lib) (Point.coord demo_target) (Point.coord demo_source) /\
  FmmTree.coincident_direct (L := ref_lib) (Point.coord demo_target) (Point.coord demo_source) =
    coincident (L := ref_lib) (Point.coord demo_target) (Point.coord demo_source) /\
  FmmTree.near_source (L := ref_lib) demo_charges demo_target demo_source
      (0%float, demo_tree) =
    (do thisU <- vget demo_charges
                   (FmmTree.getIndex (L := ref_lib) (FmmTree.x demo_tree) demo_source);
     if coincident (L := ref_lib) (Point.coord demo_target) (Point.coord demo_source)
     then Ret (0%float, demo_tree)
     else Ret ((0 +
                real (cscale (@clog ref_lib (csub (Point.coord demo_target)
                                                  (Point.coord demo_source)))
                             thisU))%float,
               FmmTree.count demo_tree 1)) /\
  FmmTree.direct_source (L := ref_lib) demo_charges demo_target demo_source 1 0%float =
    (if coincident (L := ref_lib) (Point.coord demo_target) (Point.coord demo_source)
     then Ret 0%float
     else do ui <- vget demo_charges 1;
          Ret (0 + real (cscale (@clog ref_lib (csub (Point.coord demo_target)
                                                     (Point.coord demo_source)))
                                ui))%float).
Proof.
  apply (coincidence_rule (L := ref_lib) demo_target demo_source
           demo_charges 1 0%float 0%float demo_tree);
    vm_compute; reflexivity.
Defined.

(** The two solvers on the demo configuration: each target coincides with
    one source, which both skip. *)
Example coincident_pair_skipped :
  coincident (L := ref_lib) (Cplx 0.875 0.875)%float (Cplx 0.875 0.875)%float = true /\
  coincident (L := ref_lib) (Cplx 0.875 0.875)%float (Cplx 0.8125 0.9375)%float = false /\
  FmmTree.near_source (L := ref_lib) demo_charges demo_target demo_source
      (0%float, demo_tree) = Ret (0%float, demo_tree).
Proof. run_model. Qed.

Lemma evaluate_frame_witness :
  FmmTree.tree_structure (snd demo_evaluated) = FmmTree.tree_structure demo_tree /\
  (forall l k b, FmmTree.get_box demo_tree l k = Ret b ->
     exists b', FmmTree.get_box (snd demo_evaluated) l k = Ret b' /\
       Box.c b' = Box.c b /\ Box.dtilde b' = Box.dtilde b /\ Box.d b' = Box.d b) /\
  frame (snd demo_evaluated) = frame demo_tree /\
  size (fst demo_evaluated) = size [0; 0; 0]%float.
Proof.
  apply (evaluate_frame (L := ref_lib) demo_tree (snd demo_evaluated) demo_charges
           [0; 0; 0]%float (fst demo_evaluated)).
  vm_compute. reflexivity.
Defined.

(** ** Inputs that the constructor checks, and inputs that it does not *)

Section Preconditions.
Context {L : ComplexLib}.

(** C4, as the code has it.  For every refinement depth outside [1,8],
    building the tree ends in an abort (a failed assert, or the exception of
    the vector constructor for a negative depth), whatever the points, the
    order and the charges are, and no result vector is returned. *)
Theorem invalid_level_aborts (level p : Z) (sources targets : list Point.t)
    (u : list double) :
  level < 1 \/ 8 < level ->
  FmmTree.new level sources targets (Potential.mk p) = Abort /\
  build_and_solve level p sources targets u = Abort.
Proof.
  intros Hl.
  assert (H : FmmTree.new level sources targets (Potential.mk p) = Abort).
  { unfold FmmTree.new, vnew. destruct (Z.ltb_spec level 0); [reflexivity|]. simpl.
    destruct (Z.gtb_spec level 0); simpl; [|reflexivity].
    destruct (Z.leb_spec level 8); simpl; [lia | reflexivity]. }
  split; [exact H|]. unfold build_and_solve. rewrite H. reflexivity.
Qed.

End Preconditions.

Lemma invalid_level_aborts_witness :
  FmmTree.new 9 demo_points demo_points (Potential.mk 13) = Abort /\
  build_and_solve (L := ref_lib) 9 13 demo_points demo_points demo_charges = Abort.
Proof.
  apply (invalid_level_aborts (L := ref_lib) 9 13 demo_points demo_points demo_charges).
  right. lia.
Defined.

(** C4 as stated fails.  With five charges for three sources the tree is
    built and [solve] returns a result vector; with order 0 the tree is built
    all the same, and [solve] then writes outside an empty vector instead of
    aborting. *)
Lemma unchecked_order_and_charges :
  (exists v, build_and_solve (L := ref_lib) 3 13 demo_points demo_points
               [1; 1; 1; 1; 1]%float = Ret v /\ size v = 3) /\
  (exists t, FmmTree.new 3 demo_points demo_points (Potential.mk 0) = Ret t) /\
  build_and_solve (L := ref_lib) 3 0 demo_points demo_points demo_charges = Undefined.
Proof.
  split; [|split].
  - eexists. run_model.
  - eexists. run_model.
  - run_model.
Qed.

(** ** Increments shorter than the coefficient arrays *)

Section Increments.
Context {L : ComplexLib}.

Lemma getSCoeff_size (pot : Potential.t) (xi xstar : complex) (B : list complex) :
  Potential.getSCoeff pot xi xstar = Ret B -> size B = Potential.p pot.
Proof.
  unfold Potential.getSCoeff. intros H.
  apply rbind_Ret in H as (ans0 & H0 & H). apply vnew_Ret in H0 as (_ & _ & H0).
  apply rbind_Ret in H as (a0 & _ & H).
  apply rbind_Ret in H as (ans1 & H1 & H). apply vset_Ret in H1 as (_ & _ & H1).
  apply rbind_Ret in H as (a1 & _ & H).
  apply rbind_Ret in H as (ans2 & H2 & H). apply vset_Ret in H2 as (_ & _ & H2).
  apply (forM_inv (fun ans => size ans = Potential.p pot)) in H; [exact H | | lia].
  intros i ans ans' Hs Hset. apply vset_Ret in Hset as (_ & _ & Hset). lia.
Qed.

Lemma apply_matrix_size (swap : bool) (p : Z) (m : Potential.matrix)
    (coeff B : list complex) :
  Potential.apply_matrix swap p m coeff = Ret B -> size B = p.
Proof.
  unfold Potential.apply_matrix. intros H.
  apply rbind_Ret in H as (ans0 & H0 & H). apply vnew_Ret in H0 as (_ & _ & H0).
  apply (forM_inv (fun ans => size ans = p)) in H; [exact H | | exact H0].
  intros i ans ans' Hs Hrow.
  apply rbind_Ret in Hrow as (ans1 & H1 & Hrow). apply vset_Ret in H1 as (_ & _ & H1).
  apply (forM_inv (fun ans => size ans = p)) in Hrow; [exact Hrow | | lia].
  intros j w w' Hw Hcol.
  apply rbind_Ret in Hcol as (a & _ & Hcol).
  apply rbind_Ret in Hcol as (mij & _ & Hcol).
  apply rbind_Ret in Hcol as (cj & _ & Hcol).
  apply vset_Ret in Hcol as (_ & _ & Hcol). lia.
Qed.

Lemma getSS_size (pot : Potential.t) (from to : complex) (sCoeff B : list complex) :
  Potential.getSS pot from to sCoeff = Ret B -> size B = Potential.p pot.
Proof.
  unfold Potential.getSS. intros H.
  do 6 (apply rbind_Ret in H as (? & _ & H)).
  apply apply_matrix_size in H. exact H.
Qed.

(** Whatever the points and the coefficients are: for an order below 13, an
    increment that [getSCoeff] or [getSS] produces is shorter than the array c
    of a cell made by [Box()], and [addToC] reads past its end. *)
Lemma upwardPass_increment_too_short (pot : Potential.t) (b : Box.t)
    (B : list complex) :
  Potential.p pot < 13 -> box_reachable Box.DEFAULT_P b ->
  (exists xi xstar, Potential.getSCoeff pot xi xstar = Ret B) \/
  (exists from to sCoeff, Potential.getSS pot from to sCoeff = Ret B) ->
  size B < size (Box.c b) /\ Box.addToC b B = Undefined.
Proof.
  intros Hp Hb HB.
  assert (HsB : size B = Potential.p pot).
  { destruct HB as [(xi & xstar & H)|(from & to & sCoeff & H)].
    - apply getSCoeff_size in H. exact H.
    - apply getSS_size in H. exact H. }
  destruct (reachable_sizes Box.DEFAULT_P b) as (Hc & _ & _);
    [unfold int_min, int_max, Box.DEFAULT_P; lia | exact Hb |].
  unfold Box.DEFAULT_P in Hc.
  split; [lia|]. unfold Box.addToC. rewrite add_into_short by lia. reflexivity.
Qed.

End Increments.

(** C2 fails on the code.  The cells of the tree are made by [resize], that
    is by [Box()], whose arrays have 13 entries; [setP] does not resize them.
    With the order 5 and the four levels of [main], the first increment that
    [upwardPass] hands to [addToC] has 5 entries, and [addToC] reads it at
    index 5. *)
Theorem upwardPass_reads_past_increment :
  exists t b B,
    FmmTree.new 4 demo_points demo_points (Potential.mk 5) = Ret t /\
    FmmTree.get_box t 3 3 = Ret b /\ Box.getX b = [Point.mk (Cplx 0.125 0.125)%float] /\
    Potential.getSCoeff (L := ref_lib) (FmmTree.potential t) (Cplx 0.125 0.125)%float
      (Point.getCoord (Box.getCenter b)) = Ret B /\
    size B = 5 /\ size (Box.c b) = 13 /\
    vget B 5 = Undefined /\
    Box.addToC b B = Undefined /\
    FmmTree.upwardPass (L := ref_lib) t demo_charges = Undefined.
Proof.
  do 3 eexists. run_model.
Qed.

(** A point on the upper edge of the unit square is sorted into a leaf. *)
Example edge_point_sorted :
  Point.getBoxIndex (Point.mk (Cplx 1 0.25)%float) 2 = 1 /\
  exists t b, FmmTree.new 3 [Point.mk (Cplx 1 0.25)%float] [Point.mk (Cplx 1 0.25)%float]
                (Potential.mk 13) = Ret t /\
              FmmTree.get_box t 2 1 = Ret b /\
              Box.getX b = [Point.mk (Cplx 1 0.25)%float].
Proof.
  split; [run_model|].
  do 2 eexists. run_model.
Qed.

(** ** The worked examples of the sources' comments *)

Example uninterleave_examples :
  Util.uninterleave 2 3 = Cplx 1%float 0%float /\
  Util.uninterleave 46 3 = Cplx 7%float 2%float /\
  Util.uninterleave 3 3 = Cplx 1%float 1%float.
Proof. run_model. Qed.

Example interleave_examples :
  Util.interleave 0 0 3 = 0 /\ Util.interleave 0 1 3 = 1 /\ Util.interleave 1 1 3 = 3 /\
  Util.interleave 2 0 3 = 8 /\ Util.interleave 2 1 3 = 9 /\ Util.interleave 7 2 3 = 46.
Proof. run_model. Qed.

Example setbit_getbit_examples :
  Util.setbit 161 3 1 = 168 + 1 /\ Util.setbit 169 3 0 = 161 /\
  Util.getbit 3 1 = 1 /\ Util.getbit 3 5 = 0.
Proof. run_model. Qed.

Example getBoxIndex_example :
  Point.getBoxIndex (Point.mk (Cplx 0.15625 0.03125)%float) 3 = 2.
Proof. run_model. Qed.

Example neighbors_example : Box.getNeighborsIndex (cell 3 2) = [0; 1; 3; 8; 9].
Proof. run_model. Qed.

Example parent_children_examples :
  Box.getParentIndex (cell 2 8) = 2 /\ Box.getParentIndex (cell 3 12) = 3 /\
  Box.getChildrenIndex (cell 2 9) = [36; 37; 38; 39].
Proof. run_model. Qed.

Example interaction_list_example :
  Box.getNeighborsE4Index (cell 3 46) =
    [32; 33; 34; 35; 36; 37; 38; 39; 48; 49; 50; 51; 40; 42; 56; 57; 58; 59] /\
  Box.getNeighborsIndex (cell 3 46) = [41; 44; 45; 43; 47].
Proof. run_model. Qed.

(** In the tree that the constructor builds, the cell at [level][n] carries
    that level and that address, and every level has its [4^level] cells,
    each with the 13-entry arrays of [Box()]. *)
Example demo_tree_addressed :
  map size (FmmTree.tree_structure demo_tree) = [1; 4; 16] /\
  forallb (fun l => forallb (fun k =>
      match FmmTree.get_box demo_tree l k with
      | Ret b => (Box.level b =? l) && (Box.index b =? k) && (Box.p b =? 13)
                 && (size (Box.c b) =? 13)
      | _ => false
      end) (zrange (4 ^ l))) (zrange 3) = true.
Proof. run_model. Qed.

(** The two solvers agree on the demo configuration to within [2^-40]. *)
Example demo_solved :
  match FmmTree.solveDirect (L := ref_lib) demo_tree demo_charges with
  | Ret direct =>
      (size direct =? 3) &&
      forallb (fun '(a, b) => (PrimFloat.abs (a - b) <? 0x1p-40)%float)
              (zip (fst demo_evaluated) direct)
  | _ => false
  end = true.
Proof. run_model. Qed.

Lemma uninterleave_ints_interleave (x y L : Z) :
  0 <= L <= 15 -> 0 <= x < 2 ^ L -> 0 <= y < 2 ^ L ->
  Util.uninterleave_ints (Util.interleave x y L) L = (x, y).
Proof.
  intros HL Hx Hy.
  destruct (Util.uninterleave_ints (Util.interleave x y L) L) as [a b] eqn:E.
  f_equal; apply Z.bits_inj'; intros k Hk;
    pose proof (uninterleave_ints_bits (Util.interleave x y L) L k HL Hk) as [H1 H2];
    rewrite E in H1, H2; simpl in H1, H2;
    destruct (interleave_bits x y L k HL Hk) as [H3 H4].
  - rewrite H1, H3. destruct (Z.ltb_spec k L); simpl; [reflexivity|].
    symmetry. apply (bits_clear_above x L k); lia.
  - rewrite H2, H4. destruct (Z.ltb_spec k L); simpl; [reflexivity|].
    symmetry. apply (bits_clear_above y L k); lia.
Qed.

Lemma uninterleave_ints_mod (n L : Z) :
  0 <= L <= 15 ->
  Util.uninterleave_ints n L = Util.uninterleave_ints (n mod 4 ^ L) L.
Proof.
  intros HL.
  assert (E4 : 4 ^ L = 2 ^ (2 * L)) by (rewrite Z.pow_mul_r by lia; reflexivity).
  destruct (Util.uninterleave_ints n L) as [a b] eqn:E.
  destruct (Util.uninterleave_ints (n mod 4 ^ L) L) as [a' b'] eqn:E'.
  f_equal; apply Z.bits_inj'; intros k Hk;
    pose proof (uninterleave_ints_bits n L k HL Hk) as [H1 H2];
    pose proof (uninterleave_ints_bits (n mod 4 ^ L) L k HL Hk) as [H3 H4];
    rewrite E in H1, H2; rewrite E' in H3, H4; simpl in H1, H2, H3, H4.
  - rewrite H1, H3. destruct (Z.ltb_spec k L); simpl; [|reflexivity].
    rewrite E4, Z.mod_pow2_bits_low by lia. reflexivity.
  - rewrite H2, H4. destruct (Z.ltb_spec k L); simpl; [|reflexivity].
    rewrite E4, Z.mod_pow2_bits_low by lia. reflexivity.
Qed.

Lemma testbit_setbit (n pos setto k : Z) :
  0 <= pos <= 30 -> 0 <= k ->
  Z.testbit (Util.setbit n pos setto) k =
  if k =? pos then setto =? 1 else Z.testbit n k.
Proof.
  intros Hp Hk. unfold Util.setbit. rewrite shl_1 by exact Hp.
  destruct (setto =? 1).
  - rewrite Z.lor_spec, Z.pow2_bits_eqb by lia.
    destruct (Z.eqb_spec k pos) as [->|Hne].
    + rewrite Z.eqb_refl, orb_true_r. reflexivity.
    + destruct (Z.eqb_spec pos k); [lia|]. rewrite orb_false_r. reflexivity.
  - rewrite Z.land_spec, Z.lnot_spec, Z.pow2_bits_eqb by lia.
    destruct (Z.eqb_spec k pos) as [->|Hne].
    + rewrite Z.eqb_refl, andb_false_r. reflexivity.
    + destruct (Z.eqb_spec pos k); [lia|]. rewrite andb_true_r. reflexivity.
Qed.

(** X1.  Decoding inverts encoding: for grid coordinates [x] and [y] of a
    level up to 15, [uninterleave] gives back, as doubles, the two integers
    that [interleave] has woven into the cell index. *)
Theorem uninterleave_interleave (x y L : Z) :
  0 <= L <= 15 -> 0 <= x < 2 ^ L -> 0 <= y < 2 ^ L ->
  Util.uninterleave (Util.interleave x y L) L = Cplx (double_of_Z x) (double_of_Z y).
Proof.
  intros HL Hx Hy. rewrite uninterleave_as_ints by exact HL.
  rewrite uninterleave_ints_interleave by assumption. reflexivity.
Qed.

Lemma uninterleave_interleave_witness :
  Util.uninterleave (Util.interleave 7 2 3) 3 = Cplx (double_of_Z 7) (double_of_Z 2).
Proof. apply (uninterleave_interleave 7 2 3); lia. Defined.

(** X2.  [setbit] followed by [getbit], for bit positions 0 to 30: the bit
    written is read back (1 when [setto] is 1, 0 for every other value of
    [setto]), every other bit is as before, and writing back the bit that
    [getbit] has read changes nothing. *)
Theorem getbit_setbit (n pos setto q : Z) :
  0 <= pos <= 30 -> 0 <= q <= 30 ->
  Util.getbit (Util.setbit n pos setto) q =
    (if q =? pos then (if setto =? 1 then 1 else 0) else Util.getbit n q) /\
  Util.setbit n pos (Util.getbit n pos) = n.
Proof.
  intros Hp Hq. split.
  - rewrite !getbit_spec by exact Hq. rewrite testbit_setbit by lia.
    destruct (q =? pos); [destruct (setto =? 1); reflexivity | reflexivity].
  - apply Z.bits_inj'. intros k Hk. rewrite testbit_setbit by lia.
    destruct (Z.eqb_spec k pos) as [->|Hne]; [|reflexivity].
    rewrite getbit_spec by exact Hp. destruct (Z.testbit n pos); reflexivity.
Qed.

Lemma getbit_setbit_witness :
  Util.getbit (Util.setbit 161 3 1) 3 =
    (if 3 =? 3 then (if 1 =? 1 then 1 else 0) else Util.getbit 161 3) /\
  Util.setbit 161 3 (Util.getbit 161 3) = 161.
Proof. apply (getbit_setbit 161 3 1 3); lia. Defined.

(** X3.  [uninterleave] reads only the lowest [2 L] bits of the index, and
    what it returns are two grid coordinates of level [L]: integers in
    [0, 2^L), whatever the index is (negative or too large included). *)
Theorem uninterleave_low_bits (n L : Z) :
  0 <= L <= 15 ->
  Util.uninterleave n L = Util.uninterleave (n mod 4 ^ L) L /\
  exists x y, 0 <= x < 2 ^ L /\ 0 <= y < 2 ^ L /\
    Util.uninterleave n L = Cplx (double_of_Z x) (double_of_Z y).
Proof.
  intros HL. split.
  - rewrite !uninterleave_as_ints by exact HL.
    rewrite <- uninterleave_ints_mod by exact HL. reflexivity.
  - destruct (uninterleave_ints_range n L HL) as [Hx Hy].
    exists (fst (Util.uninterleave_ints n L)), (snd (Util.uninterleave_ints n L)).
    split; [exact Hx|]. split; [exact Hy|]. apply uninterleave_as_ints. exact HL.
Qed.

Lemma uninterleave_low_bits_witness :
  Util.uninterleave 110 3 = Util.uninterleave (110 mod 4 ^ 3) 3 /\
  exists x y, 0 <= x < 2 ^ 3 /\ 0 <= y < 2 ^ 3 /\
    Util.uninterleave 110 3 = Cplx (double_of_Z x) (double_of_Z y).
Proof. apply (uninterleave_low_bits 110 3); lia. Defined.

Lemma for_3 {S} (body : Z -> S -> S) (s : S) :
  for_ (-1) 2 body s = body 1 (body 0 (body (-1) s)).
Proof. reflexivity. Qed.

Lemma geb_true (a : Z) : 0 <= a -> (a >=? 0) = true.
Proof. intros H. apply Z.geb_le. exact H. Qed.

Lemma ltb_true (a b : Z) : a < b -> (a <? b) = true.
Proof. intros H. apply Z.ltb_lt. exact H. Qed.

Lemma neighbors_of_filter (x y level : Z) :
  0 <= level <= 8 -> 0 <= x < 2 ^ level -> 0 <= y < 2 ^ level ->
  Box.neighbors_of x y level =
  map (fun ij => Util.interleave (x + fst ij) (y + snd ij) level)
      (List.filter (in_grid x y level) offsets).
Proof.
  intros Hl Hx Hy. pose proof (pow2_le_256 level Hl) as Hp.
  unfold Box.neighbors_of. rewrite for_3. cbv beta. rewrite !for_3. cbv beta.
  rewrite !(iadd_small x), !(iadd_small y) by (unfold int_min, int_max; lia).
  rewrite !lt_pow2_exact by lia.
  unfold offsets, in_grid. cbn [List.filter fst snd].
  change (-1 =? 0) with false. change (0 =? 0) with true. change (1 =? 0) with false.
  cbn [negb orb andb].
  rewrite !(geb_true (x + 0)), !(geb_true (x + 1)), !(geb_true (y + 0)), !(geb_true (y + 1)),
    !(ltb_true (x + 0)), !(ltb_true (x + -1)), !(ltb_true (y + 0)), !(ltb_true (y + -1)) by lia.
  cbn [andb].
  destruct (x + -1 >=? 0), (x + 1 <? 2 ^ level), (y + -1 >=? 0), (y + 1 <? 2 ^ level);
    reflexivity.
Qed.

Lemma offsets_cases (i j : Z) :
  -1 <= i <= 1 -> -1 <= j <= 1 -> In (i, j) offsets.
Proof.
  intros Hi Hj.
  assert (Ei : i = -1 \/ i = 0 \/ i = 1) by lia.
  assert (Ej : j = -1 \/ j = 0 \/ j = 1) by lia.
  unfold offsets. destruct Ei as [->|[->| ->]], Ej as [->|[->| ->]]; simpl; tauto.
Qed.

Lemma in_offsets (ij : Z * Z) :
  In ij offsets -> -1 <= fst ij <= 1 /\ -1 <= snd ij <= 1.
Proof.
  unfold offsets. simpl. intros H.
  repeat (destruct H as [<-|H]; [simpl; lia|]). destruct H.
Qed.

Lemma in_grid_spec (x y level : Z) (ij : Z * Z) :
  in_grid x y level ij = true <->
  (fst ij <> 0 \/ snd ij <> 0) /\
  0 <= x + fst ij < 2 ^ level /\ 0 <= y + snd ij < 2 ^ level.
Proof.
  unfold in_grid. rewrite !andb_true_iff, orb_true_iff, !negb_true_iff, !Z.eqb_neq,
    !Z.geb_le, !Z.ltb_lt. tauto.
Qed.

(** What the double loop collects, exactly. *)
Lemma neighbors_of_elem (x y level m : Z) :
  0 <= level <= 8 -> 0 <= x < 2 ^ level -> 0 <= y < 2 ^ level ->
  m ∈ Box.neighbors_of x y level <-> is_neighbor_of x y level m.
Proof.
  intros Hl Hx Hy. split.
  - intros H. pose proof (neighbors_of_spec x y level Hl Hx Hy) as HF.
    rewrite Forall_forall in HF. apply HF. exact H.
  - intros (i & j & Hi & Hj & Hij & Hxi & Hyj & ->).
    rewrite neighbors_of_filter by assumption. apply list_elem_of_In.
    apply in_map_iff. exists (i, j). split; [reflexivity|].
    apply filter_In. split; [apply offsets_cases; assumption|].
    apply in_grid_spec. simpl. tauto.
Qed.

Lemma NoDup_map_inj_on {A B} (f : A -> B) (l : list A) :
  (forall a b, In a l -> In b l -> f a = f b -> a = b) ->
  NoDup l -> NoDup (map f l).
Proof.
  induction l as [|a l IH]; intros Hinj Hnd; simpl; [constructor|].
  apply NoDup_cons in Hnd as [Ha Hnd]. apply NoDup_cons. split.
  - rewrite list_elem_of_In. intros Hin. apply in_map_iff in Hin as (b & E & Hb).
    apply Ha. rewrite list_elem_of_In.
    rewrite (Hinj a b); [exact Hb | left; reflexivity | right; exact Hb | symmetry; exact E].
  - apply IH; [|exact Hnd]. intros u v Hu Hv. apply Hinj; right; assumption.
Qed.

Lemma offsets_NoDup : NoDup offsets.
Proof.
  unfold offsets.
  repeat (apply NoDup_cons; split;
          [rewrite list_elem_of_In; simpl; intros H;
           repeat (destruct H as [H|H]; [discriminate H|]); exact H |]).
  constructor.
Qed.

Lemma NoDup_lfilter {A} (f : A -> bool) (l : list A) :
  NoDup l -> NoDup (List.filter f l).
Proof.
  induction l as [|a l IH]; intros Hnd; simpl; [constructor|].
  apply NoDup_cons in Hnd as [Ha Hnd]. destruct (f a); [|apply IH; exact Hnd].
  apply NoDup_cons. split; [|apply IH; exact Hnd].
  rewrite list_elem_of_In. intros Hin. apply filter_In in Hin as [Hin _].
  apply Ha. rewrite list_elem_of_In. exact Hin.
Qed.

Lemma filter_length_le {A} (f : A -> bool) (l : list A) :
  (length (List.filter f l) <= length l)%nat.
Proof. induction l as [|a l IH]; simpl; [lia|]. destruct (f a); simpl; lia. Qed.

Lemma neighbors_of_NoDup (x y level : Z) :
  0 <= level <= 8 -> 0 <= x < 2 ^ level -> 0 <= y < 2 ^ level ->
  NoDup (Box.neighbors_of x y level) /\ (length (Box.neighbors_of x y level) <= 8)%nat.
Proof.
  intros Hl Hx Hy. rewrite neighbors_of_filter by assumption. split.
  - apply NoDup_map_inj_on.
    + intros [i j] [i' j'] Ha Hb E.
      apply filter_In in Ha as [_ Ha]. apply filter_In in Hb as [_ Hb].
      apply in_grid_spec in Ha as (_ & Hi & Hj). apply in_grid_spec in Hb as (_ & Hi' & Hj').
      simpl in *. apply interleave_inj in E as [E1 E2]; try assumption; try lia.
      f_equal; lia.
    + apply NoDup_lfilter. apply offsets_NoDup.
  - rewrite length_map.
    assert (E : List.filter (in_grid x y level) offsets =
                List.filter (in_grid x y level)
                  [(-1, -1); (-1, 0); (-1, 1); (0, -1); (0, 1); (1, -1); (1, 0); (1, 1)]).
    { unfold offsets. cbn [List.filter].
      replace (in_grid x y level (0, 0)) with false; [reflexivity|].
      unfold in_grid. reflexivity. }
    rewrite E. etransitivity; [apply filter_length_le|]. simpl. lia.
Qed.

(** The neighbour list of a cell, from its grid coordinates. *)
Lemma getNeighborsIndex_coords (b : Box.t) :
  0 <= Box.level b <= 8 ->
  Box.getNeighborsIndex b =
  Box.neighbors_of (fst (Util.uninterleave_ints (Box.index b) (Box.level b)))
                   (snd (Util.uninterleave_ints (Box.index b) (Box.level b)))
                   (Box.level b).
Proof.
  intros Hl. unfold Box.getNeighborsIndex.
  destruct (uninterleave_read_back (Box.index b) (Box.level b) Hl) as [-> ->].
  reflexivity.
Qed.

Lemma adjacent_sym (level n m : Z) : adjacent level n m -> adjacent level m n.
Proof. unfold adjacent. intros (H1 & H2 & H3). repeat split; [congruence | lia | lia]. Qed.

Lemma is_neighbor_adjacent (level n m : Z) :
  0 <= level <= 8 -> 0 <= n < 4 ^ level ->
  is_neighbor_of (fst (Util.uninterleave_ints n level))
                 (snd (Util.uninterleave_ints n level)) level m <->
  0 <= m < 4 ^ level /\ adjacent level n m.
Proof.
  intros Hl Hn.
  destruct (uninterleave_ints_range n level) as [Hx Hy]; [lia|].
  set (x := fst (Util.uninterleave_ints n level)) in *.
  set (y := snd (Util.uninterleave_ints n level)) in *.
  split.
  - intros (i & j & Hi & Hj & Hij & Hxi & Hyj & ->).
    split; [apply interleave_range; lia|].
    unfold adjacent. rewrite uninterleave_ints_interleave by (assumption || lia).
    fold x y. simpl. split; [|lia].
    intros E.
    assert (E' : Util.uninterleave_ints n level = (x + i, y + j)).
    { rewrite E at 1. apply uninterleave_ints_interleave; (assumption || lia). }
    assert (E1 : x = x + i) by (unfold x at 1; rewrite E'; reflexivity).
    assert (E2 : y = y + j) by (unfold y at 1; rewrite E'; reflexivity).
    lia.
  - intros [Hm (Hne & Hax & Hay)]. fold x y in Hax, Hay.
    destruct (uninterleave_ints_range m level) as [Hmx Hmy]; [lia|].
    set (mx := fst (Util.uninterleave_ints m level)) in *.
    set (my := snd (Util.uninterleave_ints m level)) in *.
    exists (mx - x), (my - y).
    split; [lia|]. split; [lia|]. split.
    { destruct (Z.eq_dec (mx - x) 0) as [Ex|Ex]; [|left; exact Ex].
      destruct (Z.eq_dec (my - y) 0) as [Ey|Ey]; [|right; exact Ey].
      exfalso. apply Hne. apply (uninterleave_ints_inj n m level); [lia | assumption..|].
      rewrite (surjective_pairing (Util.uninterleave_ints n level)),
              (surjective_pairing (Util.uninterleave_ints m level)).
      fold x y mx my. f_equal; lia. }
    split; [lia|]. split; [lia|].
    replace (x + (mx - x)) with mx by lia. replace (y + (my - y)) with my by lia.
    symmetry. apply interleave_uninterleave_ints; [lia | exact Hm].
Qed.

Lemma neighbors_adjacent (b : Box.t) (m : Z) :
  0 <= Box.level b <= 8 -> 0 <= Box.index b < 4 ^ Box.level b ->
  m ∈ Box.getNeighborsIndex b <->
  0 <= m < 4 ^ Box.level b /\ adjacent (Box.level b) (Box.index b) m.
Proof.
  intros Hl Hn. rewrite getNeighborsIndex_coords by exact Hl.
  destruct (uninterleave_ints_range (Box.index b) (Box.level b)) as [Hx Hy]; [lia|].
  rewrite neighbors_of_elem by assumption.
  apply is_neighbor_adjacent; assumption.
Qed.

Lemma uninterleave_ints_parent (n l : Z) :
  1 <= l <= 15 ->
  Util.uninterleave_ints (shr n 2) (l - 1) =
  (fst (Util.uninterleave_ints n l) / 2, snd (Util.uninterleave_ints n l) / 2).
Proof.
  intros Hl.
  destruct (Util.uninterleave_ints (shr n 2) (l - 1)) as [a b] eqn:E.
  f_equal; apply Z.bits_inj'; intros k Hk;
    pose proof (uninterleave_ints_bits (shr n 2) (l - 1) k ltac:(lia) Hk) as [H1 H2];
    rewrite E in H1, H2; simpl in H1, H2;
    pose proof (uninterleave_ints_bits n l (k + 1) ltac:(lia) ltac:(lia)) as [H3 H4];
    change 2 with (2 ^ 1); rewrite <- Z.shiftr_div_pow2, Z.shiftr_spec by lia.
  - rewrite H1, H3. unfold shr. rewrite Z.shiftr_spec by lia.
    replace (2 * k + 1 + 2) with (2 * (k + 1) + 1) by lia.
    f_equal. destruct (Z.ltb_spec k (l - 1)), (Z.ltb_spec (k + 1) l); (reflexivity || lia).
  - rewrite H2, H4. unfold shr. rewrite Z.shiftr_spec by lia.
    replace (2 * k + 2) with (2 * (k + 1)) by lia.
    f_equal. destruct (Z.ltb_spec k (l - 1)), (Z.ltb_spec (k + 1) l); (reflexivity || lia).
Qed.

(** Cells that touch have parents that coincide or touch. *)
Lemma adjacent_parents (l n m : Z) :
  1 <= l <= 15 -> adjacent l n m ->
  shr n 2 = shr m 2 \/ adjacent (l - 1) (shr n 2) (shr m 2).
Proof.
  intros Hl (_ & Hx & Hy).
  destruct (Z.eq_dec (shr n 2) (shr m 2)) as [E|Hne]; [left; exact E | right].
  unfold adjacent. rewrite !uninterleave_ints_parent by exact Hl. simpl.
  split; [exact Hne|]. split; Z.div_mod_to_equations; lia.
Qed.

(** Two children of one parent touch. *)
Lemma siblings_adjacent (l n m : Z) :
  1 <= l <= 15 -> shr n 2 = shr m 2 -> n <> m -> adjacent l n m.
Proof.
  intros Hl E Hne.
  assert (E' : Util.uninterleave_ints (shr n 2) (l - 1) =
               Util.uninterleave_ints (shr m 2) (l - 1)) by (rewrite E; reflexivity).
  rewrite !uninterleave_ints_parent in E' by exact Hl.
  injection E' as Ex Ey.
  unfold adjacent. split; [exact Hne|]. split; Z.div_mod_to_equations; lia.
Qed.

Lemma candidates_closed (l : Z) (pns : list Z) : forall acc,
  fold_left (fun acc pn => fold_left push_back (Box.getChildrenIndexOfBox l pn) acc) pns acc =
  acc ++ concat (map (Box.getChildrenIndexOfBox l) pns).
Proof.
  induction pns as [|pn pns IH]; intros acc; cbn [fold_left map concat].
  - symmetry. apply app_nil_r.
  - rewrite IH, fold_left_push_back, <- app_assoc. reflexivity.
Qed.

Lemma filter_closed (nbrs cands : list Z) : forall acc,
  fold_left
    (fun e4 candidate =>
       if fold_left (fun flag nb => if candidate =? nb then true else flag) nbrs false
       then e4 else push_back e4 candidate)
    cands acc =
  acc ++ List.filter
           (fun c => negb (fold_left (fun flag nb => if c =? nb then true else flag)
                                     nbrs false))
           cands.
Proof.
  induction cands as [|c cands IH]; intros acc; cbn [fold_left List.filter].
  - symmetry. apply app_nil_r.
  - rewrite IH. destruct (fold_left _ nbrs false); cbn [negb]; [reflexivity|].
    unfold push_back. rewrite <- app_assoc. reflexivity.
Qed.

(** The interaction list in closed form: the children of the parent's
    neighbours, in order, without the near neighbours. *)
Lemma E4_closed (b : Box.t) :
  Box.getNeighborsE4Index b =
  List.filter
    (fun c => negb (fold_left (fun flag nb => if c =? nb then true else flag)
                              (Box.getNeighborsIndex b) false))
    (concat (map (Box.getChildrenIndexOfBox (Box.level b - 1))
                 (Box.getParentsNeighborsIndex b))).
Proof.
  unfold Box.getNeighborsE4Index. rewrite candidates_closed, filter_closed. reflexivity.
Qed.

Lemma E4_elem (b : Box.t) (m : Z) :
  m ∈ Box.getNeighborsE4Index b <->
  (exists pn, pn ∈ Box.getParentsNeighborsIndex b /\
              m ∈ Box.getChildrenIndexOfBox (Box.level b - 1) pn) /\
  (m ∉ Box.getNeighborsIndex b).
Proof.
  split; [apply E4_members|].
  intros [(pn & Hpn & Hm) Hnb]. rewrite E4_closed, list_elem_of_In.
  apply filter_In. split.
  - apply in_concat. exists (Box.getChildrenIndexOfBox (Box.level b - 1) pn).
    split; [|apply list_elem_of_In; exact Hm].
    apply in_map. apply list_elem_of_In. exact Hpn.
  - apply negb_true_iff. apply not_true_is_false. intros F.
    apply flag_spec in F as [F|F]; [discriminate | contradiction].
Qed.

(** The list of the parent's neighbours is the neighbour list of the parent. *)
Lemma parents_neighbors_as_neighbors (b : Box.t) :
  Box.getParentsNeighborsIndex b =
  Box.getNeighborsIndex (cell (Box.level b - 1) (Box.getParentIndex b)).
Proof. reflexivity. Qed.

Lemma child_cases (q m : Z) :
  m ∈ [4 * q; 4 * q + 1; 4 * q + 2; 4 * q + 3] <-> shr m 2 = q.
Proof.
  rewrite list_elem_of_In. unfold shr. rewrite Z.shiftr_div_pow2 by lia.
  change (2 ^ 2) with 4. simpl. split.
  - intros H. Z.div_mod_to_equations. lia.
  - intros H. Z.div_mod_to_equations. lia.
Qed.

Lemma E4_parents (b : Box.t) (m : Z) :
  1 <= Box.level b <= 8 -> 0 <= Box.index b < 4 ^ Box.level b ->
  m ∈ Box.getNeighborsE4Index b <->
  shr m 2 ∈ Box.getParentsNeighborsIndex b /\ (m ∉ Box.getNeighborsIndex b).
Proof.
  intros Hl Hn. rewrite E4_elem.
  assert (HP : 0 <= Box.getParentIndex b < 4 ^ (Box.level b - 1))
    by (apply parent_range; lia).
  assert (Hrange : forall pn, pn ∈ Box.getParentsNeighborsIndex b -> 0 <= pn < 2 ^ 29).
  { intros pn Hpn. rewrite parents_neighbors_as_neighbors in Hpn.
    apply neighbors_adjacent in Hpn as [Hpn _]; [|simpl; lia | simpl; exact HP].
    simpl in Hpn.
    assert (4 ^ (Box.level b - 1) <= 4 ^ 14) by (apply Z.pow_le_mono_r; lia).
    change (2 ^ 29) with (2 * 4 ^ 14). lia. }
  split.
  - intros [(pn & Hpn & Hm) Hnb]. split; [|exact Hnb].
    rewrite children_of_box in Hm by (apply Hrange; exact Hpn).
    apply child_cases in Hm. rewrite Hm. exact Hpn.
  - intros [Hpn Hnb]. split; [|exact Hnb].
    exists (shr m 2). split; [exact Hpn|].
    rewrite children_of_box by (apply Hrange; exact Hpn).
    apply child_cases. reflexivity.
Qed.

Lemma classic_adjacent (level n m : Z) : adjacent level n m \/ ~ adjacent level n m.
Proof.
  unfold adjacent.
  destruct (Z.eq_dec n m) as [E|Hne]; [right; tauto|].
  destruct (Z_le_dec (Z.abs (fst (Util.uninterleave_ints m level) -
                             fst (Util.uninterleave_ints n level))) 1) as [Hx|Hx];
    [|right; tauto].
  destruct (Z_le_dec (Z.abs (snd (Util.uninterleave_ints m level) -
                             snd (Util.uninterleave_ints n level))) 1) as [Hy|Hy];
    [left; tauto | right; tauto].
Qed.

(** X4.  The neighbour list of a cell of a level up to 8 holds exactly the
    cells of that level that touch it: the indices in range, other than the
    cell's own, whose grid coordinates differ from the cell's by at most one
    in each direction. *)
Theorem neighbors_are_adjacent_cells (b : Box.t) (m : Z) :
  0 <= Box.level b <= 8 -> 0 <= Box.index b < 4 ^ Box.level b ->
  m ∈ Box.getNeighborsIndex b <->
  0 <= m < 4 ^ Box.level b /\ adjacent (Box.level b) (Box.index b) m.
Proof. apply neighbors_adjacent. Qed.

Lemma neighbors_are_adjacent_cells_witness :
  9 ∈ Box.getNeighborsIndex (cell 3 2) <-> 0 <= 9 < 4 ^ 3 /\ adjacent 3 2 9.
Proof. apply (neighbors_are_adjacent_cells (cell 3 2) 9); simpl; lia. Defined.

(** X5.  Being a neighbour is symmetric: for two cells of one level, the
    second is in the neighbour list of the first exactly when the first is in
    the neighbour list of the second. *)
Theorem neighbors_symmetric (b b' : Box.t) :
  0 <= Box.level b <= 8 -> Box.level b' = Box.level b ->
  0 <= Box.index b < 4 ^ Box.level b -> 0 <= Box.index b' < 4 ^ Box.level b ->
  Box.index b' ∈ Box.getNeighborsIndex b <-> Box.index b ∈ Box.getNeighborsIndex b'.
Proof.
  intros Hl El Hn Hn'.
  rewrite !neighbors_adjacent by (rewrite ?El; assumption). rewrite El.
  split; intros [_ H]; (split; [assumption | apply adjacent_sym; exact H]).
Qed.

Lemma neighbors_symmetric_witness :
  Box.index (cell 3 9) ∈ Box.getNeighborsIndex (cell 3 2) <->
  Box.index (cell 3 2) ∈ Box.getNeighborsIndex (cell 3 9).
Proof. apply (neighbors_symmetric (cell 3 2) (cell 3 9)); simpl; lia. Defined.

(** X6.  The neighbour list of a cell names no cell twice and has at most
    eight entries; the single cell of level 0 has none. *)
Theorem neighbors_distinct (b : Box.t) :
  0 <= Box.level b <= 8 -> 0 <= Box.index b < 4 ^ Box.level b ->
  NoDup (Box.getNeighborsIndex b) /\
  size (Box.getNeighborsIndex b) <= 8 /\
  (Box.level b = 0 -> Box.getNeighborsIndex b = []).
Proof.
  intros Hl Hn. rewrite getNeighborsIndex_coords by exact Hl.
  destruct (uninterleave_ints_range (Box.index b) (Box.level b)) as [Hx Hy]; [lia|].
  destruct (neighbors_of_NoDup _ _ (Box.level b) Hl Hx Hy) as [Hnd Hlen].
  split; [exact Hnd|]. split; [unfold size; lia|].
  intros E0. rewrite E0 in *. change (2 ^ 0) with 1 in Hx, Hy.
  replace (fst (Util.uninterleave_ints (Box.index b) 0)) with 0 by lia.
  replace (snd (Util.uninterleave_ints (Box.index b) 0)) with 0 by lia.
  reflexivity.
Qed.

Lemma neighbors_distinct_witness :
  NoDup (Box.getNeighborsIndex (cell 3 2)) /\
  size (Box.getNeighborsIndex (cell 3 2)) <= 8 /\
  (Box.level (cell 3 2) = 0 -> Box.getNeighborsIndex (cell 3 2) = []).
Proof. apply (neighbors_distinct (cell 3 2)); simpl; lia. Defined.

(** X7.  The children of a cell are exactly the cells whose parent it is:
    an index is in the list of [getChildrenIndex] if and only if
    [getParentIndex] of a cell with that index gives the cell's own index; the
    list has four distinct entries, all of them indices of the next level. *)
Theorem children_are_cells_of_parent (b child : Box.t) :
  0 <= Box.level b <= 14 -> 0 <= Box.index b < 4 ^ Box.level b ->
  (Box.index child ∈ Box.getChildrenIndex b <->
   Box.getParentIndex child = Box.index b) /\
  NoDup (Box.getChildrenIndex b) /\ size (Box.getChildrenIndex b) = 4 /\
  (forall c, c ∈ Box.getChildrenIndex b -> 0 <= c < 4 ^ (Box.level b + 1)).
Proof.
  intros Hl Hn.
  assert (H29 : 0 <= Box.index b < 2 ^ 29).
  { assert (4 ^ Box.level b <= 4 ^ 14) by (apply Z.pow_le_mono_r; lia).
    change (2 ^ 29) with (2 * 4 ^ 14). lia. }
  assert (E : Box.getChildrenIndex b =
              [4 * Box.index b; 4 * Box.index b + 1; 4 * Box.index b + 2;
               4 * Box.index b + 3])
    by (apply (children_of_box 0 (Box.index b)); exact H29).
  rewrite E. split; [apply child_cases|]. split; [|split; [reflexivity|]].
  - repeat (apply NoDup_cons; split;
            [rewrite list_elem_of_In; simpl; lia|]).
    constructor.
  - intros c Hc. apply list_elem_of_In in Hc. simpl in Hc.
    rewrite Z.pow_add_r by lia. change (4 ^ 1) with 4. lia.
Qed.

Lemma children_are_cells_of_parent_witness :
  (Box.index (cell 3 38) ∈ Box.getChildrenIndex (cell 2 9) <->
   Box.getParentIndex (cell 3 38) = Box.index (cell 2 9)) /\
  NoDup (Box.getChildrenIndex (cell 2 9)) /\ size (Box.getChildrenIndex (cell 2 9)) = 4 /\
  (forall c, c ∈ Box.getChildrenIndex (cell 2 9) -> 0 <= c < 4 ^ (Box.level (cell 2 9) + 1)).
Proof. apply (children_are_cells_of_parent (cell 2 9) (cell 3 38)); simpl; lia. Defined.

(** X8.  The interaction list of a cell, exactly: a cell is in it if and
    only if its parent is in the list of the parent's neighbours and the cell
    itself is not in the neighbour list. *)
Theorem interaction_list_members (b other : Box.t) :
  1 <= Box.level b <= 8 -> 0 <= Box.index b < 4 ^ Box.level b ->
  Box.index other ∈ Box.getNeighborsE4Index b <->
  Box.getParentIndex other ∈ Box.getParentsNeighborsIndex b /\
  (Box.index other ∉ Box.getNeighborsIndex b).
Proof. intros Hl Hn. apply E4_parents; assumption. Qed.

Lemma interaction_list_members_witness :
  Box.index (cell 3 32) ∈ Box.getNeighborsE4Index (cell 3 46) <->
  Box.getParentIndex (cell 3 32) ∈ Box.getParentsNeighborsIndex (cell 3 46) /\
  (Box.index (cell 3 32) ∉ Box.getNeighborsIndex (cell 3 46)).
Proof. apply (interaction_list_members (cell 3 46) (cell 3 32)); simpl; lia. Defined.

(** X9.  The interaction list is symmetric: for two cells of one level, the
    second is in the interaction list of the first exactly when the first is
    in the interaction list of the second. *)
Theorem interaction_list_symmetric (b b' : Box.t) :
  1 <= Box.level b <= 8 -> Box.level b' = Box.level b ->
  0 <= Box.index b < 4 ^ Box.level b -> 0 <= Box.index b' < 4 ^ Box.level b ->
  Box.index b' ∈ Box.getNeighborsE4Index b <-> Box.index b ∈ Box.getNeighborsE4Index b'.
Proof.
  intros Hl El Hn Hn'.
  assert (HP : 0 <= shr (Box.index b) 2 < 4 ^ (Box.level b - 1))
    by (apply parent_range; lia).
  assert (HP' : 0 <= shr (Box.index b') 2 < 4 ^ (Box.level b - 1))
    by (apply parent_range; lia).
  rewrite !E4_parents by (rewrite ?El; assumption).
  rewrite !parents_neighbors_as_neighbors.
  rewrite !neighbors_adjacent by (rewrite ?El; simpl; (assumption || lia)).
  unfold Box.getParentIndex. simpl. rewrite El.
  split; intros [[_ Hp] Hnb]; (split; [split; [assumption | apply adjacent_sym; exact Hp]|]);
    intros [_ Ha]; apply Hnb; (split; [assumption | apply adjacent_sym; exact Ha]).
Qed.

Lemma interaction_list_symmetric_witness :
  Box.index (cell 3 32) ∈ Box.getNeighborsE4Index (cell 3 46) <->
  Box.index (cell 3 46) ∈ Box.getNeighborsE4Index (cell 3 32).
Proof. apply (interaction_list_symmetric (cell 3 46) (cell 3 32)); simpl; lia. Defined.

(** X10.  Near and far at one level.  For two different cells of a level:
    the second is in the neighbour list or in the interaction list of the
    first exactly when its parent is the first's parent or one of the
    neighbours of that parent; and it is never in both lists. *)
Theorem near_or_interacting (b other : Box.t) :
  1 <= Box.level b <= 8 -> Box.level other = Box.level b ->
  0 <= Box.index b < 4 ^ Box.level b -> 0 <= Box.index other < 4 ^ Box.level b ->
  Box.index other <> Box.index b ->
  (Box.index other ∈ Box.getNeighborsIndex b \/
   Box.index other ∈ Box.getNeighborsE4Index b <->
   Box.getParentIndex other = Box.getParentIndex b \/
   Box.getParentIndex other ∈ Box.getParentsNeighborsIndex b) /\
  ~ (Box.index other ∈ Box.getNeighborsIndex b /\
     Box.index other ∈ Box.getNeighborsE4Index b).
Proof.
  intros Hl El Hn Hm Hne.
  assert (HP : 0 <= shr (Box.index b) 2 < 4 ^ (Box.level b - 1))
    by (apply parent_range; lia).
  assert (HP' : 0 <= shr (Box.index other) 2 < 4 ^ (Box.level b - 1))
    by (apply parent_range; lia).
  rewrite E4_parents by assumption.
  split; [|tauto].
  rewrite parents_neighbors_as_neighbors.
  rewrite !neighbors_adjacent by (simpl; (assumption || lia)).
  unfold Box.getParentIndex. simpl.
  split.
  - intros [[_ Ha]|[[_ Hp] _]].
    + destruct (adjacent_parents (Box.level b) _ _ ltac:(lia) Ha) as [E|Ha'].
      * left. symmetry. exact E.
      * right. split; assumption.
    + right. split; assumption.
  - intros [E|[_ Hp]].
    + left. split; [assumption|]. apply siblings_adjacent; [lia | congruence | congruence].
    + destruct (classic_adjacent (Box.level b) (Box.index b) (Box.index other)) as [Ha|Hna].
      * left. split; assumption.
      * right. split; [split; assumption|]. intros [_ Ha]. contradiction.
Qed.

Lemma near_or_interacting_witness :
  (Box.index (cell 3 32) ∈ Box.getNeighborsIndex (cell 3 46) \/
   Box.index (cell 3 32) ∈ Box.getNeighborsE4Index (cell 3 46) <->
   Box.getParentIndex (cell 3 32) = Box.getParentIndex (cell 3 46) \/
   Box.getParentIndex (cell 3 32) ∈ Box.getParentsNeighborsIndex (cell 3 46)) /\
  ~ (Box.index (cell 3 32) ∈ Box.getNeighborsIndex (cell 3 46) /\
     Box.index (cell 3 32) ∈ Box.getNeighborsE4Index (cell 3 46)).
Proof. apply (near_or_interacting (cell 3 46) (cell 3 32)); simpl; lia. Defined.

Lemma floor_center_scaled (level a : Z) :
  0 <= level <= 8 -> 0 <= a < 2 ^ level ->
  int_of_double (dfloor (center_coord level a * pow2 level)%float) = a.
Proof.
  intros Hl Ha.
  assert (H : forallb (fun l => forallb (fun a =>
                 int_of_double (dfloor (center_coord l a * pow2 l)%float) =? a)
                 (zrange (2 ^ l))) (zrange 9) = true)
    by (vm_compute; reflexivity).
  pose proof (zrange_check _ 9 level H ltac:(lia)) as H1. cbv beta in H1.
  pose proof (zrange_check _ _ a H1 Ha) as H2. cbv beta in H2.
  apply Z.eqb_eq. exact H2.
Qed.

(** X11.  The centre of a cell is sorted into that cell: for a level up to
    8, [getBoxIndex] of the point that [getCenter] returns, taken at the
    cell's level, is the cell's own index. *)
Theorem center_in_own_cell (b : Box.t) :
  0 <= Box.level b <= 8 -> 0 <= Box.index b < 4 ^ Box.level b ->
  Point.getBoxIndex (Box.getCenter b) (Box.level b) = Box.index b.
Proof.
  intros Hl Hn. unfold Point.getBoxIndex, Box.getCenter. cbn [Point.coord].
  rewrite center_coords by lia. cbn [real imag].
  destruct (uninterleave_ints_range (Box.index b) (Box.level b)) as [Hx Hy]; [lia|].
  rewrite !floor_center_scaled by assumption.
  apply interleave_uninterleave_ints; [lia | exact Hn].
Qed.

Lemma center_in_own_cell_witness :
  Point.getBoxIndex (Box.getCenter (cell 3 46)) (Box.level (cell 3 46)) =
  Box.index (cell 3 46).
Proof. apply (center_in_own_cell (cell 3 46)); simpl; lia. Defined.

(** X12.  Whatever the point (outside the unit square, infinite or not a
    number included), the index that [getBoxIndex] computes for a level up
    to 15 is the index of a cell of that level. *)
Theorem getBoxIndex_in_range (pt : Point.t) (level : Z) :
  0 <= level <= 15 -> 0 <= Point.getBoxIndex pt level < 4 ^ level.
Proof. intros Hl. unfold Point.getBoxIndex. apply interleave_range. exact Hl. Qed.

Lemma getBoxIndex_in_range_witness :
  0 <= Point.getBoxIndex (Point.mk (Cplx (-3) nan)%float) 3 < 4 ^ 3.
Proof. apply (getBoxIndex_in_range (Point.mk (Cplx (-3) nan)%float) 3); lia. Defined.

(** The loop of [addToC], [addToD] and [addToDtilde], from index [i] on. *)
Lemma add_into_from (increment : list complex) (n : nat) : forall (i : nat) (v : list complex),
  (i + n = length v)%nat -> (length v <= length increment)%nat ->
  iterM_up n (Z.of_nat i)
    (fun i v => do vi <- vget v i; do inc <- vget increment i; vset v i (cadd vi inc)) v =
  Ret (take i v ++ zip_with cadd (drop i v) (drop i increment)).
Proof.
  induction n as [|n IH]; intros i v Hn Hlen; cbn [iterM_up].
  - rewrite drop_ge by lia. cbn [zip_with]. rewrite app_nil_r, take_ge by lia. reflexivity.
  - destruct (lookup_lt_is_Some_2 v i ltac:(lia)) as [vi Hvi].
    destruct (lookup_lt_is_Some_2 increment i ltac:(lia)) as [ci Hci].
    rewrite (vget_lookup v (Z.of_nat i) vi) by (rewrite ?Nat2Z.id; (lia || exact Hvi)).
    cbn [rbind].
    rewrite (vget_lookup increment (Z.of_nat i) ci) by (rewrite ?Nat2Z.id; (lia || exact Hci)).
    cbn [rbind].
    rewrite vset_in_range by (unfold size; lia). cbn [rbind]. rewrite Nat2Z.id.
    replace (Z.of_nat i + 1) with (Z.of_nat (S i)) by lia.
    rewrite IH by (rewrite ?length_insert; lia).
    f_equal.
    rewrite (take_S_r _ i (cadd vi ci)) by (apply list_lookup_insert_eq; lia).
    rewrite take_insert_ge by lia. rewrite drop_insert_lt by lia.
    rewrite (drop_S v vi i Hvi), (drop_S increment ci i Hci). cbn [zip_with].
    rewrite <- app_assoc. reflexivity.
Qed.

Lemma add_into_closed (v increment : list complex) :
  Box.add_into v increment =
  if size v <=? size increment then Ret (zip_with cadd v increment) else Undefined.
Proof.
  destruct (Z.leb_spec (size v) (size increment)) as [H|H].
  - unfold Box.add_into, forM. change 0 with (Z.of_nat 0).
    rewrite add_into_from; [reflexivity | unfold size; lia | unfold size in H; lia].
  - apply add_into_short. exact H.
Qed.

(** X13.  [addToC], [addToD] and [addToDtilde] add the increment entry by
    entry to the whole array and leave the rest of the cell as it is, when
    the increment has at least as many entries as the array; a shorter
    increment is read past its end. *)
Theorem addTo_adds_entrywise (b : Box.t) (increment : list complex) :
  Box.addToC b increment =
    (if size (Box.c b) <=? size increment
     then Ret (Box.with_c b (zip_with cadd (Box.c b) increment)) else Undefined) /\
  Box.addToD b increment =
    (if size (Box.d b) <=? size increment
     then Ret (Box.with_d b (zip_with cadd (Box.d b) increment)) else Undefined) /\
  Box.addToDtilde b increment =
    (if size (Box.dtilde b) <=? size increment
     then Ret (Box.with_dtilde b (zip_with cadd (Box.dtilde b) increment)) else Undefined).
Proof.
  unfold Box.addToC, Box.addToD, Box.addToDtilde. rewrite !add_into_closed.
  destruct (size (Box.c b) <=? size increment), (size (Box.d b) <=? size increment),
    (size (Box.dtilde b) <=? size increment); repeat split; reflexivity.
Qed.

Lemma iterM_up_fixed {S} (body : Z -> S -> result S) (s : S) (n : nat) : forall i,
  (forall k, i <= k < i + Z.of_nat n -> body k s = Ret s) ->
  iterM_up n i body s = Ret s.
Proof.
  induction n as [|n IH]; intros i H; cbn [iterM_up]; [reflexivity|].
  rewrite H by lia. cbn [rbind]. apply IH. intros k Hk. apply H. lia.
Qed.

Lemma vnew_zeros (n : Z) : 0 <= n -> vnew n czero = Ret (zeros n).
Proof. intros H. unfold vnew. destruct (Z.ltb_spec n 0); [lia | reflexivity]. Qed.

Lemma vnew_negative {A} (n : Z) (a : A) : n < 0 -> vnew n a = Abort.
Proof. intros H. unfold vnew. destruct (Z.ltb_spec n 0); [reflexivity | lia]. Qed.

Lemma size_zeros (n : Z) : 0 <= n -> size (zeros n) = n.
Proof. intros H. unfold size, zeros. rewrite length_replicate. lia. Qed.

Lemma vset_zeros (n i : Z) :
  0 <= i < n -> vset (zeros n) i (Cplx 0%float 0%float) = Ret (zeros n).
Proof.
  intros H. rewrite vset_in_range by (rewrite size_zeros; lia).
  unfold zeros. change (Cplx 0%float 0%float) with czero.
  rewrite insert_replicate. reflexivity.
Qed.

Lemma construct_closed (level index p : Z) :
  -1 <= p < int_max ->
  Box.construct level index p =
  Ret (Box.mk level index p true (zeros (p + 1)) (zeros (p + 1)) (zeros (p + 1)) [] []).
Proof.
  intros Hp. unfold Box.construct.
  rewrite iadd_small by (unfold int_min, int_max in *; lia).
  rewrite vnew_zeros by lia. cbn [rbind].
  unfold forM. apply iterM_up_fixed. intros k Hk. cbn [Box.c Box.dtilde Box.d].
  rewrite vset_zeros by lia. cbn [rbind]. reflexivity.
Qed.

(** X14.  A constructed cell is empty and all its coefficients are zero:
    for an order p from -1 to INT_MAX-1, [Box(level, index, p)] has the
    given level, index and order, no points, and three arrays of p+1 zeros;
    for any other order the construction of the arrays throws.  [Box()] is
    the cell of level 3 and index 0 with three arrays of 13 zeros. *)
Theorem new_cell_is_zeroed (level index p : Z) :
  int_min <= p <= int_max ->
  Box.new level index p =
    (if (-1 <=? p) && (p <? int_max)
     then Ret (Box.mk level index p true (zeros (p + 1)) (zeros (p + 1)) (zeros (p + 1))
                      [] [])
     else Abort) /\
  Box.default = Ret (Box.mk 3 0 12 true (zeros 13) (zeros 13) (zeros 13) [] []).
Proof.
  intros Hp. split.
  - unfold Box.new.
    destruct (Z.leb_spec (-1) p) as [H1|H1]; cbn [andb].
    + destruct (Z.ltb_spec p int_max) as [H2|H2].
      * apply construct_closed. lia.
      * assert (E : p = int_max) by lia.
        unfold Box.construct. rewrite E, iadd_int_max. reflexivity.
    + unfold Box.construct.
      rewrite iadd_small by (unfold int_min, int_max in *; lia).
      rewrite vnew_negative by lia. reflexivity.
  - unfold Box.default, Box.DEFAULT_LEVEL, Box.DEFAULT_INDEX, Box.DEFAULT_P.
    rewrite construct_closed by (unfold int_max; lia). reflexivity.
Qed.

Lemma new_cell_is_zeroed_witness :
  Box.new 2 7 5 =
    (if (-1 <=? 5) && (5 <? int_max)
     then Ret (Box.mk 2 7 5 true (zeros (5 + 1)) (zeros (5 + 1)) (zeros (5 + 1)) [] [])
     else Abort) /\
  Box.default = Ret (Box.mk 3 0 12 true (zeros 13) (zeros 13) (zeros 13) [] []).
Proof. apply (new_cell_is_zeroed 2 7 5). unfold int_min, int_max. lia. Defined.

(** ** Trees as tables of cells *)

Lemma forM_states {S} (body : Z -> S -> result S) (st : Z -> S) (n : nat) : forall lo,
  (forall k, lo <= k < lo + Z.of_nat n -> body k (st k) = Ret (st (k + 1))) ->
  iterM_up n lo body (st lo) = Ret (st (lo + Z.of_nat n)).
Proof.
  induction n as [|n IH]; intros lo H; cbn [iterM_up].
  - f_equal. f_equal. lia.
  - rewrite H by lia. cbn [rbind]. rewrite IH by (intros k Hk; apply H; lia).
    f_equal. f_equal. lia.
Qed.

Lemma forM_closed {S} (body : Z -> S -> result S) (st : Z -> S) (lo hi : Z) :
  lo <= hi ->
  (forall k, lo <= k < hi -> body k (st k) = Ret (st (k + 1))) ->
  forM lo hi body (st lo) = Ret (st hi).
Proof.
  intros Hle H. unfold forM. rewrite forM_states by (intros k Hk; apply H; lia).
  f_equal. f_equal. lia.
Qed.

Lemma lookup_map {A B} (f : A -> B) (l : list A) (i : nat) :
  map f l !! i = option_map f (l !! i).
Proof. revert i. induction l as [|a l IH]; intros [|i]; simpl; auto. Qed.

Lemma zrange_length (n : Z) : length (zrange n) = Z.to_nat n.
Proof. unfold zrange. rewrite length_map, length_seq. reflexivity. Qed.

Lemma zrange_lookup (n : Z) (i : nat) :
  zrange n !! i = if (i <? Z.to_nat n)%nat then Some (Z.of_nat i) else None.
Proof.
  unfold zrange. rewrite lookup_map.
  destruct (Nat.ltb_spec i (Z.to_nat n)) as [H|H].
  - rewrite lookup_seq_lt by exact H. reflexivity.
  - rewrite lookup_seq_ge by exact H. reflexivity.
Qed.

Lemma map_zrange_lookup {A} (f : Z -> A) (n : Z) (i : nat) :
  map f (zrange n) !! i = if (i <? Z.to_nat n)%nat then Some (f (Z.of_nat i)) else None.
Proof. rewrite lookup_map, zrange_lookup. destruct (_ <? _)%nat; reflexivity. Qed.

Lemma size_map_zrange {A} (f : Z -> A) (n : Z) : 0 <= n -> size (map f (zrange n)) = n.
Proof. intros H. unfold size. rewrite length_map, zrange_length. lia. Qed.

Lemma vget_map_zrange {A} (f : Z -> A) (n k : Z) :
  0 <= k < n -> vget (map f (zrange n)) k = Ret (f k).
Proof.
  intros H. apply vget_lookup; [lia|]. rewrite map_zrange_lookup.
  destruct (Nat.ltb_spec (Z.to_nat k) (Z.to_nat n)); [|lia].
  rewrite Z2Nat.id by lia. reflexivity.
Qed.

Lemma map_zrange_ext {A} (f g : Z -> A) (n : Z) :
  (forall k, 0 <= k < n -> f k = g k) -> map f (zrange n) = map g (zrange n).
Proof.
  intros H. apply list_eq. intros i. rewrite !map_zrange_lookup.
  destruct (Nat.ltb_spec i (Z.to_nat n)); [|reflexivity].
  rewrite H by lia. reflexivity.
Qed.

Lemma vset_map_zrange {A} (f : Z -> A) (n k : Z) (a : A) :
  0 <= k < n ->
  vset (map f (zrange n)) k a = Ret (map (fun j => if j =? k then a else f j) (zrange n)).
Proof.
  intros H. rewrite vset_in_range by (rewrite size_map_zrange; lia). f_equal.
  apply list_eq. intros i. rewrite map_zrange_lookup.
  destruct (Nat.eq_dec i (Z.to_nat k)) as [->|Hne].
  - rewrite list_lookup_insert_eq by (rewrite length_map, zrange_length; lia).
    destruct (Nat.ltb_spec (Z.to_nat k) (Z.to_nat n)); [|lia].
    rewrite Z2Nat.id by lia. rewrite Z.eqb_refl. reflexivity.
  - rewrite list_lookup_insert_ne by auto. rewrite map_zrange_lookup.
    destruct (Nat.ltb_spec i (Z.to_nat n)); [|reflexivity].
    destruct (Z.eqb_spec (Z.of_nat i) k); [lia | reflexivity].
Qed.

Lemma replicate_zrange {A} (a : A) (n : Z) :
  replicate (Z.to_nat n) a = map (fun _ => a) (zrange n).
Proof.
  apply list_eq. intros i. rewrite map_zrange_lookup.
  destruct (Nat.ltb_spec i (Z.to_nat n)).
  - apply lookup_replicate_2. lia.
  - apply lookup_replicate_None. lia.
Qed.

Lemma grid_tree_ext (levels : Z) (w w' : Z -> Z) (cf cf' : Z -> Z -> Box.t) :
  (forall i, 0 <= i < levels -> w i = w' i) ->
  (forall i j, 0 <= i < levels -> 0 <= j < w i -> cf i j = cf' i j) ->
  grid_tree levels w cf = grid_tree levels w' cf'.
Proof.
  intros Hw Hc. unfold grid_tree. apply map_zrange_ext. intros i Hi.
  rewrite <- (Hw i Hi). apply map_zrange_ext. intros j Hj. apply Hc; assumption.
Qed.

Lemma vget_grid_tree (levels : Z) (w : Z -> Z) (cf : Z -> Z -> Box.t) (i : Z) :
  0 <= i < levels ->
  vget (grid_tree levels w cf) i = Ret (map (cf i) (zrange (w i))).
Proof.
  intros Hi. exact (vget_map_zrange (fun i => map (cf i) (zrange (w i))) levels i Hi).
Qed.

Lemma vget_grid (this : FmmTree.t) (levels : Z) (w : Z -> Z) (cf : Z -> Z -> Box.t) (i : Z) :
  FmmTree.tree_structure this = grid_tree levels w cf ->
  0 <= i < levels ->
  vget (FmmTree.tree_structure this) i = Ret (map (cf i) (zrange (w i))).
Proof.
  intros Htree Hi. rewrite Htree.
  exact (vget_map_zrange (fun i => map (cf i) (zrange (w i))) levels i Hi).
Qed.

Lemma get_box_grid (this : FmmTree.t) (levels : Z) (w : Z -> Z) (cf : Z -> Z -> Box.t)
    (i j : Z) :
  FmmTree.tree_structure this = grid_tree levels w cf ->
  0 <= i < levels -> 0 <= j < w i -> FmmTree.get_box this i j = Ret (cf i j).
Proof.
  intros Htree Hi Hj. unfold FmmTree.get_box.
  rewrite (vget_grid this levels w cf i Htree Hi). cbn [rbind].
  apply vget_map_zrange. exact Hj.
Qed.

Lemma set_box_grid (this : FmmTree.t) (levels : Z) (w : Z -> Z) (cf : Z -> Z -> Box.t)
    (i j : Z) (b : Box.t) :
  FmmTree.tree_structure this = grid_tree levels w cf ->
  0 <= i < levels -> 0 <= j < w i ->
  FmmTree.set_box this i j b =
  Ret (FmmTree.with_tree this
         (grid_tree levels w
            (fun i' j' => if (i' =? i) && (j' =? j) then b else cf i' j'))).
Proof.
  intros Htree Hi Hj. unfold FmmTree.set_box.
  rewrite (vget_grid this levels w cf i Htree Hi). cbn [rbind].
  rewrite vset_map_zrange by exact Hj. cbn [rbind].
  rewrite Htree. unfold grid_tree at 1.
  rewrite (vset_map_zrange (fun i => map (cf i) (zrange (w i))) levels i _ Hi).
  cbn [rbind]. f_equal. f_equal. unfold grid_tree. apply map_zrange_ext. intros i' Hi'.
  destruct (Z.eqb_spec i' i) as [->|Hne]; cbn [andb]; reflexivity.
Qed.

(** Replacing a whole level. *)
Lemma vset_grid (levels : Z) (w : Z -> Z) (cf : Z -> Z -> Box.t) (i m : Z)
    (g : Z -> Box.t) :
  0 <= i < levels ->
  vset (grid_tree levels w cf) i (map g (zrange m)) =
  Ret (grid_tree levels (fun i' => if i' =? i then m else w i')
         (fun i' j => if i' =? i then g j else cf i' j)).
Proof.
  intros Hi. unfold grid_tree at 1.
  rewrite (vset_map_zrange (fun i => map (cf i) (zrange (w i))) levels i _ Hi).
  f_equal. unfold grid_tree. apply map_zrange_ext. intros i' Hi'.
  destruct (Z.eqb_spec i' i) as [->|Hne]; reflexivity.
Qed.
Lemma forM_from {S} (body : Z -> S -> result S) (st : Z -> S) (lo hi : Z) (s s' : S) :
  lo <= hi -> s = st lo -> s' = st hi ->
  (forall k, lo <= k < hi -> body k (st k) = Ret (st (k + 1))) ->
  forM lo hi body s = Ret s'.
Proof. intros Hle -> -> H. apply forM_closed; assumption. Qed.

(** A loop whose round [m] fails after the rounds before it have succeeded. *)
Lemma forM_stuck {St} (body : Z -> St -> result St) (st : Z -> St) (r : result St)
    (lo m hi : Z) (s : St) :
  lo <= m < hi -> s = st lo ->
  (forall k, lo <= k < m -> body k (st k) = Ret (st (k + 1))) ->
  body m (st m) = r -> (forall a, r <> Ret a) ->
  forM lo hi body s = r.
Proof.
  intros Hm -> Hstep Hfail Hr. unfold forM.
  replace (Z.to_nat (hi - lo)) with (Z.to_nat (m - lo) + S (Z.to_nat (hi - m - 1)))%nat by lia.
  assert (G : forall n1 n2 lo', (forall k, lo' <= k < lo' + Z.of_nat n1 ->
                 body k (st k) = Ret (st (k + 1))) ->
              body (lo' + Z.of_nat n1) (st (lo' + Z.of_nat n1)) = r ->
              iterM_up (n1 + S n2) lo' body (st lo') = r).
  { induction n1 as [|n1 IH]; intros n2 lo' H1 H2.
    - cbn [Nat.add iterM_up]. replace (lo' + Z.of_nat 0) with lo' in H2 by lia.
      rewrite H2. destruct r; [exfalso; eapply Hr; reflexivity | reflexivity..].
    - cbn [Nat.add iterM_up]. rewrite H1 by lia. cbn [rbind].
      apply IH; [intros k Hk; apply H1; lia|].
      replace (lo' + 1 + Z.of_nat n1) with (lo' + Z.of_nat (S n1)) by lia. exact H2. }
  apply G.
  - intros k Hk. apply Hstep. lia.
  - replace (lo + Z.of_nat (Z.to_nat (m - lo))) with m by lia. exact Hfail.
Qed.

Lemma fill_step {A} (l : list A) (d a : A) (k n : nat) :
  l !! k = Some a -> (k < n)%nat ->
  <[k := a]> (take k l ++ replicate (n - k) d) = take (S k) l ++ replicate (n - S k) d.
Proof.
  intros Hl Hk. pose proof (lookup_lt_Some _ _ _ Hl) as Hlen.
  rewrite insert_app_r_alt by (rewrite length_take; lia).
  rewrite length_take. replace (k `min` length l)%nat with k by lia.
  replace (k - k)%nat with 0%nat by lia.
  replace (n - k)%nat with (S (n - S k)) by lia. cbn [replicate].
  rewrite (take_S_r l k a Hl), <- app_assoc. reflexivity.
Qed.

(** One round of the copy loop of the constructor. *)
Lemma copy_loop_step (sources targets : list Point.t) (k : Z) :
  0 <= k < size sources -> k < size targets ->
  let n := length sources in
  (fun (i : Z) '(x, y) =>
     do s <- vget sources i;
     do x <- vset x i s;
     do tg <- vget targets i;
     do y <- vset y i tg;
     Ret (x, y)) k
    (take (Z.to_nat k) sources ++ replicate (n - Z.to_nat k) Point.default,
     take (Z.to_nat k) targets ++ replicate (n - Z.to_nat k) Point.default) =
  Ret (take (Z.to_nat (k + 1)) sources ++ replicate (n - Z.to_nat (k + 1)) Point.default,
       take (Z.to_nat (k + 1)) targets ++ replicate (n - Z.to_nat (k + 1)) Point.default).
Proof.
  intros Hk Hk' n. unfold size in *.
  destruct (lookup_lt_is_Some_2 sources (Z.to_nat k) ltac:(lia)) as [s Hs].
  destruct (lookup_lt_is_Some_2 targets (Z.to_nat k) ltac:(lia)) as [tg Htg].
  cbv beta iota.
  rewrite (vget_lookup sources k s) by (lia || exact Hs). cbn [rbind].
  rewrite vset_in_range
    by (unfold size; rewrite length_app, length_take, length_replicate; lia).
  cbn [rbind].
  rewrite (vget_lookup targets k tg) by (lia || exact Htg). cbn [rbind].
  rewrite vset_in_range
    by (unfold size; rewrite length_app, length_take, length_replicate; lia).
  cbn [rbind].
  replace (Z.to_nat (k + 1)) with (S (Z.to_nat k)) by lia.
  rewrite (fill_step sources _ s) by (exact Hs || lia).
  rewrite (fill_step targets _ tg) by (exact Htg || lia).
  reflexivity.
Qed.
Lemma copy_loop (sources targets : list Point.t) :
  size sources <= size targets ->
  forM 0 (size sources)
    (fun (i : Z) '(x, y) =>
       do s <- vget sources i;
       do x <- vset x i s;
       do tg <- vget targets i;
       do y <- vset y i tg;
       Ret (x, y))
    (replicate (Z.to_nat (size sources)) Point.default,
     replicate (Z.to_nat (size sources)) Point.default) =
  Ret (sources, take (length sources) targets).
Proof.
  intros Hlen.
  apply (forM_from _
           (fun k => (take (Z.to_nat k) sources ++
                        replicate (length sources - Z.to_nat k) Point.default,
                      take (Z.to_nat k) targets ++
                        replicate (length sources - Z.to_nat k) Point.default))).
  - apply size_nonneg.
  - cbn [Z.to_nat take app]. unfold size. rewrite Nat2Z.id, Nat.sub_0_r. reflexivity.
  - unfold size. rewrite Nat2Z.id, Nat.sub_diag. cbn [replicate].
    rewrite !app_nil_r, (take_ge sources) by lia. reflexivity.
  - intros k Hk. apply copy_loop_step; lia.
Qed.

Lemma copy_loop_short (sources targets : list Point.t) :
  size targets < size sources ->
  forM 0 (size sources)
    (fun (i : Z) '(x, y) =>
       do s <- vget sources i;
       do x <- vset x i s;
       do tg <- vget targets i;
       do y <- vset y i tg;
       Ret (x, y))
    (replicate (Z.to_nat (size sources)) Point.default,
     replicate (Z.to_nat (size sources)) Point.default) = Undefined.
Proof.
  intros Hlen. pose proof (size_nonneg targets) as H0.
  apply (forM_stuck _
           (fun k => (take (Z.to_nat k) sources ++
                        replicate (length sources - Z.to_nat k) Point.default,
                      take (Z.to_nat k) targets ++
                        replicate (length sources - Z.to_nat k) Point.default))
           Undefined 0 (size targets)).
  - lia.
  - cbn [Z.to_nat take app]. unfold size. rewrite Nat2Z.id, Nat.sub_0_r. reflexivity.
  - intros k Hk. apply copy_loop_step; lia.
  - cbv beta iota. unfold size in *.
    destruct (lookup_lt_is_Some_2 sources (Z.to_nat (Z.of_nat (length targets)))
                ltac:(lia)) as [s Hs].
    rewrite (vget_lookup sources _ s) by (lia || exact Hs). cbn [rbind].
    rewrite vset_in_range
      by (unfold size; rewrite length_app, length_take, length_replicate; lia).
    cbn [rbind].
    rewrite vget_out_of_range by (unfold size; lia). reflexivity.
  - discriminate.
Qed.

Lemma pow4_exact (i : Z) : 0 <= i <= 7 -> int_of_double (pow2 (2 * i)) = 4 ^ i.
Proof.
  intros Hi.
  assert (H : forallb (fun i => int_of_double (pow2 (2 * i)) =? 4 ^ i) (zrange 8) = true)
    by (vm_compute; reflexivity).
  apply Z.eqb_eq. apply (zrange_check _ 8 i H). lia.
Qed.

Lemma default_closed :
  Box.default = Ret (Box.mk 3 0 12 true (zeros 13) (zeros 13) (zeros 13) [] []).
Proof.
  unfold Box.default, Box.DEFAULT_LEVEL, Box.DEFAULT_INDEX, Box.DEFAULT_P.
  rewrite construct_closed by (unfold int_max; lia). reflexivity.
Qed.

Lemma resize_empty (n : Z) :
  0 < n ->
  FmmTree.resize_boxes [] n =
  Ret (map (fun _ => Box.mk 3 0 12 true (zeros 13) (zeros 13) (zeros 13) [] [])
           (zrange n)).
Proof.
  intros Hn. unfold FmmTree.resize_boxes.
  destruct (Z.ltb_spec n 0); [lia|].
  change (size (@nil Box.t)) with 0.
  destruct (Z.leb_spec n 0); [lia|].
  rewrite default_closed. cbn [rbind app]. rewrite Z.sub_0_r, replicate_zrange.
  reflexivity.
Qed.
Ltac tree_simpl :=
  unfold FmmTree.with_tree, FmmTree.count;
  cbn [FmmTree.numOfLevels FmmTree.currLevel FmmTree.x FmmTree.y FmmTree.potential
       FmmTree.tree_structure FmmTree.numOpsIndirect].

Lemma pow4_pos (i : Z) : 0 <= i -> 0 < 4 ^ i.
Proof. intros H. apply Z.pow_pos_nonneg; lia. Qed.

(** The first loop nest of [initStruct]: every level is resized and its cells
    are relabelled. *)
Lemma initStruct_resize (this : FmmTree.t) (levels : Z) (cf : Z -> Z -> Box.t) :
  0 <= levels <= 8 ->
  FmmTree.tree_structure this = grid_tree levels (fun _ => 0) cf ->
  forM 0 (size (FmmTree.tree_structure this))
    (fun i this =>
       let cells_in_tree_structure_i := int_of_double (pow2 (2 * i)) in
       do row <- vget (FmmTree.tree_structure this) i;
       do row <- FmmTree.resize_boxes row cells_in_tree_structure_i;
       do ts <- vset (FmmTree.tree_structure this) i row;
       forM 0 (size row)
         (fun j this =>
            do b <- FmmTree.get_box this i j;
            FmmTree.set_box this i j
              (Box.setP (Box.setIndex (Box.setLevel b i) j)
                        (Potential.getP (FmmTree.potential this))))
         (FmmTree.with_tree this ts))
    this =
  Ret (FmmTree.with_tree this
         (grid_tree levels (fun i => 4 ^ i)
            (fun i j => Box.mk i j (Potential.p (FmmTree.potential this)) true
                          (zeros 13) (zeros 13) (zeros 13) [] []))).
Proof.
  intros Hl Htree.
  set (p := Potential.p (FmmTree.potential this)).
  set (fresh := fun i j => Box.mk i j p true (zeros 13) (zeros 13) (zeros 13) [] []).
  set (b0 := Box.mk 3 0 12 true (zeros 13) (zeros 13) (zeros 13) [] []).
  assert (Hsize : size (FmmTree.tree_structure this) = levels).
  { rewrite Htree. unfold grid_tree. apply size_map_zrange. lia. }
  rewrite Hsize.
  apply (forM_from _
           (fun i => FmmTree.with_tree this
                       (grid_tree levels (fun i' => if i' <? i then 4 ^ i' else 0) fresh))).
  - lia.
  - destruct this as [nl cl x y pot ts ops]. tree_simpl. cbn [FmmTree.tree_structure] in Htree.
    f_equal. rewrite Htree. apply grid_tree_ext.
    + intros i Hi. destruct (Z.ltb_spec i 0); [lia | reflexivity].
    + intros i j Hi Hj. lia.
  - tree_simpl. f_equal. apply grid_tree_ext.
    + intros i Hi. destruct (Z.ltb_spec i levels); [reflexivity | lia].
    + reflexivity.
  - intros i Hi. cbv zeta. rewrite pow4_exact by lia.
    pose proof (pow4_pos i ltac:(lia)) as Hpos.
    tree_simpl.
    rewrite vget_grid_tree by exact Hi.
    cbn [rbind]. rewrite Z.ltb_irrefl. change (zrange 0) with (@nil Z). cbn [map].
    rewrite resize_empty by exact Hpos. cbn [rbind]. fold b0.
    rewrite vset_grid by exact Hi. cbn [rbind].
    rewrite size_map_zrange by lia.
    apply (forM_from _
             (fun k => FmmTree.with_tree this
                (grid_tree levels (fun i' => if i' <? i + 1 then 4 ^ i' else 0)
                   (fun i' j => if (i' =? i) && (k <=? j) then b0 else fresh i' j)))).
    + lia.
    + destruct this as [nl cl x y pot ts ops]. tree_simpl.
      f_equal. apply grid_tree_ext.
      * intros i' Hi'. destruct (Z.eqb_spec i' i) as [->|Hne].
        -- destruct (Z.ltb_spec i (i + 1)); [reflexivity | lia].
        -- destruct (Z.ltb_spec i' i), (Z.ltb_spec i' (i + 1)); (reflexivity || lia).
      * intros i' j Hi' Hj. destruct (Z.eqb_spec i' i) as [->|Hne]; cbn [andb]; [|reflexivity].
        destruct (Z.leb_spec 0 j); [reflexivity | lia].
    + tree_simpl. f_equal. apply grid_tree_ext; [reflexivity|].
      intros i' j Hi' Hj. destruct (Z.eqb_spec i' i) as [->|Hne]; cbn [andb]; [|reflexivity].
      destruct (Z.ltb_spec i (i + 1)); [|lia].
      destruct (Z.leb_spec (4 ^ i) j); [lia | reflexivity].
    + intros k Hk.
      rewrite (get_box_grid _ levels (fun i' => if i' <? i + 1 then 4 ^ i' else 0)
                 (fun i' j => if (i' =? i) && (k <=? j) then b0 else fresh i' j) i k);
        [ | destruct this; reflexivity | exact Hi
          | destruct (Z.ltb_spec i (i + 1)); lia ].
      cbn [rbind]. rewrite Z.eqb_refl, Z.leb_refl. cbn [andb].
      rewrite (set_box_grid _ levels (fun i' => if i' <? i + 1 then 4 ^ i' else 0)
                 (fun i' j => if (i' =? i) && (k <=? j) then b0 else fresh i' j) i k);
        [ | destruct this; reflexivity | exact Hi
          | destruct (Z.ltb_spec i (i + 1)); lia ].
      destruct this as [nl cl x y pot ts ops]. tree_simpl.
      f_equal. f_equal. apply grid_tree_ext; [reflexivity|].
      intros i' j Hi' Hj.
      destruct (Z.eqb_spec i' i) as [->|Hne]; cbn [andb]; [|reflexivity].
      destruct (Z.eqb_spec j k) as [->|Hne].
      * destruct (Z.leb_spec (k + 1) k); [lia | reflexivity].
      * destruct (Z.leb_spec k j), (Z.leb_spec (k + 1) j); (reflexivity || lia).
Qed.
(** The second and third loops of [initStruct]: every point of the list
    [sel this] is added, by [add], to the cell of the finest level that
    [getBoxIndex] names. *)
Lemma initStruct_sort (sel : FmmTree.t -> list Point.t) (add : Box.t -> Point.t -> Box.t)
    (cellf : list Point.t -> Z -> Z -> Box.t) (this : FmmTree.t) (levels leaf : Z)
    (pts : list Point.t) :
  1 <= levels <= 8 -> leaf = levels - 1 -> pts = sel this ->
  (forall ts, sel (FmmTree.with_tree this ts) = sel this) ->
  FmmTree.tree_structure this = grid_tree levels (fun i => 4 ^ i) (cellf []) ->
  (forall l pt i j,
     cellf (l ++ [pt]) i j =
     if (i =? leaf) && (j =? Point.getBoxIndex pt leaf)
     then add (cellf l i j) pt else cellf l i j) ->
  forM 0 (size pts)
    (fun i this =>
       do xi <- vget (sel this) i;
       do b <- FmmTree.get_box this leaf (Point.getBoxIndex xi leaf);
       FmmTree.set_box this leaf (Point.getBoxIndex xi leaf) (add b xi))
    this =
  Ret (FmmTree.with_tree this (grid_tree levels (fun i => 4 ^ i) (cellf pts))).
Proof.
  intros Hl Hleaf -> Hsel Htree Hcell.
  apply (forM_from _
           (fun k => FmmTree.with_tree this
                       (grid_tree levels (fun i => 4 ^ i)
                          (cellf (take (Z.to_nat k) (sel this)))))).
  - apply size_nonneg.
  - change (Z.to_nat 0) with 0%nat. rewrite take_0, <- Htree. destruct this; reflexivity.
  - unfold size. rewrite Nat2Z.id, take_ge by lia. reflexivity.
  - intros k Hk. unfold size in Hk.
    destruct (lookup_lt_is_Some_2 (sel this) (Z.to_nat k) ltac:(lia)) as [pt Hpt].
    rewrite Hsel. rewrite (vget_lookup (sel this) k pt) by (lia || exact Hpt).
    cbn [rbind].
    assert (Hn : 0 <= Point.getBoxIndex pt leaf < 4 ^ leaf)
      by (unfold Point.getBoxIndex; apply interleave_range; lia).
    rewrite (get_box_grid _ levels (fun i => 4 ^ i)
               (cellf (take (Z.to_nat k) (sel this))) leaf (Point.getBoxIndex pt leaf));
      [ | destruct this; reflexivity | lia | exact Hn ].
    cbn [rbind].
    rewrite (set_box_grid _ levels (fun i => 4 ^ i)
               (cellf (take (Z.to_nat k) (sel this))) leaf (Point.getBoxIndex pt leaf));
      [ | destruct this; reflexivity | lia | exact Hn ].
    f_equal. destruct this as [nl cl x y pot ts ops]. tree_simpl. f_equal.
    apply grid_tree_ext; [reflexivity|]. intros i j Hi Hj.
    replace (Z.to_nat (k + 1)) with (S (Z.to_nat k)) by lia.
    rewrite (take_S_r _ _ pt Hpt), Hcell.
    destruct ((i =? leaf) && (j =? Point.getBoxIndex pt leaf)) eqn:E; [|reflexivity].
    apply andb_true_iff in E as [E1 E2].
    apply Z.eqb_eq in E1, E2. subst i j. reflexivity.
Qed.

Lemma sorted_into_snoc (level n : Z) (l : list Point.t) (pt : Point.t) :
  sorted_into level n (l ++ [pt]) =
  if n =? Point.getBoxIndex pt level
  then push_back (sorted_into level n l) pt else sorted_into level n l.
Proof.
  unfold sorted_into. rewrite List.filter_app. cbn [List.filter].
  rewrite (Z.eqb_sym n). destruct (Point.getBoxIndex pt level =? n).
  - reflexivity.
  - apply app_nil_r.
Qed.

Lemma built_cell_source (levels p : Z) (l ys : list Point.t) (pt : Point.t) (i j : Z) :
  ys = [] ->
  built_cell levels p (l ++ [pt]) ys i j =
  if (i =? levels - 1) && (j =? Point.getBoxIndex pt (levels - 1))
  then Box.addX (built_cell levels p l ys i j) pt else built_cell levels p l ys i j.
Proof.
  intros ->. unfold built_cell, Box.addX. cbn [Box.level Box.index Box.p Box.empty Box.c
    Box.dtilde Box.d Box.x Box.y].
  destruct (Z.eqb_spec i (levels - 1)) as [->|Hne]; cbn [andb]; [|reflexivity].
  rewrite sorted_into_snoc. destruct (j =? _); reflexivity.
Qed.

Lemma built_cell_target (levels p : Z) (xs l : list Point.t) (pt : Point.t) (i j : Z) :
  built_cell levels p xs (l ++ [pt]) i j =
  if (i =? levels - 1) && (j =? Point.getBoxIndex pt (levels - 1))
  then Box.addY (built_cell levels p xs l i j) pt else built_cell levels p xs l i j.
Proof.
  unfold built_cell, Box.addY. cbn [Box.level Box.index Box.p Box.empty Box.c
    Box.dtilde Box.d Box.x Box.y].
  destruct (Z.eqb_spec i (levels - 1)) as [->|Hne]; cbn [andb]; [|reflexivity].
  rewrite sorted_into_snoc. destruct (j =? _); reflexivity.
Qed.

Lemma replicate_nil_grid (levels : Z) (cf : Z -> Z -> Box.t) :
  replicate (Z.to_nat levels) [] = grid_tree levels (fun _ => 0) cf.
Proof. rewrite replicate_zrange. reflexivity. Qed.

(** [initStruct] on the tree that the constructor hands to it. *)
Lemma initStruct_closed (levels : Z) (xs ys : list Point.t) (pot : Potential.t)
    (ops : Z) :
  1 <= levels <= 8 ->
  FmmTree.initStruct
    (FmmTree.mk levels (levels - 1) xs ys pot (replicate (Z.to_nat levels) []) ops) =
  Ret (FmmTree.mk levels (levels - 1) xs ys pot
         (built_tree levels (Potential.p pot) xs ys) ops).
Proof.
  intros Hl. unfold FmmTree.initStruct.
  rewrite (initStruct_resize _ levels (fun _ _ => Box.mk 0 0 0 true [] [] [] [] []))
    by (lia || apply replicate_nil_grid).
  cbn [rbind]. cbv zeta. tree_simpl.
  rewrite (initStruct_sort FmmTree.x Box.addX
             (fun l => built_cell levels (Potential.p pot) l []) _ levels (levels - 1) xs);
    [ | lia | reflexivity | reflexivity | reflexivity | | ].
  - cbn [rbind]. tree_simpl.
    rewrite (initStruct_sort FmmTree.y Box.addY
               (fun l => built_cell levels (Potential.p pot) xs l) _ levels (levels - 1) ys);
      [ reflexivity | lia | reflexivity | reflexivity | reflexivity | reflexivity | ].
    intros l pt i j. apply built_cell_target.
  - tree_simpl. apply grid_tree_ext; [reflexivity|]. intros i j Hi Hj.
    unfold built_cell. destruct (i =? levels - 1); reflexivity.
  - intros l pt i j. apply built_cell_source. reflexivity.
Qed.

(** The constructor in closed form. *)
Lemma new_closed (level : Z) (sources targets : list Point.t) (pot : Potential.t) :
  1 <= level <= 8 -> size sources <= size targets ->
  FmmTree.new level sources targets pot =
  Ret (FmmTree.mk level (level - 1) sources (take (length sources) targets) pot
         (built_tree level (Potential.p pot) sources (take (length sources) targets)) 0).
Proof.
  intros Hl Hlen. unfold FmmTree.new, vnew, assert.
  destruct (Z.ltb_spec level 0); [lia|]. cbn [rbind].
  destruct (Z.gtb_spec level 0); [|lia]. cbn [rbind].
  destruct (Z.leb_spec level 8); [|lia]. cbn [rbind]. cbv zeta.
  rewrite copy_loop by exact Hlen. cbn [rbind].
  apply initStruct_closed. exact Hl.
Qed.

Lemma new_short (level : Z) (sources targets : list Point.t) (pot : Potential.t) :
  1 <= level <= 8 -> size targets < size sources ->
  FmmTree.new level sources targets pot = Undefined.
Proof.
  intros Hl Hlen. unfold FmmTree.new, vnew, assert.
  destruct (Z.ltb_spec level 0); [lia|]. cbn [rbind].
  destruct (Z.gtb_spec level 0); [|lia]. cbn [rbind].
  destruct (Z.leb_spec level 8); [|lia]. cbn [rbind]. cbv zeta.
  rewrite copy_loop_short by exact Hlen. reflexivity.
Qed.
Lemma get_box_built (levels p : Z) (xs ys : list Point.t) (this : FmmTree.t) (i j : Z) :
  FmmTree.tree_structure this = built_tree levels p xs ys ->
  0 <= i < levels -> 0 <= j < 4 ^ i ->
  FmmTree.get_box this i j = Ret (built_cell levels p xs ys i j).
Proof.
  intros Ht Hi Hj.
  apply (get_box_grid this levels (fun i => 4 ^ i) (built_cell levels p xs ys) i j Ht Hi Hj).
Qed.

(** X15.  For a depth from 1 to 8 and at least as many targets as sources,
    the constructor returns a tree, whatever the points are: it has the given
    number of levels, level i has 4^i cells, and cell j of level i carries
    the level i, the index j, the order of the kernel and three coefficient
    arrays of 13 zeros; the operation counter is 0. *)
Theorem constructor_builds_tree (level : Z) (sources targets : list Point.t)
    (pot : Potential.t) :
  1 <= level <= 8 -> size sources <= size targets ->
  exists t, FmmTree.new level sources targets pot = Ret t /\
    FmmTree.numOfLevels t = level /\ FmmTree.currLevel t = level - 1 /\
    FmmTree.potential t = pot /\ FmmTree.numOpsIndirect t = 0 /\
    size (FmmTree.tree_structure t) = level /\
    forall i, 0 <= i < level ->
      (exists row, vget (FmmTree.tree_structure t) i = Ret row /\ size row = 4 ^ i) /\
      forall j, 0 <= j < 4 ^ i ->
        exists b, FmmTree.get_box t i j = Ret b /\
          Box.level b = i /\ Box.index b = j /\ Box.p b = Potential.p pot /\
          Box.c b = zeros 13 /\ Box.dtilde b = zeros 13 /\ Box.d b = zeros 13.
Proof.
  intros Hl Hlen. eexists. split; [apply new_closed; assumption|].
  cbn [FmmTree.numOfLevels FmmTree.currLevel FmmTree.potential FmmTree.numOpsIndirect
       FmmTree.tree_structure].
  repeat (split; [reflexivity|]).
  split; [unfold built_tree, grid_tree; apply size_map_zrange; lia|].
  intros i Hi. split.
  - eexists. split; [unfold built_tree; apply vget_grid_tree; exact Hi|].
    apply size_map_zrange. pose proof (pow4_pos i). lia.
  - intros j Hj. eexists. split; [eapply get_box_built; [reflexivity | exact Hi | exact Hj]|].
    repeat split.
Qed.

Lemma constructor_builds_tree_witness :
  exists t, FmmTree.new 3 demo_points demo_points (Potential.mk 5) = Ret t /\
    FmmTree.numOfLevels t = 3 /\ FmmTree.currLevel t = 3 - 1 /\
    FmmTree.potential t = Potential.mk 5 /\ FmmTree.numOpsIndirect t = 0 /\
    size (FmmTree.tree_structure t) = 3 /\
    forall i, 0 <= i < 3 ->
      (exists row, vget (FmmTree.tree_structure t) i = Ret row /\ size row = 4 ^ i) /\
      forall j, 0 <= j < 4 ^ i ->
        exists b, FmmTree.get_box t i j = Ret b /\
          Box.level b = i /\ Box.index b = j /\ Box.p b = Potential.p (Potential.mk 5) /\
          Box.c b = zeros 13 /\ Box.dtilde b = zeros 13 /\ Box.d b = zeros 13.
Proof.
  apply (constructor_builds_tree 3 demo_points demo_points (Potential.mk 5));
    [lia | unfold size; simpl; lia].
Defined.

(** X16.  The constructor sorts the points into the cells of the finest
    level: cell j of level [level - 1] holds exactly the sources, and exactly
    the targets it has kept, for which [getBoxIndex] at that level gives j,
    in the order of the input; the cells of the other levels hold no
    points. *)
Theorem constructor_sorts_points (level : Z) (sources targets : list Point.t)
    (pot : Potential.t) (t : FmmTree.t) (i j : Z) (b : Box.t) :
  1 <= level <= 8 -> size sources <= size targets ->
  FmmTree.new level sources targets pot = Ret t ->
  0 <= i < level -> 0 <= j < 4 ^ i ->
  FmmTree.get_box t i j = Ret b ->
  (i = level - 1 ->
   Box.getX b = sorted_into (level - 1) j sources /\
   Box.getY b = sorted_into (level - 1) j (take (length sources) targets)) /\
  (i < level - 1 -> Box.getX b = [] /\ Box.getY b = []).
Proof.
  intros Hl Hlen Hnew Hi Hj Hb.
  rewrite new_closed in Hnew by assumption. injection Hnew as <-.
  rewrite (get_box_built level (Potential.p pot) sources
             (take (length sources) targets)) in Hb by (reflexivity || assumption).
  injection Hb as <-.
  unfold built_cell, Box.getX, Box.getY. cbn [Box.x Box.y]. split.
  - intros ->. rewrite Z.eqb_refl. split; reflexivity.
  - intros Hlt. destruct (Z.eqb_spec i (level - 1)); [lia|]. split; reflexivity.
Qed.

Lemma constructor_sorts_points_witness :
  (2 = 3 - 1 ->
   Box.getX (built_cell 3 5 demo_points demo_points 2 15) =
     sorted_into (3 - 1) 15 demo_points /\
   Box.getY (built_cell 3 5 demo_points demo_points 2 15) =
     sorted_into (3 - 1) 15 (take (length demo_points) demo_points)) /\
  (2 < 3 - 1 -> Box.getX (built_cell 3 5 demo_points demo_points 2 15) = [] /\
                Box.getY (built_cell 3 5 demo_points demo_points 2 15) = []).
Proof.
  apply (constructor_sorts_points 3 demo_points demo_points (Potential.mk 5)
           (FmmTree.mk 3 2 demo_points demo_points (Potential.mk 5)
              (built_tree 3 5 demo_points demo_points) 0) 2 15).
  - lia.
  - unfold size. simpl. lia.
  - vm_compute. reflexivity.
  - lia.
  - lia.
  - vm_compute. reflexivity.
Defined.

(** X17.  The constructor copies one target for every source.  With fewer
    targets than sources it reads the target vector past its end; with more,
    the targets beyond the number of sources are left out of the tree, and
    the sources are kept as given. *)
Theorem constructor_pairs_targets_with_sources (level : Z)
    (sources targets : list Point.t) (pot : Potential.t) :
  1 <= level <= 8 ->
  (size targets < size sources -> FmmTree.new level sources targets pot = Undefined) /\
  (size sources <= size targets ->
   exists t, FmmTree.new level sources targets pot = Ret t /\
     FmmTree.x t = sources /\ FmmTree.y t = take (length sources) targets).
Proof.
  intros Hl. split.
  - intros Hlen. apply new_short; assumption.
  - intros Hlen. eexists. split; [apply new_closed; assumption|]. split; reflexivity.
Qed.

Lemma constructor_pairs_targets_with_sources_witness :
  (size [Point.default] < size demo_points ->
   FmmTree.new 3 demo_points [Point.default] (Potential.mk 5) = Undefined) /\
  (size demo_points <= size [Point.default] ->
   exists t, FmmTree.new 3 demo_points [Point.default] (Potential.mk 5) = Ret t /\
     FmmTree.x t = demo_points /\
     FmmTree.y t = take (length demo_points) [Point.default]).
Proof.
  apply (constructor_pairs_targets_with_sources 3 demo_points [Point.default]
           (Potential.mk 5)).
  lia.
Defined.

(** ** The cluster threshold *)

Lemma forM_read_row {St} (this : FmmTree.t) (l : Z) (row : list Box.t)
    (g : St -> Box.t -> St) (a0 : St) :
  vget (FmmTree.tree_structure this) l = Ret row ->
  forM 0 (size row) (fun i ans => do b <- FmmTree.get_box this l i; Ret (g ans b)) a0 =
  Ret (fold_left g row a0).
Proof.
  intros Hrow.
  apply (forM_from _ (fun k => fold_left g (take (Z.to_nat k) row) a0)).
  - apply size_nonneg.
  - reflexivity.
  - unfold size. rewrite Nat2Z.id, take_ge by lia. reflexivity.
  - intros k Hk. unfold size in Hk.
    destruct (lookup_lt_is_Some_2 row (Z.to_nat k) ltac:(lia)) as [b Hb].
    unfold FmmTree.get_box. rewrite Hrow. cbn [rbind].
    rewrite (vget_lookup row k b) by (lia || exact Hb). cbn [rbind].
    replace (Z.to_nat (k + 1)) with (S (Z.to_nat k)) by lia.
    rewrite (take_S_r _ _ b Hb), fold_left_app. reflexivity.
Qed.

Lemma fold_max_spec (row : list Box.t) : forall a0,
  let r := fold_left
             (fun ans b =>
                let ans := if Box.getSizeX b >? ans then Box.getSizeX b else ans in
                if Box.getSizeY b >? ans then Box.getSizeY b else ans)
             row a0 in
  a0 <= r /\
  (forall b, b ∈ row -> Box.getSizeX b <= r /\ Box.getSizeY b <= r) /\
  (r = a0 \/ exists b, b ∈ row /\ (Box.getSizeX b = r \/ Box.getSizeY b = r)).
Proof.
  induction row as [|b row IH]; intros a0; cbn [fold_left].
  - cbv zeta. split; [lia|]. split; [|left; reflexivity]. intros b Hb. inversion Hb.
  - cbv zeta.
    set (a1 := if Box.getSizeY b >? (if Box.getSizeX b >? a0 then Box.getSizeX b else a0)
               then Box.getSizeY b
               else if Box.getSizeX b >? a0 then Box.getSizeX b else a0).
    specialize (IH a1). cbv zeta in IH. destruct IH as (H1 & H2 & H3).
    assert (Ha1 : a0 <= a1 /\ Box.getSizeX b <= a1 /\ Box.getSizeY b <= a1 /\
                  (a1 = a0 \/ a1 = Box.getSizeX b \/ a1 = Box.getSizeY b)).
    { unfold a1. destruct (Z.gtb_spec (Box.getSizeX b) a0);
        match goal with |- context [?u >? ?v] => destruct (Z.gtb_spec u v) end; lia. }
    split; [lia|]. split.
    + intros b' Hb'. apply elem_of_cons in Hb' as [->|Hb']; [lia | apply H2; exact Hb'].
    + destruct H3 as [H3|(b' & Hb' & H3)].
      * rewrite H3. destruct Ha1 as (_ & _ & _ & [E|[E|E]]); [left; exact E | right..];
          exists b; (split; [constructor|]); [left | right]; symmetry; exact E.
      * right. exists b'. split; [constructor; exact Hb' | exact H3].
Qed.

(** X18.  [getClusterThreshold] returns the largest number of sources or of
    targets that a cell of the finest level holds: no cell of that level has
    more, and unless the result is 0 some cell has exactly that many.  On a
    tree without a level [numOfLevels - 1] it reads outside the vector of
    levels. *)
Theorem cluster_threshold_is_maximum (this : FmmTree.t) :
  (forall row, vget (FmmTree.tree_structure this) (FmmTree.numOfLevels this - 1) = Ret row ->
     exists r, FmmTree.getClusterThreshold this = Ret r /\ 0 <= r /\
       (forall b, b ∈ row -> Box.getSizeX b <= r /\ Box.getSizeY b <= r) /\
       (r = 0 \/ exists b, b ∈ row /\ (Box.getSizeX b = r \/ Box.getSizeY b = r))) /\
  (vget (FmmTree.tree_structure this) (FmmTree.numOfLevels this - 1) = Undefined ->
   FmmTree.getClusterThreshold this = Undefined).
Proof.
  split.
  - intros row Hrow. unfold FmmTree.getClusterThreshold. cbv zeta. rewrite Hrow. cbn [rbind].
    erewrite forM_read_row by exact Hrow.
    eexists. split; [reflexivity|]. exact (fold_max_spec row 0).
  - intros Hrow. unfold FmmTree.getClusterThreshold. cbv zeta. rewrite Hrow. reflexivity.
Qed.

Lemma cluster_threshold_is_maximum_witness :
  exists r, FmmTree.getClusterThreshold demo_tree = Ret r /\ 0 <= r /\
    (forall b, b ∈ from_result [] (vget (FmmTree.tree_structure demo_tree) 2) ->
       Box.getSizeX b <= r /\ Box.getSizeY b <= r) /\
    (r = 0 \/ exists b, b ∈ from_result [] (vget (FmmTree.tree_structure demo_tree) 2) /\
                (Box.getSizeX b = r \/ Box.getSizeY b = r)).
Proof.
  apply (proj1 (cluster_threshold_is_maximum demo_tree)). vm_compute. reflexivity.
Defined.

(** ** The index of a point in a vector *)

Section GetIndex.
Context {L : ComplexLib}.

Lemma getIndex_from_spec (p : Point.t) (z : list Point.t) : forall i,
  let r := FmmTree.getIndex_from z p i in
  (r = -1 /\ forall q, q ∈ z -> Point.equals q p = false) \/
  (i <= r < i + size z /\
   exists q, z !! Z.to_nat (r - i) = Some q /\ Point.equals q p = true /\
     forall k q', (k < Z.to_nat (r - i))%nat -> z !! k = Some q' ->
                  Point.equals q' p = false).
Proof.
  induction z as [|q z IH]; intros i; cbn [FmmTree.getIndex_from].
  - left. split; [reflexivity|]. intros q Hq. inversion Hq.
  - cbv zeta. destruct (Point.equals q p) eqn:E.
    + right. unfold size. cbn [length]. split; [lia|].
      exists q. replace (i - i) with 0 by lia. cbn. split; [reflexivity|].
      split; [exact E|]. intros k q' Hk. lia.
    + specialize (IH (i + 1)). cbv zeta in IH.
      destruct IH as [[H1 H2]|[H1 (q0 & H2 & H3 & H4)]].
      * left. split; [exact H1|]. intros q' Hq'.
        apply elem_of_cons in Hq' as [->|Hq']; [exact E | apply H2; exact Hq'].
      * right. unfold size in *. cbn [length]. split; [lia|].
        exists q0.
        replace (Z.to_nat (FmmTree.getIndex_from z p (i + 1) - i))
          with (S (Z.to_nat (FmmTree.getIndex_from z p (i + 1) - (i + 1)))) by lia.
        cbn [lookup list_lookup]. split; [exact H2|]. split; [exact H3|].
        intros [|k] q' Hk Hq'.
        -- cbn in Hq'. injection Hq' as <-. exact E.
        -- cbn in Hq'. apply (H4 k q'); [lia | exact Hq'].
Qed.

(** X19.  [getIndex] returns the first position whose point [equals] the
    given one: either -1, and then no point of the vector equals it, or a
    valid index of the vector whose point equals it while no point before it
    does. *)
Theorem getIndex_first_match (z : list Point.t) (p : Point.t) :
  (FmmTree.getIndex z p = -1 /\ forall q, q ∈ z -> Point.equals q p = false) \/
  (0 <= FmmTree.getIndex z p < size z /\
   exists q, vget z (FmmTree.getIndex z p) = Ret q /\ Point.equals q p = true /\
     forall k q', 0 <= k < FmmTree.getIndex z p -> vget z k = Ret q' ->
                  Point.equals q' p = false).
Proof.
  unfold FmmTree.getIndex.
  destruct (getIndex_from_spec p z 0) as [H|[H1 (q & H2 & H3 & H4)]]; [left; exact H|].
  right. split; [lia|]. rewrite Z.sub_0_r in H2, H4.
  exists q. split; [apply vget_lookup; [lia | exact H2]|]. split; [exact H3|].
  intros k q' Hk Hq'. apply vget_Ret in Hq' as [_ Hq'].
  apply (H4 (Z.to_nat k) q'); [lia | exact Hq'].
Qed.

End GetIndex.
(** ** What the solver phases leave alone *)

Lemma addTo_shape (b b' : Box.t) (inc : list complex) :
  Box.addToC b inc = Ret b' \/ Box.addToD b inc = Ret b' \/ Box.addToDtilde b inc = Ret b' ->
  cell_shape b' = cell_shape b.
Proof.
  unfold Box.addToC, Box.addToD, Box.addToDtilde.
  intros [H|[H|H]]; apply rbind_Ret in H as (v & Hv & H); apply add_into_size in Hv;
    injection H as <-; unfold cell_shape; cbn; rewrite Hv; reflexivity.
Qed.

Lemma get_box_lookup (this : FmmTree.t) (l k : Z) (b : Box.t) :
  FmmTree.get_box this l k = Ret b <->
  0 <= l /\ 0 <= k /\
  exists row, FmmTree.tree_structure this !! Z.to_nat l = Some row /\
              row !! Z.to_nat k = Some b.
Proof.
  unfold FmmTree.get_box. split.
  - intros H. apply rbind_Ret in H as (row & Hrow & H).
    apply vget_Ret in Hrow as [Hl Hrow]. apply vget_Ret in H as [Hk H]. eauto.
  - intros (Hl & Hk & row & Hrow & H).
    rewrite (vget_lookup _ l row Hl Hrow). cbn [rbind]. apply vget_lookup; assumption.
Qed.

Lemma set_box_shape (this this' : FmmTree.t) (l k : Z) (b b' : Box.t) :
  FmmTree.get_box this l k = Ret b -> cell_shape b' = cell_shape b ->
  FmmTree.set_box this l k b' = Ret this' ->
  tree_shape this' = tree_shape this.
Proof.
  intros Hget Hshape Hset.
  apply get_box_lookup in Hget as (Hl & Hk & row & Hrow & Hb).
  unfold FmmTree.set_box in Hset.
  rewrite (vget_lookup _ l row Hl Hrow) in Hset. cbn [rbind] in Hset.
  rewrite vset_in_range in Hset
    by (split; [exact Hk | apply lookup_lt_Some in Hb; unfold size; lia]).
  cbn [rbind] in Hset.
  rewrite vset_in_range in Hset
    by (split; [exact Hl | apply lookup_lt_Some in Hrow; unfold size; lia]).
  cbn [rbind] in Hset. injection Hset as <-.
  unfold tree_shape. destruct this as [nl cl x y pot ts ops]. tree_simpl.
  cbn [FmmTree.tree_structure] in Hrow. f_equal.
  apply list_eq. intros i. rewrite !lookup_map.
  destruct (Nat.eq_dec i (Z.to_nat l)) as [->|Hne].
  - rewrite list_lookup_insert_eq by (apply lookup_lt_Some in Hrow; exact Hrow).
    rewrite Hrow. cbn [option_map]. f_equal.
    apply list_eq. intros j. rewrite !lookup_map.
    destruct (Nat.eq_dec j (Z.to_nat k)) as [->|Hne].
    + rewrite list_lookup_insert_eq by (apply lookup_lt_Some in Hb; exact Hb).
      rewrite Hb. cbn [option_map]. f_equal. exact Hshape.
    + rewrite list_lookup_insert_ne by auto. reflexivity.
  - rewrite list_lookup_insert_ne by auto. reflexivity.
Qed.

Lemma count_shape (this : FmmTree.t) (n : Z) :
  tree_shape (FmmTree.count this n) = tree_shape this.
Proof. reflexivity. Qed.

Lemma get_box_count (this : FmmTree.t) (n l k : Z) :
  FmmTree.get_box (FmmTree.count this n) l k = FmmTree.get_box this l k.
Proof. reflexivity. Qed.

(** Reading a cell, adding to one of its arrays, and writing it back. *)
Lemma update_shape (this this' : FmmTree.t) (l k : Z) (b b' : Box.t) (inc : list complex) :
  FmmTree.set_box this l k b' = Ret this' ->
  FmmTree.get_box this l k = Ret b ->
  Box.addToC b inc = Ret b' \/ Box.addToD b inc = Ret b' \/ Box.addToDtilde b inc = Ret b' ->
  tree_shape this' = tree_shape this.
Proof.
  intros Hset Hget Hadd. apply (set_box_shape this this' l k b b' Hget); [|exact Hset].
  apply (addTo_shape b b' inc Hadd).
Qed.
Section Phases.
Context {L : ComplexLib}.

Lemma upwardPass_shape (this this' : FmmTree.t) (u : list double) :
  FmmTree.upwardPass this u = Ret this' -> tree_shape this' = tree_shape this.
Proof.
  unfold FmmTree.upwardPass. cbv zeta. intros H.
  apply rbind_Ret in H as (leaves & Hleaves & H).
  apply rbind_Ret in H as (this1 & H1 & H).
  assert (S1 : tree_shape this1 = tree_shape this).
  { apply (forM_inv (fun s => tree_shape s = tree_shape this)) in H1;
      [exact H1 | | reflexivity].
    intros i s s' Hs Hbody.
    apply rbind_Ret in Hbody as (thisBox & HthisBox & Hbody).
    apply (forM_inv (fun s => tree_shape s = tree_shape this)) in Hbody;
      [exact Hbody | | exact Hs].
    intros j s0 s0' Hs0 Hbody0.
    apply rbind_Ret in Hbody0 as (thisX & _ & Hbody0).
    apply rbind_Ret in Hbody0 as (thisBox0 & Hget & Hbody0).
    apply rbind_Ret in Hbody0 as (B & _ & Hbody0).
    apply rbind_Ret in Hbody0 as (thisU & _ & Hbody0).
    apply rbind_Ret in Hbody0 as (B' & _ & Hbody0).
    apply rbind_Ret in Hbody0 as (thisBox' & Hadd & Hbody0).
    apply rbind_Ret in Hbody0 as (s1 & Hset & Hbody0).
    injection Hbody0 as <-. rewrite count_shape, <- Hs0.
    eapply update_shape in Hset; [exact Hset | exact Hget | exact (or_introl Hadd)]. }
  rewrite <- S1.
  apply (forM_down_inv (fun s => tree_shape s = tree_shape this1)) in H;
    [exact H | | reflexivity].
  intros el s s' Hs Hbody.
  apply rbind_Ret in Hbody as (row & _ & Hbody).
  apply (forM_inv (fun s => tree_shape s = tree_shape this1)) in Hbody;
    [exact Hbody | | exact Hs].
  intros k s0 s0' Hs0 Hbody0.
  apply rbind_Ret in Hbody0 as (thisBox & _ & Hbody0).
  apply rbind_Ret in Hbody0 as (parentBox & Hget & Hbody0).
  apply rbind_Ret in Hbody0 as (newCoeffs & _ & Hbody0).
  apply rbind_Ret in Hbody0 as (parentBox' & Hadd & Hbody0).
  apply rbind_Ret in Hbody0 as (s1 & Hset & Hbody0).
  injection Hbody0 as <-. rewrite count_shape, <- Hs0.
  eapply update_shape in Hset; [exact Hset | exact Hget | exact (or_introl Hadd)].
Qed.

Lemma downwardPass1_shape (this this' : FmmTree.t) :
  FmmTree.downwardPass1 this = Ret this' -> tree_shape this' = tree_shape this.
Proof.
  unfold FmmTree.downwardPass1. cbv zeta. intros H.
  apply (forM_inv (fun s => tree_shape s = tree_shape this)) in H;
    [exact H | | reflexivity].
  intros el s s' Hs Hbody.
  apply rbind_Ret in Hbody as (row & _ & Hbody).
  apply (forM_inv (fun s => tree_shape s = tree_shape this)) in Hbody;
    [exact Hbody | | exact Hs].
  intros k s0 s0' Hs0 Hbody0.
  apply rbind_Ret in Hbody0 as (thisBox & _ & Hbody0).
  apply (forM_inv (fun s => tree_shape s = tree_shape this)) in Hbody0;
    [exact Hbody0 | | exact Hs0].
  intros j s1 s1' Hs1 Hbody1.
  apply rbind_Ret in Hbody1 as (n & _ & Hbody1).
  apply rbind_Ret in Hbody1 as (nb & _ & Hbody1).
  apply rbind_Ret in Hbody1 as (thisBox1 & Hget & Hbody1).
  apply rbind_Ret in Hbody1 as (newCoeffs & _ & Hbody1).
  apply rbind_Ret in Hbody1 as (thisBox' & Hadd & Hbody1).
  apply rbind_Ret in Hbody1 as (s2 & Hset & Hbody1).
  injection Hbody1 as <-. rewrite count_shape, <- Hs1.
  eapply update_shape in Hset; [exact Hset | exact Hget | exact (or_intror (or_intror Hadd))].
Qed.

Lemma downwardPass2_shape (this this' : FmmTree.t) :
  FmmTree.downwardPass2 this = Ret this' -> tree_shape this' = tree_shape this.
Proof.
  unfold FmmTree.downwardPass2. cbv zeta. intros H.
  apply rbind_Ret in H as (row2 & _ & H).
  apply rbind_Ret in H as (this1 & H1 & H).
  assert (S1 : tree_shape this1 = tree_shape this).
  { apply (forM_inv (fun s => tree_shape s = tree_shape this)) in H1;
      [exact H1 | | reflexivity].
    intros i s s' Hs Hbody.
    apply rbind_Ret in Hbody as (b & Hget & Hbody).
    apply rbind_Ret in Hbody as (b' & Hadd & Hbody).
    apply rbind_Ret in Hbody as (s1 & Hset & Hbody).
    injection Hbody as <-. rewrite count_shape, <- Hs.
    eapply update_shape in Hset; [exact Hset | exact Hget | exact (or_intror (or_introl Hadd))]. }
  rewrite <- S1.
  apply (forM_inv (fun s => tree_shape s = tree_shape this1)) in H;
    [exact H | | reflexivity].
  intros el s s' Hs Hbody.
  apply rbind_Ret in Hbody as (row & _ & Hbody).
  apply (forM_inv (fun s => tree_shape s = tree_shape this1)) in Hbody;
    [exact Hbody | | exact Hs].
  intros m s0 s0' Hs0 Hbody0.
  apply rbind_Ret in Hbody0 as (thisBox & _ & Hbody0).
  apply (forM_inv (fun s => tree_shape s = tree_shape this1)) in Hbody0;
    [exact Hbody0 | | rewrite count_shape; exact Hs0].
  intros k s1 s1' Hs1 Hbody1.
  apply rbind_Ret in Hbody1 as (n & _ & Hbody1).
  apply rbind_Ret in Hbody1 as (child & Hget & Hbody1).
  apply rbind_Ret in Hbody1 as (thisBox1 & _ & Hbody1).
  apply rbind_Ret in Hbody1 as (newCoeffs & _ & Hbody1).
  apply rbind_Ret in Hbody1 as (child1 & Hadd1 & Hbody1).
  apply rbind_Ret in Hbody1 as (child2 & Hadd2 & Hbody1).
  apply rbind_Ret in Hbody1 as (s2 & Hset & Hbody1).
  injection Hbody1 as <-. rewrite count_shape, <- Hs1.
  refine (set_box_shape _ _ _ _ child child2 Hget _ Hset).
  rewrite (addTo_shape child1 child2 _ (or_intror (or_introl Hadd2))).
  apply (addTo_shape child child1 _ (or_intror (or_introl Hadd1))).
Qed.

End Phases.
Section Solve.
Context {L : ComplexLib}.

Lemma evaluate_keeps_tree (this this' : FmmTree.t) (u v v' : list double) :
  FmmTree.evaluate this u v = Ret (v', this') ->
  frame this' = frame this /\ size v' = size v.
Proof.
  unfold FmmTree.evaluate. intros H.
  apply rbind_Ret in H as (leaves & _ & H).
  apply (forM_inv (fun st => frame (snd st) = frame this /\ size (fst st) = size v)) in H;
    [exact H | | split; reflexivity].
  intros i st st' Hst Hbody.
  apply rbind_Ret in Hbody as (thisBox & _ & Hbody).
  apply (forM_inv (fun st => frame (snd st) = frame this /\ size (fst st) = size v))
    in Hbody; [exact Hbody | | exact Hst].
  intros j [w t] [w' t'] [Ht Hw] Hj. cbn [fst snd] in *.
  apply rbind_Ret in Hj as (thisY & _ & Hj).
  apply evaluate_target_frame in Hj as [Hf Hs]. split; congruence.
Qed.

Lemma frame_shape (this this' : FmmTree.t) :
  frame this' = frame this -> tree_shape this' = tree_shape this.
Proof. unfold frame, tree_shape. intros H. injection H as -> -> -> -> -> ->. reflexivity. Qed.

Lemma solve_shape (this this' : FmmTree.t) (u v : list double) :
  FmmTree.solve this u = Ret (v, this') ->
  tree_shape this' = tree_shape this /\ size v = size (FmmTree.y this).
Proof.
  unfold FmmTree.solve. intros H.
  apply rbind_Ret in H as (t1 & H1 & H). apply upwardPass_shape in H1.
  apply rbind_Ret in H as (t2 & H2 & H). apply downwardPass1_shape in H2.
  apply rbind_Ret in H as (t3 & H3 & H). apply downwardPass2_shape in H3.
  cbv zeta in H. apply evaluate_keeps_tree in H as [Hf Hv].
  apply frame_shape in Hf.
  assert (E : tree_shape t3 = tree_shape this) by congruence.
  split; [congruence|].
  rewrite Hv. unfold size. rewrite length_replicate.
  assert (Ey : FmmTree.y t3 = FmmTree.y this) by (unfold tree_shape in E; congruence).
  rewrite Ey. unfold size. lia.
Qed.

Lemma shape_get_box (this this' : FmmTree.t) (l k : Z) (b : Box.t) :
  tree_shape this' = tree_shape this ->
  FmmTree.get_box this l k = Ret b ->
  exists b', FmmTree.get_box this' l k = Ret b' /\ cell_shape b' = cell_shape b.
Proof.
  intros Hs Hb. apply get_box_lookup in Hb as (Hl & Hk & row & Hrow & Hb).
  assert (E : map (map cell_shape) (FmmTree.tree_structure this') =
              map (map cell_shape) (FmmTree.tree_structure this))
    by (unfold tree_shape in Hs; congruence).
  assert (E1 : map (map cell_shape) (FmmTree.tree_structure this') !! Z.to_nat l =
               Some (map cell_shape row))
    by (rewrite E, lookup_map, Hrow; reflexivity).
  rewrite lookup_map in E1.
  destruct (FmmTree.tree_structure this' !! Z.to_nat l) as [row'|] eqn:Hrow';
    [|discriminate]. cbn [option_map] in E1. injection E1 as E1.
  assert (E2 : map cell_shape row' !! Z.to_nat k = Some (cell_shape b))
    by (rewrite E1, lookup_map, Hb; reflexivity).
  rewrite lookup_map in E2.
  destruct (row' !! Z.to_nat k) as [b'|] eqn:Hb'; [|discriminate].
  cbn [option_map] in E2.
  assert (E3 : cell_shape b' = cell_shape b) by congruence.
  exists b'. split; [|exact E3].
  apply get_box_lookup. split; [exact Hl|]. split; [exact Hk|].
  exists row'. split; assumption.
Qed.

Lemma shape_size (this this' : FmmTree.t) :
  tree_shape this' = tree_shape this ->
  size (FmmTree.tree_structure this') = size (FmmTree.tree_structure this).
Proof.
  intros Hs.
  assert (E : map (map cell_shape) (FmmTree.tree_structure this') =
              map (map cell_shape) (FmmTree.tree_structure this))
    by (unfold tree_shape in Hs; congruence).
  apply (f_equal (@length _)) in E. rewrite !length_map in E. unfold size. lia.
Qed.

(** X20.  [solve] changes nothing of the tree but the values of the
    coefficients and the operation counter: when it returns, the points, the
    kernel and the number of levels are as before, every cell is where it
    was with the same level, index, order and points and with arrays of the
    same lengths, and the result has one entry for every target. *)
Theorem solve_keeps_the_tree (this this' : FmmTree.t) (u v : list double) :
  FmmTree.solve this u = Ret (v, this') ->
  size v = size (FmmTree.y this) /\
  FmmTree.numOfLevels this' = FmmTree.numOfLevels this /\
  FmmTree.x this' = FmmTree.x this /\ FmmTree.y this' = FmmTree.y this /\
  FmmTree.potential this' = FmmTree.potential this /\
  size (FmmTree.tree_structure this') = size (FmmTree.tree_structure this) /\
  forall l k b, FmmTree.get_box this l k = Ret b ->
    exists b', FmmTree.get_box this' l k = Ret b' /\
      Box.level b' = Box.level b /\ Box.index b' = Box.index b /\ Box.p b' = Box.p b /\
      Box.x b' = Box.x b /\ Box.y b' = Box.y b /\
      size (Box.c b') = size (Box.c b) /\ size (Box.dtilde b') = size (Box.dtilde b) /\
      size (Box.d b') = size (Box.d b).
Proof.
  intros H. apply solve_shape in H as [Hs Hv].
  split; [exact Hv|].
  assert (E := Hs). unfold tree_shape in E. injection E as E1 E2 E3 E4 E5 E6.
  repeat (split; [assumption|]).
  split; [apply shape_size; exact Hs|].
  intros l k b Hb. destruct (shape_get_box this this' l k b Hs Hb) as (b' & Hb' & E).
  exists b'. split; [exact Hb'|]. unfold cell_shape in E.
  injection E as F1 F2 F3 F4 F5 F6 F7 F8 F9. repeat split; assumption.
Qed.

Lemma never_Ret_no_result {A} (r : result A) : (forall a, r <> Ret a) -> no_result r.
Proof.
  intros H. destruct r as [a| |]; [exfalso; exact (H a eq_refl) | left | right]; reflexivity.
Qed.

Lemma solve_two_levels (this : FmmTree.t) (u : list double) :
  size (FmmTree.tree_structure this) <= 2 -> forall r, FmmTree.solve this u <> Ret r.
Proof.
  intros Hsz r H. unfold FmmTree.solve in H.
  apply rbind_Ret in H as (t1 & H1 & H). apply upwardPass_shape in H1.
  apply rbind_Ret in H as (t2 & H2 & H). apply downwardPass1_shape in H2.
  apply rbind_Ret in H as (t3 & H3 & _).
  unfold FmmTree.downwardPass2 in H3.
  rewrite vget_out_of_range in H3; [discriminate|].
  apply shape_size in H1, H2. lia.
Qed.

(** X21.  The solver needs three levels: on a tree with fewer than three
    levels [downwardPass2] reads level 2, which is not there, so [solve] ends
    without a result; and building a tree of a depth of at most 2 and solving
    it ends without a result, whatever the points, the order and the charges
    are. *)
Theorem solve_needs_three_levels (this : FmmTree.t) (u : list double)
    (level p : Z) (sources targets : list Point.t) :
  size (FmmTree.tree_structure this) <= 2 -> level <= 2 ->
  no_result (FmmTree.solve this u) /\
  no_result (build_and_solve level p sources targets u).
Proof.
  intros Hsz Hl. split; apply never_Ret_no_result.
  - apply solve_two_levels. exact Hsz.
  - intros v H. unfold build_and_solve in H.
    apply rbind_Ret in H as (t & Hnew & H).
    apply rbind_Ret in H as (r & Hsolve & _).
    apply (solve_two_levels t u) in Hsolve; [exact Hsolve|].
    unfold FmmTree.new, vnew, assert in Hnew.
    destruct (Z.ltb_spec level 0); [discriminate|]. cbn [rbind] in Hnew.
    destruct (Z.gtb_spec level 0); [|discriminate]. cbn [rbind] in Hnew.
    destruct (Z.leb_spec level 8); [|lia]. cbn [rbind] in Hnew. cbv zeta in Hnew.
    apply rbind_Ret in Hnew as ([x y] & _ & Hnew).
    rewrite initStruct_closed in Hnew by lia. injection Hnew as <-.
    cbn [FmmTree.tree_structure]. unfold built_tree, grid_tree.
    rewrite size_map_zrange by lia. exact Hl.
Qed.

End Solve.

Lemma solve_keeps_the_tree_witness :
  size (fst demo_evaluated) = size (FmmTree.y (from_result empty_tree
         (FmmTree.new 3 demo_points demo_points (Potential.mk 13)))).
Proof.
  pose proof (solve_keeps_the_tree (L := ref_lib)
                (from_result empty_tree
                   (FmmTree.new 3 demo_points demo_points (Potential.mk 13)))
                (snd demo_evaluated) demo_charges (fst demo_evaluated)) as H.
  apply H. vm_compute. reflexivity.
Defined.

Lemma solve_needs_three_levels_witness :
  no_result (FmmTree.solve (L := ref_lib) empty_tree demo_charges) /\
  no_result (build_and_solve (L := ref_lib) 2 13 demo_points demo_points demo_charges).
Proof.
  apply (solve_needs_three_levels (L := ref_lib) empty_tree demo_charges 2 13
           demo_points demo_points).
  - vm_compute. discriminate.
  - lia.
Defined.

(** ** Loops that cannot fail *)

Lemma iterM_up_total {St} (P : St -> Prop) (body : Z -> St -> result St) (n : nat) :
  forall lo s,
  (forall i s, lo <= i < lo + Z.of_nat n -> P s -> exists s', body i s = Ret s' /\ P s') ->
  P s -> exists s', iterM_up n lo body s = Ret s' /\ P s'.
Proof.
  induction n as [|n IH]; intros lo s Hbody Hs; cbn [iterM_up].
  - exists s. split; [reflexivity | exact Hs].
  - destruct (Hbody lo s ltac:(lia) Hs) as (s1 & E1 & Hs1). rewrite E1. cbn [rbind].
    apply IH; [|exact Hs1]. intros i s0 Hi. apply Hbody. lia.
Qed.

Lemma forM_total {St} (P : St -> Prop) (body : Z -> St -> result St) (lo hi : Z) (s : St) :
  (forall i s, lo <= i < hi -> P s -> exists s', body i s = Ret s' /\ P s') ->
  P s -> exists s', forM lo hi body s = Ret s' /\ P s'.
Proof.
  intros Hbody Hs. unfold forM. apply iterM_up_total; [|exact Hs].
  intros i s0 Hi. apply Hbody. lia.
Qed.

Lemma iterM_down_total {St} (P : St -> Prop) (body : Z -> St -> result St) (n : nat) :
  forall hi s,
  (forall i s, hi - Z.of_nat n < i <= hi -> P s -> exists s', body i s = Ret s' /\ P s') ->
  P s -> exists s', iterM_down n hi body s = Ret s' /\ P s'.
Proof.
  induction n as [|n IH]; intros hi s Hbody Hs; cbn [iterM_down].
  - exists s. split; [reflexivity | exact Hs].
  - destruct (Hbody hi s ltac:(lia) Hs) as (s1 & E1 & Hs1). rewrite E1. cbn [rbind].
    apply IH; [|exact Hs1]. intros i s0 Hi. apply Hbody. lia.
Qed.

Lemma forM_down_total {St} (P : St -> Prop) (body : Z -> St -> result St) (hi lo : Z)
    (s : St) :
  (forall i s, lo <= i <= hi -> P s -> exists s', body i s = Ret s' /\ P s') ->
  P s -> exists s', forM_down hi lo body s = Ret s' /\ P s'.
Proof.
  intros Hbody Hs. unfold forM_down. apply iterM_down_total; [|exact Hs].
  intros i s0 Hi. apply Hbody. lia.
Qed.

(** ** Square matrices *)

Lemma mnew_square (n : Z) : 0 <= n -> exists m, Potential.mnew n = Ret m /\ square n m.
Proof.
  intros Hn. unfold Potential.mnew, vnew. destruct (Z.ltb_spec n 0); [lia|].
  cbn [rbind]. eexists. split; [reflexivity|]. split.
  - unfold size. rewrite length_replicate. lia.
  - apply Forall_replicate. unfold size. rewrite length_replicate. lia.
Qed.

Lemma square_row (n : Z) (m : Potential.matrix) (i : Z) :
  square n m -> 0 <= i < n -> exists row, vget m i = Ret row /\ size row = n.
Proof.
  intros [Hs Hr] Hi. destruct (vget_in_range m i ltac:(lia)) as [row Hrow].
  exists row. split; [exact Hrow|]. apply vget_Ret in Hrow as [_ Hrow].
  rewrite Forall_forall in Hr. apply Hr. apply list_elem_of_lookup. eauto.
Qed.

Lemma mget_square (n : Z) (m : Potential.matrix) (i j : Z) :
  square n m -> 0 <= i < n -> 0 <= j < n -> exists v, Potential.mget m i j = Ret v.
Proof.
  intros Hm Hi Hj. destruct (square_row n m i Hm Hi) as (row & Hrow & Hsz).
  unfold Potential.mget. rewrite Hrow. cbn [rbind]. apply vget_in_range. lia.
Qed.

Lemma mset_square (n : Z) (m : Potential.matrix) (i j : Z) (v : complex) :
  square n m -> 0 <= i < n -> 0 <= j < n ->
  exists m', Potential.mset m i j v = Ret m' /\ square n m'.
Proof.
  intros Hm Hi Hj. destruct (square_row n m i Hm Hi) as (row & Hrow & Hsz).
  destruct Hm as [Hs Hr].
  unfold Potential.mset. rewrite Hrow. cbn [rbind].
  rewrite vset_in_range by lia. cbn [rbind].
  rewrite vset_in_range by lia.
  eexists. split; [reflexivity|]. split.
  - unfold size in *. rewrite length_insert. exact Hs.
  - apply Forall_insert; [exact Hr|]. unfold size in *. rewrite length_insert. exact Hsz.
Qed.

Lemma mset_outside (n : Z) (m : Potential.matrix) (i j : Z) (v : complex) :
  square n m -> ~ (0 <= i < n) -> Potential.mset m i j v = Undefined.
Proof.
  intros [Hs _] Hi. unfold Potential.mset.
  rewrite vget_out_of_range by lia. reflexivity.
Qed.

(** A loop whose round [m] fails whenever the rounds before it keep [P]. *)
Lemma iterM_up_fails {St} (P : St -> Prop) (body : Z -> St -> result St) (n1 : nat) :
  forall (n2 : nat) lo s,
  P s ->
  (forall i s, lo <= i < lo + Z.of_nat n1 -> P s -> exists s', body i s = Ret s' /\ P s') ->
  (forall s, P s -> body (lo + Z.of_nat n1) s = Undefined) ->
  iterM_up (n1 + S n2) lo body s = Undefined.
Proof.
  induction n1 as [|n1 IH]; intros n2 lo s Hs Hok Hfail; cbn [Nat.add iterM_up].
  - replace (lo + Z.of_nat 0) with lo in Hfail by lia.
    rewrite (Hfail s Hs). reflexivity.
  - destruct (Hok lo s ltac:(lia) Hs) as (s1 & E1 & Hs1). rewrite E1. cbn [rbind].
    apply IH; [exact Hs1 | |].
    + intros i s0 Hi. apply Hok. lia.
    + intros s0 Hs0. replace (lo + 1 + Z.of_nat n1) with (lo + Z.of_nat (S n1)) by lia.
      apply Hfail. exact Hs0.
Qed.

Lemma forM_fails {St} (P : St -> Prop) (body : Z -> St -> result St) (lo m hi : Z)
    (s : St) :
  lo <= m < hi -> P s ->
  (forall i s, lo <= i < m -> P s -> exists s', body i s = Ret s' /\ P s') ->
  (forall s, P s -> body m s = Undefined) ->
  forM lo hi body s = Undefined.
Proof.
  intros Hm Hs Hok Hfail. unfold forM.
  replace (Z.to_nat (hi - lo)) with (Z.to_nat (m - lo) + S (Z.to_nat (hi - m - 1)))%nat
    by lia.
  apply (iterM_up_fails P); [exact Hs | |].
  - intros i s0 Hi. apply Hok. lia.
  - intros s0 Hs0. replace (lo + Z.of_nat (Z.to_nat (m - lo))) with m by lia.
    apply Hfail. exact Hs0.
Qed.
Section Translations.
Context {L : ComplexLib}.

Lemma apply_matrix_total (swap : bool) (p : Z) (m : Potential.matrix)
    (coeff : list complex) :
  0 <= p -> square p m -> p <= size coeff ->
  exists B, Potential.apply_matrix swap p m coeff = Ret B /\ size B = p.
Proof.
  intros Hp Hm Hc. unfold Potential.apply_matrix, vnew.
  destruct (Z.ltb_spec p 0); [lia|]. cbn [rbind].
  apply forM_total; [|unfold size; rewrite length_replicate; lia].
  intros i ans Hi Hans. rewrite vset_in_range by lia. cbn [rbind].
  apply forM_total; [|unfold size in *; rewrite length_insert; exact Hans].
  intros j w Hj Hw.
  destruct (vget_in_range w i ltac:(lia)) as [a ->]. cbn [rbind].
  destruct (mget_square p m i j Hm Hi Hj) as [mij ->]. cbn [rbind].
  destruct (vget_in_range coeff j ltac:(lia)) as [cj ->]. cbn [rbind].
  rewrite vset_in_range by lia. eexists. split; [reflexivity|].
  unfold size in *. rewrite length_insert. exact Hw.
Qed.

Lemma apply_matrix_short (swap : bool) (p : Z) (m : Potential.matrix)
    (coeff : list complex) :
  square p m -> size coeff < p ->
  Potential.apply_matrix swap p m coeff = Undefined.
Proof.
  intros Hm Hc. pose proof (size_nonneg coeff) as H0.
  unfold Potential.apply_matrix, vnew.
  destruct (Z.ltb_spec p 0); [lia|]. cbn [rbind].
  apply (forM_fails (fun ans => size ans = p) _ 0 0 p);
    [lia | unfold size; rewrite length_replicate; lia | intros; lia |].
  intros ans Hans. rewrite vset_in_range by lia. cbn [rbind].
  apply (forM_fails (fun ans => size ans = p) _ 0 (size coeff) p);
    [lia | unfold size in *; rewrite length_insert; exact Hans | |].
  - intros j w Hj Hw.
    destruct (vget_in_range w 0 ltac:(lia)) as [a ->]. cbn [rbind].
    destruct (mget_square p m 0 j Hm ltac:(lia) ltac:(lia)) as [mij ->]. cbn [rbind].
    destruct (vget_in_range coeff j ltac:(lia)) as [cj ->]. cbn [rbind].
    rewrite vset_in_range by lia. eexists. split; [reflexivity|].
    unfold size in *. rewrite length_insert. exact Hw.
  - intros w Hw.
    destruct (vget_in_range w 0 ltac:(lia)) as [a ->]. cbn [rbind].
    destruct (mget_square p m 0 (size coeff) Hm ltac:(lia) ltac:(lia)) as [mij ->].
    cbn [rbind]. rewrite vget_out_of_range by lia. reflexivity.
Qed.

(** The matrix of [getSR], for an order of at least 2. *)
Lemma getSR_matrix (pot : Potential.t) (from to : complex) (sCoeff : list complex) :
  2 <= Potential.p pot ->
  exists m, square (Potential.p pot) m /\
    Potential.getSR pot from to sCoeff = Potential.apply_matrix false (Potential.p pot) m sCoeff.
Proof.
  intros Hp. unfold Potential.getSR. cbv zeta.
  set (p := Potential.p pot) in *.
  destruct (mnew_square p ltac:(lia)) as (m0 & -> & H0). cbn [rbind].
  destruct (mset_square p m0 0 0 (clog (csub to from)) H0 ltac:(lia) ltac:(lia))
    as (m1 & -> & H1). cbn [rbind].
  destruct (mset_square p m1 1 0 (cdiv (Potential.of_double 1%float) (csub to from)) H1
              ltac:(lia) ltac:(lia)) as (m2 & -> & H2). cbn [rbind].
  match goal with |- context [rbind (forM 2 p ?body m2)] =>
    destruct (forM_total (square p) body 2 p m2) as (m3 & -> & H3); [|exact H2|] end.
  { intros i s Hi Hs.
    destruct (mget_square p s (i - 1) 0 Hs ltac:(lia) ltac:(lia)) as [v ->]. cbn [rbind].
    apply mset_square; [exact Hs | lia | lia]. }
  cbn [rbind].
  match goal with |- context [rbind (forM 1 p ?body m3)] =>
    destruct (forM_total (square p) body 1 p m3) as (m4 & -> & H4); [|exact H3|] end.
  { intros j s Hj Hs. apply mset_square; [exact Hs | lia | lia]. }
  cbn [rbind].
  match goal with |- context [rbind (forM 1 p ?body m4)] =>
    destruct (forM_total (square p) body 1 p m4) as (m5 & -> & H5); [|exact H4|] end.
  { intros i s Hi Hs. apply forM_total; [|exact Hs].
    intros j s0 Hj Hs0.
    destruct (mget_square p s0 (i - 1) j Hs0 ltac:(lia) ltac:(lia)) as [v ->]. cbn [rbind].
    apply mset_square; [exact Hs0 | lia | lia]. }
  cbn [rbind]. exists m5. split; [exact H5 | reflexivity].
Qed.

Lemma getSS_matrix (pot : Potential.t) (from to : complex) (sCoeff : list complex) :
  2 <= Potential.p pot ->
  exists m, square (Potential.p pot) m /\
    Potential.getSS pot from to sCoeff = Potential.apply_matrix true (Potential.p pot) m sCoeff.
Proof.
  intros Hp. unfold Potential.getSS. cbv zeta.
  set (p := Potential.p pot) in *.
  destruct (mnew_square p ltac:(lia)) as (m0 & -> & H0). cbn [rbind].
  match goal with |- context [rbind (forM 0 p ?body m0)] =>
    destruct (forM_total (square p) body 0 p m0) as (m1 & -> & H1); [|exact H0|] end.
  { intros i s Hi Hs. apply mset_square; [exact Hs | lia | lia]. }
  cbn [rbind].
  destruct (mset_square p m1 1 0 (csub to from) H1 ltac:(lia) ltac:(lia))
    as (m2 & -> & H2). cbn [rbind].
  match goal with |- context [rbind (forM 2 p ?body m2)] =>
    destruct (forM_total (square p) body 2 p m2) as (m3 & -> & H3); [|exact H2|] end.
  { intros i s Hi Hs.
    destruct (mget_square p s (i - 1) 0 Hs ltac:(lia) ltac:(lia)) as [v ->]. cbn [rbind].
    apply mset_square; [exact Hs | lia | lia]. }
  cbn [rbind].
  match goal with |- context [rbind (forM 1 p ?body m3)] =>
    destruct (forM_total (square p) body 1 p m3) as (m4 & -> & H4); [|exact H3|] end.
  { intros i s Hi Hs. apply forM_down_total; [|exact Hs].
    intros j s0 Hj Hs0.
    destruct (mget_square p s0 i (j + 1) Hs0 ltac:(lia) ltac:(lia)) as [v ->]. cbn [rbind].
    apply mset_square; [exact Hs0 | lia | lia]. }
  cbn [rbind].
  match goal with |- context [rbind (forM 0 p ?body m4)] =>
    destruct (forM_total (square p) body 0 p m4) as (m5 & -> & H5); [|exact H4|] end.
  { intros i s Hi Hs. apply forM_total; [|exact Hs].
    intros j s0 Hj Hs0. apply mset_square; [exact Hs0 | lia | lia]. }
  cbn [rbind]. exists m5. split; [exact H5 | reflexivity].
Qed.

Lemma getRR_matrix (pot : Potential.t) (from to : complex) (rCoeff : list complex) :
  0 <= Potential.p pot ->
  exists m, square (Potential.p pot) m /\
    Potential.getRR pot from to rCoeff = Potential.apply_matrix false (Potential.p pot) m rCoeff.
Proof.
  intros Hp. unfold Potential.getRR. cbv zeta.
  set (p := Potential.p pot) in *.
  destruct (mnew_square p ltac:(lia)) as (m0 & -> & H0). cbn [rbind].
  match goal with |- context [rbind (forM 0 p ?body m0)] =>
    destruct (forM_total (square p) body 0 p m0) as (m1 & -> & H1); [|exact H0|] end.
  { intros i s Hi Hs. apply mset_square; [exact Hs | lia | lia]. }
  cbn [rbind].
  match goal with |- context [rbind (forM 1 p ?body m1)] =>
    destruct (forM_total (square p) body 1 p m1) as (m2 & -> & H2); [|exact H1|] end.
  { intros j s Hj Hs.
    destruct (mget_square p s 0 (j - 1) Hs ltac:(lia) ltac:(lia)) as [v ->]. cbn [rbind].
    apply mset_square; [exact Hs | lia | lia]. }
  cbn [rbind].
  match goal with |- context [rbind (forM 1 p ?body m2)] =>
    destruct (forM_total (square p) body 1 p m2) as (m3 & -> & H3); [|exact H2|] end.
  { intros i s Hi Hs. apply forM_total; [|exact Hs].
    intros j s0 Hj Hs0.
    destruct (mget_square p s0 (i - 1) j Hs0 ltac:(lia) ltac:(lia)) as [v ->]. cbn [rbind].
    apply mset_square; [exact Hs0 | lia | lia]. }
  cbn [rbind].
  match goal with |- context [rbind (forM 1 p ?body m3)] =>
    destruct (forM_total (square p) body 1 p m3) as (m4 & -> & H4); [|exact H3|] end.
  { intros i s Hi Hs. apply forM_total; [|exact Hs].
    intros j s0 Hj Hs0. apply mset_square; [exact Hs0 | lia | lia]. }
  cbn [rbind]. exists m4. split; [exact H4 | reflexivity].
Qed.

(** X22.  For an order p of at least 2 and a vector of at least p
    coefficients, each of the three translations [getSR], [getSS] and [getRR]
    returns exactly p coefficients, whatever the two centres are (equal
    centres included). *)
Theorem translations_return_p_coefficients (pot : Potential.t) (from to : complex)
    (coeff : list complex) :
  2 <= Potential.p pot -> Potential.p pot <= size coeff ->
  (exists B, Potential.getSR pot from to coeff = Ret B /\ size B = Potential.p pot) /\
  (exists B, Potential.getSS pot from to coeff = Ret B /\ size B = Potential.p pot) /\
  (exists B, Potential.getRR pot from to coeff = Ret B /\ size B = Potential.p pot).
Proof.
  intros Hp Hc.
  destruct (getSR_matrix pot from to coeff Hp) as (m1 & H1 & ->).
  destruct (getSS_matrix pot from to coeff Hp) as (m2 & H2 & ->).
  destruct (getRR_matrix pot from to coeff ltac:(lia)) as (m3 & H3 & ->).
  repeat split; apply apply_matrix_total; (lia || assumption).
Qed.

(** X23.  What the translations need.  With fewer than p coefficients each
    of them reads the coefficient vector past its end.  [getSR] and [getSS]
    write row 1 of their matrix unconditionally, so for the orders 0 and 1
    they write outside it, while [getRR] returns for these orders; for a
    negative order the construction of the matrix throws in all three. *)
Theorem translations_preconditions (pot : Potential.t) (from to : complex)
    (coeff : list complex) :
  (2 <= Potential.p pot -> size coeff < Potential.p pot ->
   Potential.getSR pot from to coeff = Undefined /\
   Potential.getSS pot from to coeff = Undefined /\
   Potential.getRR pot from to coeff = Undefined) /\
  (0 <= Potential.p pot <= 1 ->
   Potential.getSR pot from to coeff = Undefined /\
   Potential.getSS pot from to coeff = Undefined /\
   (Potential.p pot <= size coeff ->
    exists B, Potential.getRR pot from to coeff = Ret B /\ size B = Potential.p pot)) /\
  (Potential.p pot < 0 ->
   Potential.getSR pot from to coeff = Abort /\
   Potential.getSS pot from to coeff = Abort /\
   Potential.getRR pot from to coeff = Abort).
Proof.
  split; [|split].
  - intros Hp Hc.
    destruct (getSR_matrix pot from to coeff Hp) as (m1 & H1 & ->).
    destruct (getSS_matrix pot from to coeff Hp) as (m2 & H2 & ->).
    destruct (getRR_matrix pot from to coeff ltac:(lia)) as (m3 & H3 & ->).
    repeat split; apply apply_matrix_short; assumption.
  - intros Hp. split; [|split].
    + unfold Potential.getSR. cbv zeta.
      destruct (mnew_square (Potential.p pot) ltac:(lia)) as (m0 & -> & H0). cbn [rbind].
      destruct (Z.eq_dec (Potential.p pot) 0) as [E|E].
      * rewrite (mset_outside _ m0 0 0 _ H0) by lia. reflexivity.
      * destruct (mset_square _ m0 0 0 (clog (csub to from)) H0 ltac:(lia) ltac:(lia))
          as (m1 & -> & H1). cbn [rbind].
        rewrite (mset_outside _ m1 1 0 _ H1) by lia. reflexivity.
    + unfold Potential.getSS. cbv zeta.
      destruct (mnew_square (Potential.p pot) ltac:(lia)) as (m0 & -> & H0). cbn [rbind].
      match goal with |- context [rbind (forM 0 ?p ?body m0)] =>
        destruct (forM_total (square p) body 0 p m0) as (m1 & -> & H1); [|exact H0|] end.
      { intros i s Hi Hs. apply mset_square; [exact Hs | lia | lia]. }
      cbn [rbind]. rewrite (mset_outside _ m1 1 0 _ H1) by lia. reflexivity.
    + intros Hc. destruct (getRR_matrix pot from to coeff ltac:(lia)) as (m3 & H3 & ->).
      apply apply_matrix_total; (lia || assumption).
  - intros Hp. unfold Potential.getSR, Potential.getSS, Potential.getRR, Potential.mnew.
    cbv zeta. rewrite vnew_negative by exact Hp. repeat split; reflexivity.
Qed.

End Translations.

Lemma translations_return_p_coefficients_witness :
  (exists B, Potential.getSR (L := ref_lib) (Potential.mk 2) czero czero [czero; czero] = Ret B /\
             size B = Potential.p (Potential.mk 2)) /\
  (exists B, Potential.getSS (L := ref_lib) (Potential.mk 2) czero czero [czero; czero] = Ret B /\
             size B = Potential.p (Potential.mk 2)) /\
  (exists B, Potential.getRR (L := ref_lib) (Potential.mk 2) czero czero [czero; czero] = Ret B /\
             size B = Potential.p (Potential.mk 2)).
Proof.
  apply (translations_return_p_coefficients (L := ref_lib) (Potential.mk 2) czero czero
           [czero; czero]); [simpl; lia | unfold size; simpl; lia].
Defined.

Lemma translations_preconditions_witness :
  (Potential.getSR (L := ref_lib) (Potential.mk 2) czero czero [czero] = Undefined /\
   Potential.getSS (L := ref_lib) (Potential.mk 2) czero czero [czero] = Undefined /\
   Potential.getRR (L := ref_lib) (Potential.mk 2) czero czero [czero] = Undefined) /\
  (Potential.getSR (L := ref_lib) (Potential.mk 1) czero czero [czero] = Undefined /\
   Potential.getSS (L := ref_lib) (Potential.mk 1) czero czero [czero] = Undefined /\
   (Potential.p (Potential.mk 1) <= size [czero] ->
    exists B, Potential.getRR (L := ref_lib) (Potential.mk 1) czero czero [czero] = Ret B /\
              size B = Potential.p (Potential.mk 1))) /\
  (Potential.getSR (L := ref_lib) (Potential.mk (-1)) czero czero [czero] = Abort /\
   Potential.getSS (L := ref_lib) (Potential.mk (-1)) czero czero [czero] = Abort /\
   Potential.getRR (L := ref_lib) (Potential.mk (-1)) czero czero [czero] = Abort).
Proof.
  split; [|split].
  - apply (proj1 (translations_preconditions (L := ref_lib) (Potential.mk 2) czero czero
                    [czero])); [simpl; lia | unfold size; simpl; lia].
  - apply (proj1 (proj2 (translations_preconditions (L := ref_lib) (Potential.mk 1) czero
                           czero [czero]))); simpl; lia.
  - apply (proj2 (proj2 (translations_preconditions (L := ref_lib) (Potential.mk (-1)) czero
                           czero [czero]))); simpl; lia.
Defined.
Section Vectors.
Context {L : ComplexLib}.

Lemma getSCoeff_total (pot : Potential.t) (xi xstar : complex) :
  1 <= Potential.p pot ->
  exists B, Potential.getSCoeff pot xi xstar = Ret B /\ size B = Potential.p pot.
Proof.
  intros Hp. unfold Potential.getSCoeff. cbv zeta.
  rewrite vnew_zeros by lia. cbn [rbind].
  destruct (vget_in_range (zeros (Potential.p pot)) 0) as [a0 ->];
    [rewrite size_zeros; lia|]. cbn [rbind].
  rewrite vset_in_range by (rewrite size_zeros; lia). cbn [rbind].
  set (v1 := <[Z.to_nat 0 := Cplx 1%float (imag a0)]> (zeros (Potential.p pot))).
  assert (H1 : size v1 = Potential.p pot)
    by (unfold v1, size; rewrite length_insert; apply size_zeros; lia).
  destruct (vget_in_range v1 0 ltac:(lia)) as [a1 ->]. cbn [rbind].
  rewrite vset_in_range by lia. cbn [rbind].
  apply forM_total; [|unfold size in *; rewrite length_insert; exact H1].
  intros i s Hi Hs. rewrite vset_in_range by lia. eexists. split; [reflexivity|].
  unfold size in *. rewrite length_insert. exact Hs.
Qed.

Lemma getRVector_total (pot : Potential.t) (y xstar : complex) :
  0 <= Potential.p pot ->
  exists r, Potential.getRVector pot y xstar = Ret r /\ size r = Potential.p pot /\
    forall m, 0 <= m < Potential.p pot -> vget r m = Ret (cpow (csub y xstar) m).
Proof.
  intros Hp. unfold Potential.getRVector. cbv zeta.
  rewrite vnew_zeros by exact Hp. cbn [rbind]. unfold forM.
  destruct (iterM_up_fill (fun i => cpow (csub y xstar) i)
              (Z.to_nat (Potential.p pot - 0)) 0 (zeros (Potential.p pot)))
    as (r & E & Hsz & Hlook); [lia | rewrite size_zeros; lia |].
  exists r. split; [exact E|]. split; [rewrite Hsz; apply size_zeros; exact Hp|].
  intros m Hm. apply vget_lookup; [lia|]. rewrite (Hlook m) by lia.
  destruct (Z.leb_spec 0 m); [|lia].
  destruct (Z.ltb_spec m (0 + Z.of_nat (Z.to_nat (Potential.p pot - 0)))); [|lia].
  reflexivity.
Qed.

(** X24.  [getRVector] returns the powers of [y - xstar]: for an order
    p >= 0 it returns p entries, entry m being [(y - xstar)^m] (none for
    p = 0); for a negative order the construction of the vector throws. *)
Theorem getRVector_spec (pot : Potential.t) (y xstar : complex) :
  (0 <= Potential.p pot ->
   exists r, Potential.getRVector pot y xstar = Ret r /\ size r = Potential.p pot /\
     forall m, 0 <= m < Potential.p pot -> vget r m = Ret (cpow (csub y xstar) m)) /\
  (Potential.p pot < 0 -> Potential.getRVector pot y xstar = Abort).
Proof.
  split; [apply getRVector_total|].
  intros Hp. unfold Potential.getRVector. cbv zeta.
  rewrite vnew_negative by exact Hp. reflexivity.
Qed.

(** X25.  [getSCoeff] writes entry 0 unconditionally: for the order 0 it
    writes outside an empty vector, and for a negative order the
    construction of the vector throws; from the order 1 on it returns. *)
Theorem getSCoeff_needs_positive_order (pot : Potential.t) (xi xstar : complex) :
  (Potential.p pot = 0 -> Potential.getSCoeff pot xi xstar = Undefined) /\
  (Potential.p pot < 0 -> Potential.getSCoeff pot xi xstar = Abort) /\
  (1 <= Potential.p pot ->
   exists B, Potential.getSCoeff pot xi xstar = Ret B /\ size B = Potential.p pot).
Proof.
  split; [|split].
  - intros E. unfold Potential.getSCoeff. cbv zeta. rewrite E. reflexivity.
  - intros Hp. unfold Potential.getSCoeff. cbv zeta.
    rewrite vnew_negative by exact Hp. reflexivity.
  - apply getSCoeff_total.
Qed.

End Vectors.

Lemma getRVector_spec_witness :
  (exists r, Potential.getRVector (L := ref_lib) (Potential.mk 3) czero czero = Ret r /\
     size r = Potential.p (Potential.mk 3) /\
     forall m, 0 <= m < Potential.p (Potential.mk 3) ->
               vget r m = Ret (@cpow ref_lib (csub czero czero) m)) /\
  Potential.getRVector (L := ref_lib) (Potential.mk (-1)) czero czero = Abort.
Proof.
  split.
  - apply (proj1 (getRVector_spec (L := ref_lib) (Potential.mk 3) czero czero)). simpl. lia.
  - apply (proj2 (getRVector_spec (L := ref_lib) (Potential.mk (-1)) czero czero)). simpl. lia.
Defined.

Lemma getSCoeff_needs_positive_order_witness :
  Potential.getSCoeff (L := ref_lib) (Potential.mk 0) czero czero = Undefined /\
  Potential.getSCoeff (L := ref_lib) (Potential.mk (-1)) czero czero = Abort /\
  exists B, Potential.getSCoeff (L := ref_lib) (Potential.mk 3) czero czero = Ret B /\
            size B = Potential.p (Potential.mk 3).
Proof.
  split; [|split].
  - apply (proj1 (getSCoeff_needs_positive_order (L := ref_lib) (Potential.mk 0) czero czero)).
    reflexivity.
  - apply (proj1 (proj2 (getSCoeff_needs_positive_order (L := ref_lib) (Potential.mk (-1))
                           czero czero))). simpl. lia.
  - apply (proj2 (proj2 (getSCoeff_needs_positive_order (L := ref_lib) (Potential.mk 3)
                           czero czero))). simpl. lia.
Defined.

Section Direct.
Context {L : ComplexLib}.

Lemma solveDirect_target (this : FmmTree.t) (u : list double) (v : list double)
    (j : Z) (yj : Point.t) (a : double) :
  size (FmmTree.x this) <= size u ->
  0 <= j -> FmmTree.y this !! Z.to_nat j = Some yj -> v !! Z.to_nat j = Some a ->
  forM 0 (size (FmmTree.x this))
    (fun i v =>
       do yj <- vget (FmmTree.y this) j;
       do xi <- vget (FmmTree.x this) i;
       do vj <- vget v j;
       do vj <- FmmTree.direct_source u yj xi i vj;
       vset v j vj)
    v =
  Ret (<[Z.to_nat j :=
          fold_left
            (fun vj xu =>
               if FmmTree.coincident_direct (Point.getCoord yj) (Point.getCoord (fst xu))
               then vj
               else (vj + real (cscale (Potential.direct (Point.getCoord yj)
                                                          (Point.getCoord (fst xu)))
                                       (snd xu)))%float)
            (zip (FmmTree.x this) u) a]> v).
Proof.
  intros Hu Hj Hyj Ha.
  set (step := fun (vj : double) (xu : Point.t * double) =>
         if FmmTree.coincident_direct (Point.getCoord yj) (Point.getCoord (fst xu))
         then vj
         else (vj + real (cscale (Potential.direct (Point.getCoord yj)
                                                    (Point.getCoord (fst xu)))
                                 (snd xu)))%float).
  pose proof (lookup_lt_Some _ _ _ Ha) as Hlen.
  apply (forM_from _
           (fun i => <[Z.to_nat j :=
                        fold_left step (take (Z.to_nat i) (zip (FmmTree.x this) u)) a]> v)).
  - apply size_nonneg.
  - change (Z.to_nat 0) with 0%nat. rewrite take_0. cbn [fold_left].
    symmetry. apply list_insert_id. exact Ha.
  - f_equal. f_equal. rewrite take_ge; [reflexivity|].
    rewrite length_zip_with. unfold size in *. lia.
  - intros i Hi. unfold size in Hi, Hu.
    destruct (lookup_lt_is_Some_2 (FmmTree.x this) (Z.to_nat i) ltac:(lia)) as [xi Hxi].
    destruct (lookup_lt_is_Some_2 u (Z.to_nat i) ltac:(lia)) as [ui Hui].
    rewrite (vget_lookup _ j yj Hj Hyj). cbn [rbind].
    rewrite (vget_lookup _ i xi) by (lia || exact Hxi). cbn [rbind].
    rewrite (vget_lookup _ j (fold_left step (take (Z.to_nat i) (zip (FmmTree.x this) u)) a))
      by (lia || (apply list_lookup_insert_eq; exact Hlen)).
    cbn [rbind].
    assert (Hz : zip (FmmTree.x this) u !! Z.to_nat i = Some (xi, ui)).
    { apply lookup_zip_Some. split; assumption. }
    replace (Z.to_nat (i + 1)) with (S (Z.to_nat i)) by lia.
    rewrite (take_S_r _ _ _ Hz), fold_left_app. cbn [fold_left].
    set (acc := fold_left step (take (Z.to_nat i) (zip (FmmTree.x this) u)) a).
    change (step acc (xi, ui))
      with (if FmmTree.coincident_direct (Point.getCoord yj) (Point.getCoord xi) then acc
            else (acc + real (cscale (Potential.direct (Point.getCoord yj)
                                                        (Point.getCoord xi)) ui))%float).
    unfold FmmTree.direct_source.
    destruct (FmmTree.coincident_direct (Point.getCoord yj) (Point.getCoord xi)).
    + cbn [rbind]. rewrite vset_in_range by (unfold size; rewrite length_insert; lia).
      rewrite list_insert_insert_eq. reflexivity.
    + rewrite (vget_lookup _ i ui) by (lia || exact Hui). cbn [rbind].
      rewrite vset_in_range by (unfold size; rewrite length_insert; lia).
      rewrite list_insert_insert_eq. reflexivity.
Qed.

(** X26.  [solveDirect] in closed form.  With at least one charge for every
    source it returns, for each target in order, the sum over the sources, in
    their order, of the real part of [log(y - x)] times the charge, leaving
    out the sources that coincide with the target; the cells of the tree play
    no part. *)
Theorem solveDirect_sums_over_sources (this : FmmTree.t) (u : list double) :
  size (FmmTree.x this) <= size u ->
  FmmTree.solveDirect this u = Ret (map (direct_sum (FmmTree.x this) u) (FmmTree.y this)).
Proof.
  intros Hu. unfold FmmTree.solveDirect. cbv zeta.
  set (n := length (FmmTree.y this)).
  assert (Hsz : size (replicate (Z.to_nat (size (FmmTree.y this))) 0%float) = Z.of_nat n)
    by (unfold size; rewrite length_replicate; lia).
  rewrite Hsz.
  apply (forM_from _
           (fun j => take (Z.to_nat j) (map (direct_sum (FmmTree.x this) u) (FmmTree.y this))
                     ++ replicate (n - Z.to_nat j) 0%float)).
  - lia.
  - change (Z.to_nat 0) with 0%nat. rewrite take_0, Nat.sub_0_r. unfold size.
    rewrite Nat2Z.id. reflexivity.
  - rewrite Nat2Z.id, Nat.sub_diag, take_ge by (rewrite length_map; lia).
    symmetry. apply app_nil_r.
  - intros j Hj.
    destruct (lookup_lt_is_Some_2 (FmmTree.y this) (Z.to_nat j) ltac:(lia)) as [yj Hyj].
    rewrite (solveDirect_target this u _ j yj 0%float Hu ltac:(lia) Hyj).
    + f_equal. replace (Z.to_nat (j + 1)) with (S (Z.to_nat j)) by lia.
      apply fill_step; [|lia]. rewrite lookup_map, Hyj. reflexivity.
    + rewrite lookup_app_r by (rewrite length_take, length_map; lia).
      rewrite length_take, length_map. apply lookup_replicate_2. lia.
Qed.

End Direct.

Lemma solveDirect_sums_over_sources_witness :
  FmmTree.solveDirect (L := ref_lib) demo_tree demo_charges =
  Ret (map (direct_sum (L := ref_lib) (FmmTree.x demo_tree) demo_charges)
           (FmmTree.y demo_tree)).
Proof.
  apply (solveDirect_sums_over_sources (L := ref_lib) demo_tree demo_charges).
  vm_compute. discriminate.
Defined.

(** ** The solver on a tree of order 13 *)

Lemma built_like_fields (levels p : Z) (xs ys : list Point.t) (t : FmmTree.t) :
  built_like levels p xs ys t ->
  FmmTree.numOfLevels t = levels /\ FmmTree.x t = xs /\ FmmTree.y t = ys /\
  FmmTree.potential t = Potential.mk p.
Proof.
  unfold built_like, tree_shape. cbn [FmmTree.numOfLevels FmmTree.currLevel FmmTree.x
    FmmTree.y FmmTree.potential FmmTree.tree_structure].
  intros H. injection H as H1 H2 H3 H4 H5 H6. auto.
Qed.

Lemma built_like_count (levels p : Z) (xs ys : list Point.t) (t : FmmTree.t) (n : Z) :
  built_like levels p xs ys t -> built_like levels p xs ys (FmmTree.count t n).
Proof. unfold built_like. rewrite count_shape. auto. Qed.

Lemma built_like_cell (levels p : Z) (xs ys : list Point.t) (t : FmmTree.t) (l k : Z) :
  built_like levels p xs ys t -> 0 <= l < levels -> 0 <= k < 4 ^ l ->
  exists b, FmmTree.get_box t l k = Ret b /\
    Box.level b = l /\ Box.index b = k /\
    Box.x b = (if l =? levels - 1 then sorted_into l k xs else []) /\
    Box.y b = (if l =? levels - 1 then sorted_into l k ys else []) /\
    size (Box.c b) = 13 /\ size (Box.dtilde b) = 13 /\ size (Box.d b) = 13.
Proof.
  intros Ht Hl Hk. unfold built_like in Ht.
  destruct (shape_get_box _ t l k (built_cell levels p xs ys l k) Ht) as (b & Hb & E).
  { eapply get_box_built; [reflexivity | exact Hl | exact Hk]. }
  exists b. split; [exact Hb|]. unfold cell_shape, built_cell in E.
  cbn [Box.level Box.index Box.p Box.empty Box.x Box.y Box.c Box.dtilde Box.d] in E.
  injection E as E1 E2 E3 E4 E5 E6 E7 E8 E9.
  change (size (zeros 13)) with 13 in E7, E8, E9. auto 10.
Qed.

Lemma built_like_row (levels p : Z) (xs ys : list Point.t) (t : FmmTree.t) (l : Z) :
  built_like levels p xs ys t -> 0 <= l < levels ->
  exists row, vget (FmmTree.tree_structure t) l = Ret row /\ size row = 4 ^ l.
Proof.
  intros Ht Hl. unfold built_like, tree_shape in Ht.
  cbn [FmmTree.numOfLevels FmmTree.currLevel FmmTree.x FmmTree.y FmmTree.potential
       FmmTree.tree_structure] in Ht.
  injection Ht as _ _ _ _ _ E.
  assert (E1 : map (map cell_shape) (FmmTree.tree_structure t) !! Z.to_nat l =
               Some (map cell_shape (map (built_cell levels p xs ys l) (zrange (4 ^ l))))).
  { rewrite E. unfold built_tree, grid_tree. rewrite lookup_map, map_zrange_lookup.
    destruct (Nat.ltb_spec (Z.to_nat l) (Z.to_nat levels)); [|lia].
    rewrite Z2Nat.id by lia. reflexivity. }
  rewrite lookup_map in E1.
  destruct (FmmTree.tree_structure t !! Z.to_nat l) as [row|] eqn:Hrow; [|discriminate].
  cbn [option_map] in E1. assert (E2 : map cell_shape row =
    map cell_shape (map (built_cell levels p xs ys l) (zrange (4 ^ l)))) by congruence.
  exists row. split; [apply vget_lookup; [lia | exact Hrow]|].
  apply (f_equal (@length _)) in E2. rewrite !length_map, zrange_length in E2.
  unfold size. pose proof (pow4_pos l). lia.
Qed.

(** Writing back a cell whose shape has not changed. *)
Lemma built_like_set (levels p : Z) (xs ys : list Point.t) (t : FmmTree.t) (l k : Z)
    (b b' : Box.t) :
  built_like levels p xs ys t -> FmmTree.get_box t l k = Ret b ->
  cell_shape b' = cell_shape b ->
  exists t', FmmTree.set_box t l k b' = Ret t' /\ built_like levels p xs ys t'.
Proof.
  intros Ht Hb Hs.
  assert (Hb' := Hb). apply get_box_lookup in Hb' as (Hl & Hk & row & Hrow & Hbk).
  unfold FmmTree.set_box.
  rewrite (vget_lookup _ l row Hl Hrow). cbn [rbind].
  rewrite vset_in_range
    by (split; [exact Hk | apply lookup_lt_Some in Hbk; unfold size; lia]).
  cbn [rbind].
  rewrite vset_in_range
    by (split; [exact Hl | apply lookup_lt_Some in Hrow; unfold size; lia]).
  cbn [rbind]. eexists. split; [reflexivity|].
  unfold built_like. rewrite <- Ht.
  apply (set_box_shape t _ l k b b' Hb Hs).
  unfold FmmTree.set_box.
  rewrite (vget_lookup _ l row Hl Hrow). cbn [rbind].
  rewrite vset_in_range
    by (split; [exact Hk | apply lookup_lt_Some in Hbk; unfold size; lia]).
  cbn [rbind].
  rewrite vset_in_range
    by (split; [exact Hl | apply lookup_lt_Some in Hrow; unfold size; lia]).
  reflexivity.
Qed.

Lemma add_into_total (v inc : list complex) :
  size v <= size inc -> exists v', Box.add_into v inc = Ret v' /\ size v' = size v.
Proof.
  intros H. rewrite add_into_closed. destruct (Z.leb_spec (size v) (size inc)); [|lia].
  eexists. split; [reflexivity|]. unfold size in *.
  rewrite length_zip_with. lia.
Qed.

Lemma addToC_total (b : Box.t) (inc : list complex) :
  size (Box.c b) <= size inc ->
  exists b', Box.addToC b inc = Ret b' /\ cell_shape b' = cell_shape b.
Proof.
  intros H. destruct (add_into_total _ _ H) as (v & Hv & Hsz).
  unfold Box.addToC. rewrite Hv. cbn [rbind]. eexists. split; [reflexivity|].
  unfold cell_shape. cbn. rewrite Hsz. reflexivity.
Qed.

Lemma addToD_total (b : Box.t) (inc : list complex) :
  size (Box.d b) <= size inc ->
  exists b', Box.addToD b inc = Ret b' /\ cell_shape b' = cell_shape b /\
             Box.dtilde b' = Box.dtilde b.
Proof.
  intros H. destruct (add_into_total _ _ H) as (v & Hv & Hsz).
  unfold Box.addToD. rewrite Hv. cbn [rbind]. eexists. split; [reflexivity|].
  unfold cell_shape. cbn. rewrite Hsz. split; reflexivity.
Qed.

Lemma addToDtilde_total (b : Box.t) (inc : list complex) :
  size (Box.dtilde b) <= size inc ->
  exists b', Box.addToDtilde b inc = Ret b' /\ cell_shape b' = cell_shape b.
Proof.
  intros H. destruct (add_into_total _ _ H) as (v & Hv & Hsz).
  unfold Box.addToDtilde. rewrite Hv. cbn [rbind]. eexists. split; [reflexivity|].
  unfold cell_shape. cbn. rewrite Hsz. reflexivity.
Qed.

Section Lookup.
Context {L : ComplexLib}.

(** A point that equals itself is found in a vector that holds it. *)
Lemma getIndex_found (z : list Point.t) (p : Point.t) :
  p ∈ z -> Point.equals p p = true -> 0 <= FmmTree.getIndex z p < size z.
Proof.
  intros Hin Heq.
  destruct (getIndex_from_spec p z 0) as [[_ H]|[H _]].
  - rewrite (H p Hin) in Heq. discriminate.
  - unfold FmmTree.getIndex. lia.
Qed.

Lemma sorted_into_elem (level n : Z) (pts : list Point.t) (pt : Point.t) :
  pt ∈ sorted_into level n pts -> pt ∈ pts.
Proof.
  unfold sorted_into. rewrite !list_elem_of_In. intros H.
  apply filter_In in H as [H _]. exact H.
Qed.

Lemma charge_found (xs : list Point.t) (u : list double) (cellx : list Point.t)
    (j : Z) (thisX : Point.t) (level n : Z) :
  self_equal xs -> size xs <= size u ->
  cellx = sorted_into level n xs \/ cellx = [] ->
  vget cellx j = Ret thisX ->
  exists thisU, vget u (FmmTree.getIndex xs thisX) = Ret thisU.
Proof.
  intros Hself Hu Hcell Hget. apply vget_Ret in Hget as [_ Hget].
  assert (Hin : thisX ∈ xs).
  { destruct Hcell as [->| ->]; [|rewrite lookup_nil in Hget; discriminate].
    eapply sorted_into_elem. apply list_elem_of_lookup. eauto. }
  unfold self_equal in Hself. rewrite Forall_forall in Hself.
  pose proof (getIndex_found xs thisX Hin (Hself _ Hin)) as Hidx.
  apply vget_in_range. lia.
Qed.

End Lookup.

Section SolverTotal.
Context {L : ComplexLib}.

Lemma x_count (t : FmmTree.t) (n : Z) : FmmTree.x (FmmTree.count t n) = FmmTree.x t.
Proof. reflexivity. Qed.

Lemma y_count (t : FmmTree.t) (n : Z) : FmmTree.y (FmmTree.count t n) = FmmTree.y t.
Proof. reflexivity. Qed.

Lemma potential_count (t : FmmTree.t) (n : Z) :
  FmmTree.potential (FmmTree.count t n) = FmmTree.potential t.
Proof. reflexivity. Qed.

Lemma scale_total (B : list complex) (thisU : double) :
  exists B', forM 0 (size B)
               (fun k B => do bk <- vget B k; vset B k (cscale bk thisU)) B = Ret B' /\
             size B' = size B.
Proof.
  apply (forM_total (fun B' => size B' = size B)); [|reflexivity].
  intros k s Hk Hs. destruct (vget_in_range s k ltac:(lia)) as [bk ->]. cbn [rbind].
  rewrite vset_in_range by lia. eexists. split; [reflexivity|].
  unfold size in *. rewrite length_insert. exact Hs.
Qed.

Lemma upwardPass_total (levels : Z) (xs ys : list Point.t) (u : list double)
    (t : FmmTree.t) :
  3 <= levels <= 8 -> self_equal xs -> size xs <= size u ->
  built_like levels 13 xs ys t ->
  exists t', FmmTree.upwardPass t u = Ret t' /\ built_like levels 13 xs ys t'.
Proof.
  intros Hl Hself Hu Ht.
  destruct (built_like_fields _ _ _ _ _ Ht) as (Hn & Hx & Hy & Hp).
  unfold FmmTree.upwardPass. cbv zeta. rewrite Hn.
  destruct (built_like_row _ _ _ _ _ (levels - 1) Ht ltac:(lia)) as (leaves & -> & Hleaves).
  cbn [rbind].
  match goal with |- context [rbind (forM 0 ?n ?body t)] =>
    destruct (forM_total (built_like levels 13 xs ys) body 0 n t) as (t1 & -> & Ht1);
      [ | exact Ht | ] end.
  { intros i s Hi Hs.
    destruct (built_like_cell _ _ _ _ _ (levels - 1) i Hs ltac:(lia) ltac:(lia))
      as (thisBox & -> & Hlev & Hidx & Hbx & Hby & Hc & Hdt & Hd).
    cbn [rbind]. apply forM_total; [|exact Hs].
    intros j s0 Hj Hs0. unfold Box.getX in *.
    destruct (vget_in_range (Box.x thisBox) j Hj) as [thisX HthisX].
    rewrite HthisX. cbn [rbind].
    destruct (built_like_cell _ _ _ _ _ (levels - 1) i Hs0 ltac:(lia) ltac:(lia))
      as (thisBox0 & Hget0 & Hlev0 & Hidx0 & Hbx0 & Hby0 & Hc0 & Hdt0 & Hd0).
    rewrite Hget0. cbn [rbind].
    destruct (built_like_fields _ _ _ _ _ Hs0) as (Hn0 & Hx0 & Hy0 & Hp0).
    rewrite Hp0.
    destruct (getSCoeff_total (Potential.mk 13) (Point.getCoord thisX)
                (Point.getCoord (Box.getCenter thisBox0)) ltac:(simpl; lia))
      as (B & -> & HB).
    cbn [rbind]. rewrite ?x_count, ?potential_count, Hx0.
    destruct (charge_found xs u (Box.x thisBox) j thisX (levels - 1) i Hself Hu)
      as [thisU ->]; [ | exact HthisX | ].
    { rewrite Hbx. rewrite Z.eqb_refl. left. reflexivity. }
    cbn [rbind].
    destruct (scale_total B thisU) as (B' & -> & HB'). cbn [rbind].
    destruct (addToC_total thisBox0 B') as (thisBox' & -> & Hshape);
      [cbn [Potential.p] in HB; lia|].
    cbn [rbind].
    match goal with |- context [FmmTree.set_box ?st _ _ _] =>
      destruct (built_like_set levels 13 xs ys st (levels - 1) i thisBox0 thisBox') as
        (s1 & -> & Hs1) end.
    - repeat apply built_like_count. exact Hs0.
    - exact Hget0.
    - exact Hshape.
    - cbn [rbind]. eexists. split; [reflexivity|]. apply built_like_count. exact Hs1. }
  cbn [rbind].
  destruct (built_like_fields _ _ _ _ _ Ht1) as (Hn1 & _). rewrite Hn1.
  apply forM_down_total; [|exact Ht1].
  intros el s Hel Hs.
  destruct (built_like_row _ _ _ _ _ el Hs ltac:(lia)) as (row & -> & Hrow).
  cbn [rbind]. apply forM_total; [|exact Hs].
  intros k s0 Hk Hs0.
  destruct (built_like_cell _ _ _ _ _ el k Hs0 ltac:(lia) ltac:(lia))
    as (thisBox & -> & Hlev & Hidx & Hbx & Hby & Hc & Hdt & Hd).
  cbn [rbind].
  assert (HP : 0 <= Box.getParentIndex thisBox < 4 ^ (el - 1)).
  { unfold Box.getParentIndex. rewrite Hidx. apply parent_range; lia. }
  destruct (built_like_cell _ _ _ _ _ (el - 1) (Box.getParentIndex thisBox) Hs0
              ltac:(lia) HP)
    as (parentBox & HgetP & Hlev' & Hidx' & Hbx' & Hby' & Hc' & Hdt' & Hd').
  rewrite HgetP. cbn [rbind].
  destruct (built_like_fields _ _ _ _ _ Hs0) as (Hn0 & Hx0 & Hy0 & Hp0).
  rewrite Hp0.
  destruct (getSS_matrix (Potential.mk 13)
              (Point.getCoord (Box.getCenter thisBox))
              (Point.getCoord (Box.getCenter parentBox)) (Box.getC thisBox)
              ltac:(simpl; lia)) as (m & Hm & ->).
  destruct (apply_matrix_total true (Potential.p (Potential.mk 13)) m (Box.getC thisBox))
    as (newCoeffs & -> & Hnew); [simpl; lia | exact Hm | unfold Box.getC; simpl; lia |].
  cbn [rbind].
  destruct (addToC_total parentBox newCoeffs) as (parentBox' & -> & Hshape);
    [cbn [Potential.p] in Hnew; lia|].
  cbn [rbind].
  destruct (built_like_set levels 13 xs ys s0 (el - 1) (Box.getParentIndex thisBox)
              parentBox parentBox') as (s1 & -> & Hs1); [assumption..|].
  cbn [rbind]. eexists. split; [reflexivity|]. apply built_like_count. exact Hs1.
Qed.

Lemma E4_in_range (b : Box.t) (m : Z) :
  2 <= Box.level b <= 8 -> 0 <= Box.index b < 4 ^ Box.level b ->
  m ∈ Box.getNeighborsE4Index b -> 0 <= m < 4 ^ Box.level b.
Proof.
  intros Hl Hn Hm. apply E4_parents in Hm as [Hm _]; [|lia | exact Hn].
  apply parents_neighbors_spec in Hm as [Hm _]; [|exact Hl | exact Hn].
  unfold shr in Hm. rewrite Z.shiftr_div_pow2 in Hm by lia. change (2 ^ 2) with 4 in Hm.
  replace (4 ^ Box.level b) with (4 * 4 ^ (Box.level b - 1))
    by (rewrite <- Z.pow_succ_r by lia; f_equal; lia).
  Z.div_mod_to_equations. lia.
Qed.

Lemma downwardPass1_total (levels : Z) (xs ys : list Point.t) (t : FmmTree.t) :
  3 <= levels <= 8 -> built_like levels 13 xs ys t ->
  exists t', FmmTree.downwardPass1 t = Ret t' /\ built_like levels 13 xs ys t'.
Proof.
  intros Hl Ht.
  destruct (built_like_fields _ _ _ _ _ Ht) as (Hn & Hx & Hy & Hp).
  unfold FmmTree.downwardPass1. cbv zeta. rewrite Hn.
  apply forM_total; [|exact Ht].
  intros el s Hel Hs.
  destruct (built_like_row _ _ _ _ _ el Hs ltac:(lia)) as (row & -> & Hrow).
  cbn [rbind]. apply forM_total; [|exact Hs].
  intros k s0 Hk Hs0.
  destruct (built_like_cell _ _ _ _ _ el k Hs0 ltac:(lia) ltac:(lia))
    as (thisBox & -> & Hlev & Hidx & Hbx & Hby & Hc & Hdt & Hd).
  cbn [rbind]. apply forM_total; [|exact Hs0].
  intros j s1 Hj Hs1.
  destruct (vget_in_range (Box.getNeighborsE4Index thisBox) j Hj) as [n Hn'].
  rewrite Hn'. cbn [rbind].
  assert (Hrange : 0 <= n < 4 ^ el).
  { rewrite <- Hlev. apply E4_in_range; [lia | rewrite Hlev, Hidx; lia |].
    apply vget_Ret in Hn' as [_ Hn']. apply list_elem_of_lookup. eauto. }
  destruct (built_like_cell _ _ _ _ _ el n Hs1 ltac:(lia) Hrange)
    as (nb & -> & Hlev1 & Hidx1 & Hbx1 & Hby1 & Hc1 & Hdt1 & Hd1).
  cbn [rbind].
  destruct (built_like_cell _ _ _ _ _ el k Hs1 ltac:(lia) ltac:(lia))
    as (thisBox1 & Hget1 & Hlev2 & Hidx2 & Hbx2 & Hby2 & Hc2 & Hdt2 & Hd2).
  rewrite Hget1. cbn [rbind].
  destruct (built_like_fields _ _ _ _ _ Hs1) as (Hn1 & Hx1 & Hy1 & Hp1).
  rewrite Hp1.
  destruct (getSR_matrix (Potential.mk 13)
              (Point.getCoord (Box.getCenter nb))
              (Point.getCoord (Box.getCenter thisBox1)) (Box.getC nb)
              ltac:(simpl; lia)) as (m & Hm & ->).
  destruct (apply_matrix_total false (Potential.p (Potential.mk 13)) m (Box.getC nb))
    as (newCoeffs & -> & Hnew); [simpl; lia | exact Hm | unfold Box.getC; simpl; lia |].
  cbn [rbind].
  destruct (addToDtilde_total thisBox1 newCoeffs) as (thisBox' & -> & Hshape);
    [cbn [Potential.p] in Hnew; lia|].
  cbn [rbind].
  destruct (built_like_set levels 13 xs ys s1 el k thisBox1 thisBox')
    as (s2 & -> & Hs2); [assumption..|].
  cbn [rbind]. eexists. split; [reflexivity|]. apply built_like_count. exact Hs2.
Qed.

Lemma children_in_range (b : Box.t) (l n : Z) :
  0 <= l <= 7 -> Box.level b = l -> 0 <= Box.index b < 4 ^ l ->
  n ∈ Box.getChildrenIndex b -> 0 <= n < 4 ^ (l + 1).
Proof.
  intros Hl Hlev Hidx Hn.
  assert (H29 : 0 <= Box.index b < 2 ^ 29).
  { assert (4 ^ l <= 4 ^ 14) by (apply Z.pow_le_mono_r; lia).
    change (2 ^ 29) with (2 * 4 ^ 14). lia. }
  change (Box.getChildrenIndex b) with (Box.getChildrenIndexOfBox 0 (Box.index b)) in Hn.
  rewrite children_of_box in Hn by exact H29.
  apply list_elem_of_In in Hn. simpl in Hn.
  rewrite Z.pow_add_r by lia. change (4 ^ 1) with 4. lia.
Qed.

Lemma downwardPass2_total (levels : Z) (xs ys : list Point.t) (t : FmmTree.t) :
  3 <= levels <= 8 -> built_like levels 13 xs ys t ->
  exists t', FmmTree.downwardPass2 t = Ret t' /\ built_like levels 13 xs ys t'.
Proof.
  intros Hl Ht.
  unfold FmmTree.downwardPass2. cbv zeta.
  destruct (built_like_row _ _ _ _ _ 2 Ht ltac:(lia)) as (row2 & -> & Hrow2).
  cbn [rbind].
  match goal with |- context [rbind (forM 0 ?n ?body t)] =>
    destruct (forM_total (built_like levels 13 xs ys) body 0 n t) as (t1 & -> & Ht1);
      [ | exact Ht | ] end.
  { intros i s Hi Hs.
    destruct (built_like_cell _ _ _ _ _ 2 i Hs ltac:(lia) ltac:(lia))
      as (b & Hget & Hlev & Hidx & Hbx & Hby & Hc & Hdt & Hd).
    rewrite Hget. cbn [rbind].
    destruct (addToD_total b (Box.getDtilde b)) as (b' & -> & Hshape & _);
      [unfold Box.getDtilde; lia|].
    cbn [rbind].
    destruct (built_like_set levels 13 xs ys s 2 i b b') as (s1 & -> & Hs1); [assumption..|].
    cbn [rbind]. eexists. split; [reflexivity|]. apply built_like_count. exact Hs1. }
  cbn [rbind].
  destruct (built_like_fields _ _ _ _ _ Ht1) as (Hn1 & _). rewrite Hn1.
  apply forM_total; [|exact Ht1].
  intros el s Hel Hs.
  destruct (built_like_row _ _ _ _ _ el Hs ltac:(lia)) as (row & -> & Hrow).
  cbn [rbind]. apply forM_total; [|exact Hs].
  intros m s0 Hm Hs0.
  destruct (built_like_cell _ _ _ _ _ el m Hs0 ltac:(lia) ltac:(lia))
    as (thisBox & -> & Hlev & Hidx & Hbx & Hby & Hc & Hdt & Hd).
  cbn [rbind]. apply forM_total; [|apply built_like_count; exact Hs0].
  intros k s1 Hk Hs1.
  destruct (vget_in_range (Box.getChildrenIndex thisBox) k Hk) as [n Hn'].
  rewrite Hn'. cbn [rbind].
  assert (Hrange : 0 <= n < 4 ^ (el + 1)).
  { apply (children_in_range thisBox el n); [lia | exact Hlev | rewrite Hidx; lia |].
    apply vget_Ret in Hn' as [_ Hn']. apply list_elem_of_lookup. eauto. }
  destruct (built_like_cell _ _ _ _ _ (el + 1) n Hs1 ltac:(lia) Hrange)
    as (child & Hgetc & Hlev1 & Hidx1 & Hbx1 & Hby1 & Hc1 & Hdt1 & Hd1).
  rewrite Hgetc. cbn [rbind].
  destruct (built_like_cell _ _ _ _ _ el m Hs1 ltac:(lia) ltac:(lia))
    as (thisBox1 & -> & Hlev2 & Hidx2 & Hbx2 & Hby2 & Hc2 & Hdt2 & Hd2).
  cbn [rbind].
  destruct (built_like_fields _ _ _ _ _ Hs1) as (Hn2 & Hx2 & Hy2 & Hp2).
  rewrite Hp2.
  destruct (getRR_matrix (Potential.mk 13)
              (Point.getCoord (Box.getCenter thisBox))
              (Point.getCoord (Box.getCenter child)) (Box.getD thisBox1)
              ltac:(simpl; lia)) as (mat & Hmat & ->).
  destruct (apply_matrix_total false (Potential.p (Potential.mk 13)) mat (Box.getD thisBox1))
    as (newCoeffs & -> & Hnew); [simpl; lia | exact Hmat | unfold Box.getD; simpl; lia |].
  cbn [rbind].
  destruct (addToD_total child newCoeffs) as (child1 & -> & Hshape1 & Hdt1');
    [cbn [Potential.p] in Hnew; lia|].
  cbn [rbind].
  assert (Hsz1 : size (Box.d child1) = 13 /\ size (Box.dtilde child1) = 13).
  { unfold cell_shape in Hshape1. injection Hshape1 as _ _ _ _ _ _ E7 E8 E9. lia. }
  destruct (addToD_total child1 (Box.getDtilde child1)) as (child2 & -> & Hshape2 & _);
    [unfold Box.getDtilde; lia|].
  cbn [rbind].
  destruct (built_like_set levels 13 xs ys s1 (el + 1) n child child2)
    as (s2 & -> & Hs2); [assumption | assumption | congruence |].
  cbn [rbind]. eexists. split; [reflexivity|]. apply built_like_count. exact Hs2.
Qed.

End SolverTotal.

Section EvaluateTotal.
Context {L : ComplexLib}.

Lemma near_source_total (levels : Z) (xs ys : list Point.t) (u : list double)
    (thisY thisX : Point.t) (sinPart : double) (this : FmmTree.t) :
  self_equal xs -> size xs <= size u -> thisX ∈ xs ->
  built_like levels 13 xs ys this ->
  exists st, FmmTree.near_source u thisY thisX (sinPart, this) = Ret st /\
             built_like levels 13 xs ys (snd st).
Proof.
  intros Hself Hu Hin Ht.
  destruct (built_like_fields _ _ _ _ _ Ht) as (Hn & Hx & Hy & Hp).
  unfold FmmTree.near_source. cbv zeta. rewrite Hx.
  unfold self_equal in Hself. rewrite Forall_forall in Hself.
  pose proof (getIndex_found xs thisX Hin (Hself _ Hin)) as Hidx.
  assert (Hr : 0 <= FmmTree.getIndex xs thisX < size u) by lia.
  destruct (vget_in_range u (FmmTree.getIndex xs thisX) Hr) as [thisU ->].
  cbn [rbind].
  destruct (FmmTree.coincident_solve (Point.getCoord thisY) (Point.getCoord thisX)).
  - eexists. split; [reflexivity | exact Ht].
  - eexists. split; [reflexivity|]. cbn [snd]. apply built_like_count. exact Ht.
Qed.

Lemma evaluate_target_total (levels : Z) (xs ys : list Point.t) (u v : list double)
    (thisBox : Box.t) (thisY : Point.t) (this : FmmTree.t) :
  3 <= levels <= 8 -> self_equal xs -> self_equal ys -> size xs <= size u ->
  built_like levels 13 xs ys this ->
  Box.level thisBox = levels - 1 -> 0 <= Box.index thisBox < 4 ^ (levels - 1) ->
  size (Box.d thisBox) = 13 ->
  thisY ∈ ys -> size v = size ys ->
  exists st, FmmTree.evaluate_target u thisBox thisY (v, this) = Ret st /\
             built_like levels 13 xs ys (snd st) /\ size (fst st) = size ys.
Proof.
  intros Hl Hsx Hsy Hu Ht Hlev Hidx Hd HinY Hv.
  destruct (built_like_fields _ _ _ _ _ Ht) as (Hn & Hx & Hy & Hp).
  unfold FmmTree.evaluate_target. cbv zeta. rewrite Hp, Hn.
  destruct (getRVector_total (Potential.mk 13) (Point.getCoord thisY)
              (Point.getCoord (Box.getCenter thisBox)) ltac:(simpl; lia))
    as (rVec & -> & HrVec & _).
  cbn [rbind]. cbn [Potential.p] in HrVec.
  match goal with |- context [rbind (forM 0 ?n ?body ?s0)] =>
    destruct (forM_total (fun st => built_like levels 13 xs ys (snd st))
                body 0 n s0) as ([regPart this1] & -> & Ht1);
      [ | cbn [snd]; apply built_like_count; exact Ht | ] end.
  { intros k [r s] Hk Hs. cbn [snd] in Hs. unfold Box.getD in *.
    destruct (vget_in_range (Box.d thisBox) k Hk) as [dk ->]. cbn [rbind].
    destruct (vget_in_range rVec k ltac:(lia)) as [rk ->]. cbn [rbind].
    eexists. split; [reflexivity|]. cbn [snd]. apply built_like_count. exact Hs. }
  cbn [rbind snd] in *.
  match goal with |- context [rbind (forM 0 ?n ?body ?s0)] =>
    destruct (forM_total (fun st => built_like levels 13 xs ys (snd st))
                body 0 n s0) as ([sinPart this2] & -> & Ht2);
      [ | cbn [snd]; exact Ht1 | ] end.
  { intros m [r s] Hm Hs. cbn [snd] in *.
    destruct (vget_in_range _ m Hm) as [n Hn']. rewrite Hn'. cbn [rbind].
    assert (Hrange : 0 <= n < 4 ^ (levels - 1)).
    { apply vget_Ret in Hn' as [_ Hn']. apply list_elem_of_lookup_2 in Hn'.
      unfold push_back in Hn'. apply elem_of_app in Hn' as [Hn'|Hn'].
      - apply neighbors_adjacent in Hn' as [Hn' _]; [| rewrite Hlev; lia | rewrite Hlev; lia].
        rewrite Hlev in Hn'. exact Hn'.
      - apply list_elem_of_singleton in Hn'. unfold Box.getIndex in Hn'. lia. }
    destruct (built_like_cell _ _ _ _ _ (levels - 1) n Hs ltac:(lia) Hrange)
      as (nb & -> & Hlev1 & Hidx1 & Hbx1 & Hby1 & Hc1 & Hdt1 & Hd1).
    cbn [rbind]. rewrite Z.eqb_refl in Hbx1.
    apply (forM_total (fun st => built_like levels 13 xs ys (snd st)));
      [|exact Hs].
    intros q [r0 s0] Hq Hs0. cbn [snd] in *. unfold Box.getX in *.
    destruct (vget_in_range (Box.x nb) q Hq) as [thisX HthisX]. rewrite HthisX. cbn [rbind].
    apply (near_source_total levels xs ys); try assumption.
    apply vget_Ret in HthisX as [_ HthisX]. rewrite Hbx1 in HthisX.
    eapply sorted_into_elem. apply list_elem_of_lookup. eauto. }
  cbn [rbind snd] in *.
  unfold self_equal in Hsy. rewrite Forall_forall in Hsy.
  pose proof (getIndex_found ys thisY HinY (Hsy _ HinY)) as Hi.
  destruct (built_like_fields _ _ _ _ _ Ht2) as (_ & _ & Hy2 & _). rewrite Hy2.
  rewrite vset_in_range by lia. cbn [rbind].
  eexists. split; [reflexivity|]. cbn [fst snd]. split; [exact Ht2|].
  unfold size in *. rewrite length_insert. exact Hv.
Qed.

Lemma evaluate_total (levels : Z) (xs ys : list Point.t) (u v : list double)
    (this : FmmTree.t) :
  3 <= levels <= 8 -> self_equal xs -> self_equal ys -> size xs <= size u ->
  built_like levels 13 xs ys this -> size v = size ys ->
  exists st, FmmTree.evaluate this u v = Ret st /\ size (fst st) = size ys.
Proof.
  intros Hl Hsx Hsy Hu Ht Hv.
  destruct (built_like_fields _ _ _ _ _ Ht) as (Hn & Hx & Hy & Hp).
  unfold FmmTree.evaluate. cbv zeta. rewrite Hn.
  destruct (built_like_row _ _ _ _ _ (levels - 1) Ht ltac:(lia)) as (leaves & -> & Hleaves).
  cbn [rbind].
  match goal with |- context [forM 0 ?n ?body ?s0] =>
    destruct (forM_total (fun st => built_like levels 13 xs ys (snd st) /\ size (fst st) = size ys)
                body 0 n s0) as (st & -> & _ & Hsz);
      [ | cbn [fst snd]; split; assumption | ] end.
  - intros i [w s] Hi [Hs Hw]. cbn [fst snd] in *.
    destruct (built_like_cell _ _ _ _ _ (levels - 1) i Hs ltac:(lia) ltac:(lia))
      as (thisBox & -> & Hlev & Hidx & Hbx & Hby & Hc & Hdt & Hd).
    cbn [rbind]. rewrite Z.eqb_refl in Hby.
    apply (forM_total (fun st => built_like levels 13 xs ys (snd st) /\ size (fst st) = size ys));
      [|cbn [fst snd]; split; assumption].
    intros j [w0 s0] Hj [Hs0 Hw0]. cbn [fst snd] in *. unfold Box.getY in *.
    destruct (vget_in_range (Box.y thisBox) j Hj) as [thisY HthisY].
    rewrite HthisY. cbn [rbind].
    apply (evaluate_target_total levels xs ys); try assumption; try lia.
    apply vget_Ret in HthisY as [_ HthisY]. rewrite Hby in HthisY.
    eapply sorted_into_elem. apply list_elem_of_lookup. eauto.
  - exists st. split; [reflexivity | exact Hsz].
Qed.

(** X27.  With the order 13 the solver stays inside its arrays.  For a depth
    from 3 to 8, as many targets as sources, at least one charge for every
    source, and points that [equals] finds equal to themselves, building the
    tree and solving returns a result, with one entry for every target. *)
Theorem solve_returns_for_order_13 (level : Z) (sources targets : list Point.t)
    (u : list double) :
  3 <= level <= 8 -> size sources = size targets -> size sources <= size u ->
  self_equal sources -> self_equal targets ->
  exists v, build_and_solve level 13 sources targets u = Ret v /\
            size v = size targets.
Proof.
  intros Hl Hlen Hu Hsx Hsy. unfold build_and_solve.
  rewrite new_closed by lia. cbn [rbind].
  rewrite take_ge by (unfold size in Hlen; lia).
  set (t0 := FmmTree.mk level (level - 1) sources targets (Potential.mk 13)
               (built_tree level (Potential.p (Potential.mk 13)) sources targets) 0).
  assert (Ht0 : built_like level 13 sources targets t0) by reflexivity.
  unfold FmmTree.solve.
  destruct (upwardPass_total level sources targets u t0 Hl Hsx Hu Ht0) as (t1 & -> & Ht1).
  cbn [rbind].
  destruct (downwardPass1_total level sources targets t1 Hl Ht1) as (t2 & -> & Ht2).
  cbn [rbind].
  destruct (downwardPass2_total level sources targets t2 Hl Ht2) as (t3 & -> & Ht3).
  cbn [rbind]. cbv zeta.
  destruct (built_like_fields _ _ _ _ _ Ht3) as (_ & _ & Hy3 & _). rewrite Hy3.
  destruct (evaluate_total level sources targets u
              (replicate (Z.to_nat (size targets)) 0%float) t3 Hl Hsx Hsy Hu Ht3)
    as (st & -> & Hst).
  { unfold size. rewrite length_replicate. lia. }
  cbn [rbind]. exists (fst st). split; [reflexivity | exact Hst].
Qed.

End EvaluateTotal.

Lemma solve_returns_for_order_13_witness :
  exists v, build_and_solve (L := ref_lib) 3 13 demo_points demo_points demo_charges = Ret v /\
            size v = size demo_points.
Proof.
  apply (solve_returns_for_order_13 (L := ref_lib) 3 demo_points demo_points demo_charges).
  - lia.
  - reflexivity.
  - vm_compute. discriminate.
  - repeat constructor.
  - repeat constructor.
Defined.

(** ** Orders other than 13 *)

Lemma forM_first {St} (body : Z -> St -> result St) (lo hi : Z) (s s' : St) :
  lo < hi -> forM lo hi body s = Ret s' -> exists s1, body lo s = Ret s1.
Proof.
  intros Hlt H. unfold forM in H.
  destruct (Z.to_nat (hi - lo)) as [|n] eqn:En; [lia|]. cbn [iterM_up] in H.
  apply rbind_Ret in H as (s1 & H1 & _). eauto.
Qed.

Lemma forM_down_first {St} (body : Z -> St -> result St) (hi lo : Z) (s s' : St) :
  lo <= hi -> forM_down hi lo body s = Ret s' -> exists s1, body hi s = Ret s1.
Proof.
  intros Hle H. unfold forM_down in H.
  destruct (Z.to_nat (hi - lo + 1)) as [|n] eqn:En; [lia|]. cbn [iterM_down] in H.
  apply rbind_Ret in H as (s1 & H1 & _). eauto.
Qed.

(** Every round of a loop that has returned has returned, from a state that
    satisfies the invariant. *)
Lemma iterM_up_round {St} (P : St -> Prop) (body : Z -> St -> result St) (n : nat) :
  forall lo s s',
  (forall i s s', P s -> body i s = Ret s' -> P s') ->
  P s -> iterM_up n lo body s = Ret s' ->
  forall i, lo <= i < lo + Z.of_nat n -> exists si si', P si /\ body i si = Ret si'.
Proof.
  induction n as [|n IH]; intros lo s s' Hinv Hs H i Hi; [lia|].
  cbn [iterM_up] in H. apply rbind_Ret in H as (s1 & H1 & H).
  destruct (Z.eq_dec i lo) as [->|Hne]; [eauto|].
  apply (IH (lo + 1) s1 s' Hinv); [eapply Hinv; eauto | exact H | lia].
Qed.

Lemma forM_round {St} (P : St -> Prop) (body : Z -> St -> result St) (lo hi : Z)
    (s s' : St) (i : Z) :
  forM lo hi body s = Ret s' -> P s ->
  (forall i s s', P s -> body i s = Ret s' -> P s') ->
  lo <= i < hi -> exists si si', P si /\ body i si = Ret si'.
Proof.
  intros H Hs Hinv Hi. apply (iterM_up_round P body _ lo s s' Hinv Hs H). lia.
Qed.

Section OtherOrders.
Context {L : ComplexLib}.

Lemma getSR_size (pot : Potential.t) (from to : complex) (sCoeff B : list complex) :
  Potential.getSR pot from to sCoeff = Ret B -> size B = Potential.p pot.
Proof.
  unfold Potential.getSR. intros H.
  do 6 (apply rbind_Ret in H as (? & _ & H)).
  apply apply_matrix_size in H. exact H.
Qed.

Lemma scale_size (B B' : list complex) (thisU : double) :
  forM 0 (size B) (fun k B => do bk <- vget B k; vset B k (cscale bk thisU)) B = Ret B' ->
  size B' = size B.
Proof.
  intros H. apply (forM_inv (fun w => size w = size B)) in H; [exact H | | reflexivity].
  intros k w w' Hw Hk. apply rbind_Ret in Hk as (bk & _ & Hk).
  apply vset_Ret in Hk as (_ & _ & Hk). lia.
Qed.

(** The body of the first loop nest of [upwardPass] keeps the shape. *)
Lemma upward_source_shape (u : list double) (leaf i : Z)
    (xPoints : list Point.t) (j : Z) (s s' : FmmTree.t) :
  (do thisX <- vget xPoints j;
   do thisBox <- FmmTree.get_box s leaf i;
   do B <- Potential.getSCoeff (FmmTree.potential s) (Point.getCoord thisX)
             (Point.getCoord (Box.getCenter thisBox));
   do thisU <- vget u (FmmTree.getIndex (FmmTree.x
                 (FmmTree.count s (1 + Potential.getP (FmmTree.potential s)))) thisX);
   do B <- forM 0 (size B) (fun k B => do bk <- vget B k; vset B k (cscale bk thisU)) B;
   do thisBox <- Box.addToC thisBox B;
   do this <- FmmTree.set_box
                (FmmTree.count
                   (FmmTree.count s (1 + Potential.getP (FmmTree.potential s))) (size B))
                leaf i thisBox;
   Ret (FmmTree.count this (Potential.getP (FmmTree.potential this)))) = Ret s' ->
  tree_shape s' = tree_shape s.
Proof.
  intros H.
  apply rbind_Ret in H as (thisX & _ & H).
  apply rbind_Ret in H as (thisBox0 & Hget & H).
  apply rbind_Ret in H as (B & _ & H).
  apply rbind_Ret in H as (thisU & _ & H).
  apply rbind_Ret in H as (B' & _ & H).
  apply rbind_Ret in H as (thisBox' & Hadd & H).
  apply rbind_Ret in H as (s1 & Hset & H).
  injection H as <-. rewrite count_shape.
  eapply update_shape in Hset; [exact Hset | exact Hget | exact (or_introl Hadd)].
Qed.

End OtherOrders.

Section OrderNot13.
Context {L : ComplexLib}.

(** The first loop nest of [upwardPass], one leaf. *)
Lemma upward_leaf_inv (u : list double) (levels p : Z) (xs ys : list Point.t)
    (leaf i : Z) (s s' : FmmTree.t) :
  built_like levels p xs ys s ->
  (do thisBox <- FmmTree.get_box s leaf i;
   let xPoints := Box.getX thisBox in
   forM 0 (size xPoints)
     (fun j this =>
        do thisX <- vget xPoints j;
        do thisBox <- FmmTree.get_box this leaf i;
        do B <- Potential.getSCoeff (FmmTree.potential this) (Point.getCoord thisX)
                  (Point.getCoord (Box.getCenter thisBox));
        let this := FmmTree.count this (1 + Potential.getP (FmmTree.potential this)) in
        do thisU <- vget u (FmmTree.getIndex (FmmTree.x this) thisX);
        do B <- forM 0 (size B)
                  (fun k B => do bk <- vget B k; vset B k (cscale bk thisU)) B;
        let this := FmmTree.count this (size B) in
        do thisBox <- Box.addToC thisBox B;
        do this <- FmmTree.set_box this leaf i thisBox;
        Ret (FmmTree.count this (Potential.getP (FmmTree.potential this))))
     s) = Ret s' ->
  built_like levels p xs ys s'.
Proof.
  intros Hs H. apply rbind_Ret in H as (thisBox & _ & H). cbv zeta in H.
  apply (forM_inv (built_like levels p xs ys)) in H; [exact H | | exact Hs].
  intros j s0 s0' Hs0 Hj. apply upward_source_shape in Hj.
  unfold built_like in *. congruence.
Qed.

Lemma upwardPass_order_below (levels p : Z) (xs ys : list Point.t) (u : list double)
    (t t' : FmmTree.t) :
  3 <= levels <= 8 -> xs <> [] -> p < 13 -> built_like levels p xs ys t ->
  FmmTree.upwardPass t u <> Ret t'.
Proof.
  intros Hl Hne Hp Ht H.
  destruct (built_like_fields _ _ _ _ _ Ht) as (Hn & Hx & Hy & Hpot).
  unfold FmmTree.upwardPass in H. cbv zeta in H. rewrite Hn in H.
  apply rbind_Ret in H as (leaves & Hleaves & H).
  apply rbind_Ret in H as (t1 & H1 & _).
  destruct (built_like_row _ _ _ _ _ (levels - 1) Ht ltac:(lia)) as (row & Hrow & Hsize).
  assert (leaves = row) by congruence. subst row.
  destruct xs as [|x0 xs']; [congruence|].
  set (i := Point.getBoxIndex x0 (levels - 1)).
  assert (Hi : 0 <= i < 4 ^ (levels - 1))
    by (unfold i, Point.getBoxIndex; apply interleave_range; lia).
  apply (forM_round (built_like levels p (x0 :: xs') ys) _ _ _ _ _ i) in H1
    as (si & si' & Hsi & Hbody); [ | exact Ht | | lia ].
  2:{ intros k s s' Hs Hk.
      apply (upward_leaf_inv u levels p (x0 :: xs') ys _ _ s s' Hs Hk). }
  destruct (built_like_cell _ _ _ _ _ (levels - 1) i Hsi ltac:(lia) Hi)
    as (thisBox & Hget & Hlev & Hidx & Hbx & Hby & Hc & Hdt & Hd).
  rewrite Hget in Hbody. cbn [rbind] in Hbody. cbv zeta in Hbody.
  rewrite Z.eqb_refl in Hbx.
  assert (Hpos : 0 < size (Box.getX thisBox)).
  { unfold Box.getX. rewrite Hbx. unfold sorted_into. cbn [List.filter].
    fold i. rewrite Z.eqb_refl. unfold size. cbn [length]. lia. }
  apply forM_first in Hbody as (s1 & Hfirst); [|exact Hpos].
  apply rbind_Ret in Hfirst as (thisX & _ & Hfirst).
  rewrite Hget in Hfirst. cbn [rbind] in Hfirst.
  apply rbind_Ret in Hfirst as (B & HB & Hfirst). apply getSCoeff_size in HB.
  apply rbind_Ret in Hfirst as (thisU & _ & Hfirst).
  apply rbind_Ret in Hfirst as (B' & HB' & Hfirst). apply scale_size in HB'.
  apply rbind_Ret in Hfirst as (thisBox' & Hadd & _).
  destruct (built_like_fields _ _ _ _ _ Hsi) as (_ & _ & _ & Hpot').
  rewrite Hpot' in HB. cbn [Potential.p] in HB.
  unfold Box.addToC in Hadd. rewrite add_into_short in Hadd by lia. discriminate.
Qed.

Lemma upwardPass_order_above (levels p : Z) (xs ys : list Point.t) (u : list double)
    (t t' : FmmTree.t) :
  3 <= levels <= 8 -> 13 < p -> built_like levels p xs ys t ->
  FmmTree.upwardPass t u <> Ret t'.
Proof.
  intros Hl Hp Ht H.
  destruct (built_like_fields _ _ _ _ _ Ht) as (Hn & Hx & Hy & Hpot).
  unfold FmmTree.upwardPass in H. cbv zeta in H. rewrite Hn in H.
  apply rbind_Ret in H as (leaves & Hleaves & H).
  apply rbind_Ret in H as (t1 & H1 & H).
  assert (Ht1 : built_like levels p xs ys t1).
  { apply (forM_inv (built_like levels p xs ys)) in H1; [exact H1 | | exact Ht].
    intros k s s' Hs Hk. apply (upward_leaf_inv u levels p xs ys _ _ s s' Hs Hk). }
  destruct (built_like_fields _ _ _ _ _ Ht1) as (Hn1 & _ & _ & Hpot1).
  rewrite Hn1 in H.
  apply forM_down_first in H as (s1 & H); [|lia].
  destruct (built_like_row _ _ _ _ _ (levels - 1) Ht1 ltac:(lia)) as (row & Hrow & Hsize).
  rewrite Hrow in H. cbn [rbind] in H.
  pose proof (pow4_pos (levels - 1) ltac:(lia)) as Hpos.
  apply forM_first in H as (s2 & H); [|lia].
  destruct (built_like_cell _ _ _ _ _ (levels - 1) 0 Ht1 ltac:(lia) ltac:(lia))
    as (thisBox & Hget & Hlev & Hidx & Hbx & Hby & Hc & Hdt & Hd).
  rewrite Hget in H. cbn [rbind] in H.
  apply rbind_Ret in H as (parentBox & _ & H).
  apply rbind_Ret in H as (newCoeffs & Hss & _).
  rewrite Hpot1 in Hss.
  destruct (getSS_matrix (Potential.mk p) (Point.getCoord (Box.getCenter thisBox))
              (Point.getCoord (Box.getCenter parentBox)) (Box.getC thisBox)
              ltac:(simpl; lia)) as (m & Hm & E).
  rewrite E, apply_matrix_short in Hss; [discriminate | exact Hm |].
  unfold Box.getC. simpl. lia.
Qed.

(** X28.  The solver returns for no other order.  The cells of the tree have
    arrays of 13 coefficients whatever the order of the kernel is, so for an
    order below 13 the first increment is too short for [addToC], and for an
    order above 13 the first translation [getSS] reads a cell's array past
    its end: with at least one source, building a tree of a depth from 3 to 8
    and solving it ends without a result. *)
Theorem solve_fails_unless_order_13 (level p : Z) (sources targets : list Point.t)
    (u : list double) :
  3 <= level <= 8 -> sources <> [] -> p <> 13 ->
  no_result (build_and_solve level p sources targets u).
Proof.
  intros Hl Hne Hp. apply never_Ret_no_result. intros v H. unfold build_and_solve in H.
  apply rbind_Ret in H as (t & Hnew & H).
  apply rbind_Ret in H as (r & Hsolve & _).
  destruct (Z_le_gt_dec (size sources) (size targets)) as [Hlen|Hlen].
  - rewrite new_closed in Hnew by (lia || exact Hlen). injection Hnew as <-.
    unfold FmmTree.solve in Hsolve. apply rbind_Ret in Hsolve as (t1 & H1 & _).
    cbn [Potential.p] in H1.
    match type of H1 with FmmTree.upwardPass ?t0 u = _ =>
      assert (Ht0 : built_like level p sources (take (length sources) targets) t0)
        by reflexivity end.
    destruct (Z_lt_ge_dec p 13) as [Hlt|Hge].
    + exact (upwardPass_order_below _ _ _ _ _ _ _ Hl Hne Hlt Ht0 H1).
    + assert (Hgt : 13 < p) by lia.
      exact (upwardPass_order_above _ _ _ _ _ _ _ Hl Hgt Ht0 H1).
  - rewrite new_short in Hnew by lia. discriminate.
Qed.

End OrderNot13.

Lemma solve_fails_unless_order_13_witness :
  no_result (build_and_solve (L := ref_lib) 4 5 demo_points demo_points demo_charges).
Proof.
  apply (solve_fails_unless_order_13 (L := ref_lib) 4 5 demo_points demo_points
           demo_charges); [lia | discriminate | lia].
Defined.


(** ** The size of the interaction list *)

Lemma in_concat_children (l : Z) (qs : list Z) (m : Z) :
  (forall q, q ∈ qs -> 0 <= q < 2 ^ 29) ->
  m ∈ concat (map (Box.getChildrenIndexOfBox l) qs) -> shr m 2 ∈ qs.
Proof.
  intros Hqs H. apply list_elem_of_In, in_concat in H as (c & Hc & Hm).
  apply in_map_iff in Hc as (q & <- & Hq). apply list_elem_of_In in Hq.
  rewrite children_of_box in Hm by (apply Hqs; exact Hq).
  apply list_elem_of_In, child_cases in Hm. rewrite Hm. exact Hq.
Qed.

Lemma concat_children_NoDup (l : Z) (qs : list Z) :
  NoDup qs -> (forall q, q ∈ qs -> 0 <= q < 2 ^ 29) ->
  NoDup (concat (map (Box.getChildrenIndexOfBox l) qs)).
Proof.
  induction 1 as [|q qs Hq Hnd IH]; intros Hr; cbn [map concat]; [constructor|].
  apply NoDup_app. split; [|split].
  - rewrite children_of_box by (apply Hr; constructor).
    repeat (apply NoDup_cons; split; [rewrite ?elem_of_cons, elem_of_nil; lia|]).
    constructor.
  - intros m Hm Hm'. apply in_concat_children in Hm'.
    + rewrite children_of_box in Hm by (apply Hr; constructor).
      apply child_cases in Hm. rewrite Hm in Hm'. contradiction.
    + intros q' Hq'. apply Hr. constructor. exact Hq'.
  - apply IH. intros q' Hq'. apply Hr. constructor. exact Hq'.
Qed.

Lemma far_offsets_length (rx ry : Z) :
  0 <= rx <= 1 -> 0 <= ry <= 1 -> (length (far_offsets rx ry) <= 27)%nat.
Proof.
  intros Hx Hy.
  assert (Ex : rx = 0 \/ rx = 1) by lia. assert (Ey : ry = 0 \/ ry = 1) by lia.
  destruct Ex as [-> | ->], Ey as [-> | ->]; vm_compute; lia.
Qed.

Lemma in_far_offsets (rx ry dx dy : Z) :
  -2 <= dx <= 3 -> -2 <= dy <= 3 ->
  1 < Z.abs (dx - rx) \/ 1 < Z.abs (dy - ry) ->
  In (dx, dy) (far_offsets rx ry).
Proof.
  intros Hx Hy Hfar. unfold far_offsets. apply filter_In. split.
  - unfold block_offsets. apply in_prod; simpl; lia.
  - cbn [fst snd]. apply orb_true_iff. rewrite !Z.ltb_lt. exact Hfar.
Qed.

Lemma neighbors_level_0 (b : Box.t) : Box.level b = 0 -> Box.getNeighborsIndex b = [].
Proof.
  intros E0. rewrite getNeighborsIndex_coords by lia.
  destruct (uninterleave_ints_range (Box.index b) (Box.level b)) as [Hx Hy]; [lia|].
  rewrite E0 in *. change (2 ^ 0) with 1 in Hx, Hy.
  replace (fst (Util.uninterleave_ints (Box.index b) 0)) with 0 by lia.
  replace (snd (Util.uninterleave_ints (Box.index b) 0)) with 0 by lia.
  reflexivity.
Qed.

Lemma parents_neighbors_range (b : Box.t) (pn : Z) :
  1 <= Box.level b <= 8 -> 0 <= Box.index b < 4 ^ Box.level b ->
  pn ∈ Box.getParentsNeighborsIndex b ->
  0 <= pn < 4 ^ (Box.level b - 1) /\
  adjacent (Box.level b - 1) (shr (Box.index b) 2) pn.
Proof.
  intros Hl Hn H. rewrite parents_neighbors_as_neighbors in H.
  apply neighbors_adjacent in H; [exact H | simpl; lia |].
  simpl. apply parent_range; lia.
Qed.

(** The coordinates of a member of the interaction list, taken from the
    lower left child of the parent, are among [far_offsets]. *)
Lemma E4_offsets (b : Box.t) (m : Z) :
  1 <= Box.level b <= 8 -> 0 <= Box.index b < 4 ^ Box.level b ->
  m ∈ Box.getNeighborsE4Index b ->
  0 <= m < 4 ^ Box.level b /\
  In (fst (Util.uninterleave_ints m (Box.level b))
        - 2 * (fst (Util.uninterleave_ints (Box.index b) (Box.level b)) / 2),
      snd (Util.uninterleave_ints m (Box.level b))
        - 2 * (snd (Util.uninterleave_ints (Box.index b) (Box.level b)) / 2))
     (far_offsets (fst (Util.uninterleave_ints (Box.index b) (Box.level b)) mod 2)
                  (snd (Util.uninterleave_ints (Box.index b) (Box.level b)) mod 2)).
Proof.
  intros Hl Hn H. apply E4_parents in H as [Hp Hnn]; [|exact Hl|exact Hn].
  apply parents_neighbors_range in Hp as [Hr Ha]; [|exact Hl|exact Hn].
  assert (Hm : 0 <= m < 4 ^ Box.level b).
  { unfold shr in Hr. rewrite Z.shiftr_div_pow2 in Hr by lia. change (2 ^ 2) with 4 in Hr.
    replace (Box.level b) with (Box.level b - 1 + 1) by lia.
    rewrite Z.pow_add_r by lia. change (4 ^ 1) with 4.
    pose proof (Z.div_mod m 4 ltac:(lia)). pose proof (Z.mod_pos_bound m 4 ltac:(lia)). lia. }
  split; [exact Hm|].
  rewrite neighbors_adjacent in Hnn by (lia || exact Hn).
  destruct Ha as (Hne & Hax & Hay).
  rewrite !uninterleave_ints_parent in Hax, Hay by lia. cbn [fst snd] in Hax, Hay.
  set (x := fst (Util.uninterleave_ints (Box.index b) (Box.level b))) in *.
  set (y := snd (Util.uninterleave_ints (Box.index b) (Box.level b))) in *.
  set (mx := fst (Util.uninterleave_ints m (Box.level b))) in *.
  set (my := snd (Util.uninterleave_ints m (Box.level b))) in *.
  assert (Hfar : 1 < Z.abs (mx - x) \/ 1 < Z.abs (my - y)).
  { destruct (Z_le_gt_dec (Z.abs (mx - x)) 1) as [H1|H1]; [|lia].
    destruct (Z_le_gt_dec (Z.abs (my - y)) 1) as [H2|H2]; [|lia].
    exfalso. apply Hnn. split; [exact Hm|]. split; [|split; assumption].
    intros E. apply Hne. rewrite E. reflexivity. }
  pose proof (Z.div_mod x 2 ltac:(lia)). pose proof (Z.mod_pos_bound x 2 ltac:(lia)).
  pose proof (Z.div_mod y 2 ltac:(lia)). pose proof (Z.mod_pos_bound y 2 ltac:(lia)).
  pose proof (Z.div_mod mx 2 ltac:(lia)). pose proof (Z.mod_pos_bound mx 2 ltac:(lia)).
  pose proof (Z.div_mod my 2 ltac:(lia)). pose proof (Z.mod_pos_bound my 2 ltac:(lia)).
  apply in_far_offsets; lia.
Qed.

(** X29.  The interaction list of a cell (level 1 to 8) names no cell twice
    and has at most 27 entries; at level 1, where the parent has no
    neighbour, it is empty. *)
Theorem interaction_list_at_most_27 (b : Box.t) :
  1 <= Box.level b <= 8 -> 0 <= Box.index b < 4 ^ Box.level b ->
  NoDup (Box.getNeighborsE4Index b) /\
  size (Box.getNeighborsE4Index b) <= 27 /\
  (Box.level b = 1 -> Box.getNeighborsE4Index b = []).
Proof.
  intros Hl Hn.
  assert (Hnd : NoDup (Box.getNeighborsE4Index b)).
  { rewrite E4_closed. apply NoDup_lfilter, concat_children_NoDup.
    - rewrite parents_neighbors_as_neighbors, getNeighborsIndex_coords by (simpl; lia).
      cbn [Box.level Box.index cell].
      destruct (uninterleave_ints_range (Box.getParentIndex b) (Box.level b - 1))
        as [Hx Hy]; [lia|].
      apply neighbors_of_NoDup; (lia || assumption).
    - intros q Hq. apply parents_neighbors_range in Hq as [Hq _]; [|exact Hl|exact Hn].
      assert (4 ^ (Box.level b - 1) <= 4 ^ 7) by (apply Z.pow_le_mono_r; lia).
      change (4 ^ 7) with 16384 in *. change (2 ^ 29) with 536870912. lia. }
  split; [exact Hnd|]. split.
  - set (g := fun m : Z =>
        (fst (Util.uninterleave_ints m (Box.level b))
           - 2 * (fst (Util.uninterleave_ints (Box.index b) (Box.level b)) / 2),
         snd (Util.uninterleave_ints m (Box.level b))
           - 2 * (snd (Util.uninterleave_ints (Box.index b) (Box.level b)) / 2))).
    assert (Hg : NoDup (map g (Box.getNeighborsE4Index b))).
    { apply NoDup_map_inj_on; [|exact Hnd].
      intros m m' Hm Hm' E. apply list_elem_of_In in Hm, Hm'.
      apply (E4_offsets b m Hl Hn) in Hm as [Hm _].
      apply (E4_offsets b m' Hl Hn) in Hm' as [Hm' _].
      apply (uninterleave_ints_inj m m' (Box.level b)); [lia | exact Hm | exact Hm' |].
      unfold g in E. injection E as E1 E2.
      destruct (Util.uninterleave_ints m (Box.level b)) as [a1 a2].
      destruct (Util.uninterleave_ints m' (Box.level b)) as [b1 b2].
      cbn [fst snd] in E1, E2. f_equal; lia. }
    assert (Hsub : map g (Box.getNeighborsE4Index b) ⊆+
                   far_offsets
                     (fst (Util.uninterleave_ints (Box.index b) (Box.level b)) mod 2)
                     (snd (Util.uninterleave_ints (Box.index b) (Box.level b)) mod 2)).
    { apply NoDup_submseteq; [exact Hg|]. intros d Hd.
      apply list_elem_of_In, in_map_iff in Hd as (m & <- & Hm).
      apply list_elem_of_In in Hm. apply list_elem_of_In.
      exact (proj2 (E4_offsets b m Hl Hn Hm)). }
    apply submseteq_length in Hsub. rewrite length_map in Hsub.
    pose proof (far_offsets_length
                  (fst (Util.uninterleave_ints (Box.index b) (Box.level b)) mod 2)
                  (snd (Util.uninterleave_ints (Box.index b) (Box.level b)) mod 2)
                  ltac:(pose proof (Z.mod_pos_bound
                          (fst (Util.uninterleave_ints (Box.index b) (Box.level b))) 2); lia)
                  ltac:(pose proof (Z.mod_pos_bound
                          (snd (Util.uninterleave_ints (Box.index b) (Box.level b))) 2); lia)).
    unfold size. lia.
  - intros E1. rewrite E4_closed, parents_neighbors_as_neighbors.
    rewrite (neighbors_level_0 (cell (Box.level b - 1) (Box.getParentIndex b)))
      by (simpl; lia).
    reflexivity.
Qed.

Lemma interaction_list_at_most_27_witness :
  NoDup (Box.getNeighborsE4Index (cell 3 46)) /\
  size (Box.getNeighborsE4Index (cell 3 46)) <= 27 /\
  (Box.level (cell 3 46) = 1 -> Box.getNeighborsE4Index (cell 3 46) = []).
Proof. apply (interaction_list_at_most_27 (cell 3 46)); simpl; lia. Defined.


(** ** The example: the loops over [double] counters *)

(** A loop over a [double] counter in closed form: its counter takes the
    values [cs 0 .. cs n], and its state the values [st 0 .. st n]. *)
Lemma loop_below_one_closed {St} (body : double -> St -> result St) (step : double)
    (cs : Z -> double) (st : Z -> St) (n : Z) : forall (rounds : nat) (k : Z),
  0 <= k <= n -> (Z.to_nat (n - k) <= rounds)%nat ->
  (forall i, k <= i < n ->
     (cs i <? 1)%float = true /\ body (cs i) (st i) = Ret (st (i + 1)) /\
     (cs i + step)%float = cs (i + 1)) ->
  (cs n <? 1)%float = false ->
  loop_below_one rounds (cs k) step body (st k) = Ret (st n).
Proof.
  induction rounds as [|rounds IH]; intros k Hk Hr H Hn.
  - assert (k = n) by lia. subst k. cbn [loop_below_one]. rewrite Hn. reflexivity.
  - destruct (Z.eq_dec k n) as [->|Hne].
    + cbn [loop_below_one]. rewrite Hn. reflexivity.
    + destruct (H k ltac:(lia)) as (Hlt & Hbody & Hstep).
      cbn [loop_below_one]. rewrite Hlt, Hbody. cbn [rbind]. rewrite Hstep.
      apply IH; [lia | lia | | exact Hn].
      intros i Hi. apply H. lia.
Qed.

(** The counters of the example of level [L]: the multiples of the length of
    a cell, computed without a rounding error. *)
Lemma counter_values (L k : Z) :
  1 <= L <= 8 -> 0 <= k <= 2 ^ (L - 1) ->
  let step := ((1 - 0) / pow2 (usub L 1))%float in
  let c := (double_of_Z k * pow2 (1 - L))%float in
  ((c <? 1)%float = (k <? 2 ^ (L - 1))) /\
  (c + step)%float = (double_of_Z (k + 1) * pow2 (1 - L))%float /\
  (c + 0.25 * step)%float = ((double_of_Z k + 0.25) * pow2 (1 - L))%float /\
  (c + 0.75 * step)%float = ((double_of_Z k + 0.75) * pow2 (1 - L))%float.
Proof.
  intros HL Hk. cbv zeta.
  assert (H : forallb (fun L => forallb (fun k =>
     let step := ((1 - 0) / pow2 (usub (L + 1) 1))%float in
     let c := (double_of_Z k * pow2 (1 - (L + 1)))%float in
     Bool.eqb (c <? 1)%float (k <? 2 ^ (L + 1 - 1))
     && PrimFloat.Leibniz.eqb (c + step)%float
          (double_of_Z (k + 1) * pow2 (1 - (L + 1)))%float
     && PrimFloat.Leibniz.eqb (c + 0.25 * step)%float
          ((double_of_Z k + 0.25) * pow2 (1 - (L + 1)))%float
     && PrimFloat.Leibniz.eqb (c + 0.75 * step)%float
          ((double_of_Z k + 0.75) * pow2 (1 - (L + 1)))%float)
     (zrange (2 ^ (L + 1 - 1) + 1))) (zrange 8) = true)
    by (vm_compute; reflexivity).
  pose proof (zrange_check _ 8 (L - 1) H ltac:(lia)) as H1. cbv beta in H1.
  replace (L - 1 + 1) with L in H1 by lia.
  pose proof (zrange_check _ _ k H1 ltac:(lia)) as H2. cbv beta zeta in H2.
  apply andb_true_iff in H2 as [H2 H5]. apply andb_true_iff in H2 as [H2 H4].
  apply andb_true_iff in H2 as [H2 H3].
  apply Bool.eqb_prop in H2. apply FloatAxioms.Leibniz.eqb_spec in H3, H4, H5.
  repeat split; assumption.
Qed.

(** The number of points of the example of level [L]. *)
Lemma example_size (L : Z) :
  1 <= L <= 8 -> uint_of_double (4 * pow2 (2 * usub L 1))%float = Ret (4 ^ L).
Proof.
  intros HL.
  assert (H : forallb (fun L =>
     match uint_of_double (4 * pow2 (2 * usub (L + 1) 1))%float with
     | Ret n => n =? 4 ^ (L + 1)
     | _ => false
     end) (zrange 8) = true) by (vm_compute; reflexivity).
  pose proof (zrange_check _ 8 (L - 1) H ltac:(lia)) as H1. cbv beta in H1.
  replace (L - 1 + 1) with L in H1 by lia.
  destruct (uint_of_double _) as [n| |]; try discriminate.
  apply Z.eqb_eq in H1. rewrite H1. reflexivity.
Qed.

(** A vector filled up to position [m]. *)
Lemma set_point_fill (f : Z -> Point.t) (N m : Z) (x_coord y_coord : double) :
  0 <= m < N -> f m = Point.mk (Cplx x_coord y_coord) ->
  Example1.set_point
    (map (fun j => if j <? m then f j else Point.default) (zrange N)) m x_coord y_coord =
  Ret (map (fun j => if j <? m + 1 then f j else Point.default) (zrange N)).
Proof.
  intros Hm Hf. unfold Example1.set_point.
  rewrite vget_map_zrange by exact Hm. cbn [rbind].
  rewrite vset_map_zrange by exact Hm. cbn [rbind].
  rewrite vget_map_zrange by exact Hm. cbn [rbind].
  rewrite vset_map_zrange by exact Hm. f_equal.
  apply map_zrange_ext. intros j Hj. rewrite Z.eqb_refl.
  destruct (Z.eqb_spec j m) as [->|Hne].
  - destruct (Z.ltb_spec m (m + 1)); [|lia]. rewrite Z.ltb_irrefl, Hf. reflexivity.
  - destruct (Z.ltb_spec j m), (Z.ltb_spec j (m + 1)); (reflexivity || lia).
Qed.

Lemma loop_below_one_from {St} (body : double -> St -> result St) (step : double)
    (cs : Z -> double) (st : Z -> St) (n : Z) (rounds : nat) (c : double) (s s' : St) :
  0 <= n -> (Z.to_nat n <= rounds)%nat -> c = cs 0 -> s = st 0 -> s' = st n ->
  (forall i, 0 <= i < n ->
     (cs i <? 1)%float = true /\ body (cs i) (st i) = Ret (st (i + 1)) /\
     (cs i + step)%float = cs (i + 1)) ->
  (cs n <? 1)%float = false ->
  loop_below_one rounds c step body s = Ret s'.
Proof.
  intros Hn Hr -> -> -> H Hend.
  apply (loop_below_one_closed body step cs st n); [lia | | exact H | exact Hend].
  replace (n - 0) with n by lia. exact Hr.
Qed.

Lemma counter_zero (L : Z) : 1 <= L <= 8 -> 0%float = (double_of_Z 0 * pow2 (1 - L))%float.
Proof.
  intros HL.
  assert (H : forallb (fun L =>
     PrimFloat.Leibniz.eqb 0 (double_of_Z 0 * pow2 (1 - (L + 1)))%float) (zrange 8) = true)
    by (vm_compute; reflexivity).
  pose proof (zrange_check _ 8 (L - 1) H ltac:(lia)) as H1. cbv beta in H1.
  replace (L - 1 + 1) with L in H1 by lia.
  apply FloatAxioms.Leibniz.eqb_spec in H1. exact H1.
Qed.

(** The point at corner [q] of the cell in column [k] and row [r]. *)
Lemma grid_point_corner (L r k q : Z) :
  1 <= L -> 0 <= r -> 0 <= k < 2 ^ (L - 1) -> 0 <= q <= 3 ->
  grid_point L (4 * (r * 2 ^ (L - 1) + k) + q) =
  Point.mk
    (Cplx ((double_of_Z k + (if Z.odd q then 0.75 else 0.25)) * pow2 (1 - L))%float
          ((double_of_Z r + (if Z.odd (q / 2) then 0.75 else 0.25)) * pow2 (1 - L))%float).
Proof.
  intros HL Hr Hk Hq. unfold grid_point. cbv zeta.
  set (n := 2 ^ (L - 1)) in *.
  assert (E1 : (4 * (r * n + k) + q) / 4 = r * n + k)
    by (symmetry; apply (Z.div_unique _ 4 _ q); lia).
  assert (E2 : (r * n + k) mod n = k)
    by (symmetry; apply (Z.mod_unique _ n r k); lia).
  assert (E3 : (r * n + k) / n = r)
    by (symmetry; apply (Z.div_unique _ n r k); lia).
  assert (E4 : Z.odd (4 * (r * n + k) + q) = Z.odd q).
  { replace (4 * (r * n + k) + q) with (q + 2 * (2 * (r * n + k))) by lia.
    apply Z.odd_add_mul_2. }
  assert (E5 : Z.odd ((4 * (r * n + k) + q) / 2) = Z.odd (q / 2)).
  { replace (4 * (r * n + k) + q) with (q + (2 * (r * n + k)) * 2) by lia.
    rewrite Z.div_add by lia. apply Z.odd_add_mul_2. }
  rewrite E1, E2, E3, E4, E5. reflexivity.
Qed.

Lemma uadd_small (a b : Z) : 0 <= a + b < 2 ^ 32 -> uadd a b = a + b.
Proof. intros H. unfold uadd. apply Z.mod_small. exact H. Qed.

Lemma pow4_split (L : Z) : 1 <= L -> 4 ^ L = 4 * (2 ^ (L - 1) * 2 ^ (L - 1)).
Proof.
  intros HL. rewrite <- Z.pow_add_r by lia.
  replace (L - 1 + (L - 1)) with (2 * (L - 1)) by lia.
  rewrite Z.pow_mul_r by lia. change (2 ^ 2) with 4.
  replace L with (1 + (L - 1)) at 1 by lia. rewrite Z.pow_add_r by lia. reflexivity.
Qed.

(** The two loops fill a vector of [4^L] points with the points of the grid,
    in [2^(L-1)] rounds each: a larger bound on the rounds changes nothing. *)
Lemma create_points_within_closed (L : Z) (this : Example1.t) (rounds : nat) :
  1 <= L <= 8 -> (Z.to_nat (2 ^ (L - 1)) <= rounds)%nat ->
  Example1.cell_length this = ((1 - 0) / pow2 (usub L 1))%float ->
  Example1.quarter_length this = (0.25 * Example1.cell_length this)%float ->
  Example1.three_quarter_length this = (0.75 * Example1.cell_length this)%float ->
  Example1.create_points_within rounds this (replicate (Z.to_nat (4 ^ L)) Point.default) =
  Ret (grid_points L).
Proof.
  intros HL Hrounds Hcell Hq Htq. unfold Example1.create_points_within. cbv zeta.
  rewrite Hq, Htq, Hcell. fold (2 ^ (L - 1)) in Hrounds.
  set (n := 2 ^ (L - 1)).
  assert (Hn : 1 <= n <= 128).
  { unfold n. split.
    - change 1 with (2 ^ 0). apply Z.pow_le_mono_r; lia.
    - change 128 with (2 ^ 7). apply Z.pow_le_mono_r; lia. }
  assert (HN : 4 ^ L = 4 * (n * n)) by (apply pow4_split; lia).
  set (filled := fun m : Z =>
         map (fun j => if j <? m then grid_point L j else Point.default) (zrange (4 ^ L))).
  set (cs := fun k : Z => (double_of_Z k * pow2 (1 - L))%float).
  assert (Hfill0 : replicate (Z.to_nat (4 ^ L)) Point.default = filled 0).
  { rewrite replicate_zrange. apply map_zrange_ext. intros j Hj.
    destruct (Z.ltb_spec j 0); [lia | reflexivity]. }
  rewrite Hfill0.
  rewrite (loop_below_one_from _ _ cs (fun r => (4 * (r * n), filled (4 * (r * n)))) n
             _ _ _ (4 * (n * n), filled (4 * (n * n)))).
  - cbn [rbind]. f_equal. unfold filled, grid_points. apply map_zrange_ext.
    intros j Hj. destruct (Z.ltb_spec j (4 * (n * n))); [reflexivity | lia].
  - lia.
  - exact Hrounds.
  - apply counter_zero. exact HL.
  - reflexivity.
  - reflexivity.
  - intros r Hr.
    destruct (counter_values L r HL ltac:(fold n; lia)) as (Hlt & Hstep & Hrq & Hrt).
    fold n in Hlt. fold (cs r) in Hlt, Hstep, Hrq, Hrt.
    split; [rewrite Hlt; apply Z.ltb_lt; lia|]. split; [|exact Hstep].
    apply (loop_below_one_from _ _ cs
             (fun k => (4 * (r * n + k), filled (4 * (r * n + k)))) n).
    + lia.
    + exact Hrounds.
    + apply counter_zero. exact HL.
    + f_equal; [lia | f_equal; lia].
    + f_equal; [lia | f_equal; lia].
    + intros k Hk.
      destruct (counter_values L k HL ltac:(fold n; lia)) as (Hlt' & Hstep' & Hkq & Hkt).
      fold n in Hlt'. fold (cs k) in Hlt', Hstep', Hkq, Hkt.
      split; [rewrite Hlt'; apply Z.ltb_lt; lia|]. split; [|exact Hstep'].
      rewrite Hkq, Hkt, Hrq, Hrt.
      set (m := 4 * (r * n + k)).
      assert (Hm : 0 <= m /\ m + 4 <= 4 ^ L) by (unfold m; nia).
      assert (H4L : 4 ^ L <= 65536).
      { change 65536 with (4 ^ 8). apply Z.pow_le_mono_r; lia. }
      unfold filled.
      rewrite (set_point_fill (grid_point L) (4 ^ L) m); [|lia|].
      2:{ replace m with (m + 0) by lia. unfold m.
          rewrite grid_point_corner by (lia || exact Hk). reflexivity. }
      cbn [rbind]. rewrite (uadd_small m 1) by lia.
      rewrite (set_point_fill (grid_point L) (4 ^ L) (m + 1)); [|lia|].
      2:{ unfold m. rewrite grid_point_corner by (lia || exact Hk). reflexivity. }
      cbn [rbind]. rewrite (uadd_small (m + 1) 1) by lia.
      rewrite (set_point_fill (grid_point L) (4 ^ L) (m + 1 + 1)); [|lia|].
      2:{ replace (m + 1 + 1) with (m + 2) by lia. unfold m.
          rewrite grid_point_corner by (lia || exact Hk). reflexivity. }
      cbn [rbind]. rewrite (uadd_small (m + 1 + 1) 1) by lia.
      rewrite (set_point_fill (grid_point L) (4 ^ L) (m + 1 + 1 + 1)); [|lia|].
      2:{ replace (m + 1 + 1 + 1) with (m + 3) by lia. unfold m.
          rewrite grid_point_corner by (lia || exact Hk). reflexivity. }
      cbn [rbind]. rewrite (uadd_small (m + 1 + 1 + 1) 1) by lia.
      f_equal. f_equal; [unfold m; lia|].
      apply map_zrange_ext. intros j Hj.
      replace (m + 1 + 1 + 1 + 1) with (4 * (r * n + (k + 1))) by (unfold m; lia).
      reflexivity.
    + destruct (counter_values L n HL ltac:(fold n; lia)) as (Hlt' & _).
      fold n in Hlt'. fold (cs n) in Hlt'. rewrite Hlt'. apply Z.ltb_ge. lia.
  - destruct (counter_values L n HL ltac:(fold n; lia)) as (Hlt' & _).
    fold n in Hlt'. fold (cs n) in Hlt'. rewrite Hlt'. apply Z.ltb_ge. lia.
Qed.

Lemma create_points_closed (L : Z) (this : Example1.t) :
  1 <= L <= 8 ->
  Example1.cell_length this = ((1 - 0) / pow2 (usub L 1))%float ->
  Example1.quarter_length this = (0.25 * Example1.cell_length this)%float ->
  Example1.three_quarter_length this = (0.75 * Example1.cell_length this)%float ->
  Example1.create_points this (replicate (Z.to_nat (4 ^ L)) Point.default) =
  Ret (grid_points L).
Proof.
  intros HL Hcell Hq Htq. unfold Example1.create_points.
  apply create_points_within_closed; try assumption.
  rewrite length_replicate.
  assert (2 ^ (L - 1) <= 4 ^ L); [|lia].
  rewrite (pow4_split L) by lia.
  assert (1 <= 2 ^ (L - 1)) by (change 1 with (2 ^ 0); apply Z.pow_le_mono_r; lia).
  nia.
Qed.

Lemma charges_closed (N : Z) :
  0 <= N ->
  forM 0 (size (replicate (Z.to_nat N) 0%float)) (fun i u => vset u i 1%float)
       (replicate (Z.to_nat N) 0%float) =
  Ret (replicate (Z.to_nat N) 1%float).
Proof.
  intros HN. unfold size. rewrite length_replicate, Z2Nat.id by exact HN.
  apply (forM_from _ (fun i => map (fun j => if j <? i then 1%float else 0%float)
                                   (zrange N))).
  - exact HN.
  - rewrite replicate_zrange. apply map_zrange_ext. intros j Hj.
    destruct (Z.ltb_spec j 0); [lia | reflexivity].
  - rewrite replicate_zrange. apply map_zrange_ext. intros j Hj.
    destruct (Z.ltb_spec j N); [reflexivity | lia].
  - intros k Hk. rewrite vset_map_zrange by exact Hk. f_equal.
    apply map_zrange_ext. intros j Hj.
    destruct (Z.eqb_spec j k), (Z.ltb_spec j k), (Z.ltb_spec j (k + 1));
      (reflexivity || lia).
Qed.

Lemma resize_nil {A} (n : Z) (a : A) : resize [] n a = replicate (Z.to_nat n) a.
Proof.
  unfold resize, size. cbn [length]. change (Z.of_nat 0) with 0.
  destruct (Z.leb_spec n 0).
  - replace (Z.to_nat n) with 0%nat by lia. reflexivity.
  - rewrite Z.sub_0_r. reflexivity.
Qed.

(** The constructor of the example in closed form. *)
Lemma new_example_closed (L : Z) :
  1 <= L <= 8 ->
  Example1.new L =
  Ret (Example1.mk (grid_points L) (grid_points L) (replicate (Z.to_nat (4 ^ L)) 1%float)
         L (pow2 (usub L 1)) ((1 - 0) / pow2 (usub L 1))%float
         (0.25 * ((1 - 0) / pow2 (usub L 1)))%float
         (0.75 * ((1 - 0) / pow2 (usub L 1)))%float (4 ^ L)).
Proof.
  intros HL. unfold Example1.new. cbv zeta. rewrite example_size by exact HL.
  cbn [rbind]. rewrite !resize_nil.
  unfold Example1.createSourcePointsX. cbn [Example1.x].
  rewrite (create_points_closed L) by (exact HL || reflexivity).
  cbn [rbind]. unfold Example1.with_x. cbn [Example1.x Example1.y Example1.u Example1.L
    Example1.cells_per_side Example1.cell_length Example1.quarter_length
    Example1.three_quarter_length Example1.nTotalParticles].
  unfold Example1.createTargetPointsY. cbn [Example1.y].
  rewrite (create_points_closed L) by (exact HL || reflexivity).
  cbn [rbind]. unfold Example1.with_y. cbn [Example1.x Example1.y Example1.u Example1.L
    Example1.cells_per_side Example1.cell_length Example1.quarter_length
    Example1.three_quarter_length Example1.nTotalParticles].
  unfold Example1.createSourceParticleChargesU. cbn [Example1.u].
  rewrite charges_closed by lia. reflexivity.
Qed.

(** ** The cells of the points of the example *)

Lemma floor_corner_scaled (L a : Z) :
  1 <= L <= 8 -> 0 <= a < 2 ^ (L - 1) ->
  int_of_double (dfloor ((double_of_Z a + 0.25) * pow2 (1 - L) * pow2 (L - 1))%float) = a /\
  int_of_double (dfloor ((double_of_Z a + 0.75) * pow2 (1 - L) * pow2 (L - 1))%float) = a.
Proof.
  intros HL Ha.
  assert (H : forallb (fun L => forallb (fun a =>
     (int_of_double (dfloor ((double_of_Z a + 0.25) * pow2 (1 - (L + 1))
                             * pow2 (L + 1 - 1))%float) =? a)
     && (int_of_double (dfloor ((double_of_Z a + 0.75) * pow2 (1 - (L + 1))
                                * pow2 (L + 1 - 1))%float) =? a))
     (zrange (2 ^ (L + 1 - 1)))) (zrange 8) = true)
    by (vm_compute; reflexivity).
  pose proof (zrange_check _ 8 (L - 1) H ltac:(lia)) as H1. cbv beta in H1.
  replace (L - 1 + 1) with L in H1 by lia.
  pose proof (zrange_check _ _ a H1 Ha) as H2. cbv beta in H2.
  apply andb_true_iff in H2 as [H2 H3]. apply Z.eqb_eq in H2, H3.
  split; assumption.
Qed.

(** A point of the example lies in the cell of its column and row. *)
Lemma grid_point_cell (L m : Z) :
  1 <= L <= 8 -> 0 <= m < 4 ^ L ->
  Point.getBoxIndex (grid_point L m) (L - 1) =
  Util.interleave ((m / 4) mod 2 ^ (L - 1)) ((m / 4) / 2 ^ (L - 1)) (L - 1).
Proof.
  intros HL Hm. unfold Point.getBoxIndex, grid_point. cbv zeta. cbn [Point.coord real imag].
  set (n := 2 ^ (L - 1)).
  assert (Hn : 0 < n) by (apply Z.pow_pos_nonneg; lia).
  assert (HN : 4 ^ L = 4 * (n * n)) by (apply pow4_split; lia).
  assert (Hc : 0 <= m / 4 < n * n).
  { split; [apply Z.div_pos; lia | apply Z.div_lt_upper_bound; lia]. }
  assert (Hcol : 0 <= (m / 4) mod n < n) by (apply Z.mod_pos_bound; lia).
  assert (Hrow : 0 <= (m / 4) / n < n).
  { split; [apply Z.div_pos; lia | apply Z.div_lt_upper_bound; lia]. }
  destruct (floor_corner_scaled L ((m / 4) mod n) HL Hcol) as [Hx1 Hx2].
  destruct (floor_corner_scaled L ((m / 4) / n) HL Hrow) as [Hy1 Hy2].
  destruct (Z.odd m), (Z.odd (m / 2)); rewrite ?Hx1, ?Hx2, ?Hy1, ?Hy2; reflexivity.
Qed.

Lemma filter_map_comm {A B} (p : B -> bool) (f : A -> B) (l : list A) :
  List.filter p (map f l) = map f (List.filter (fun a => p (f a)) l).
Proof.
  induction l as [|a l IH]; [reflexivity|]. cbn [map List.filter].
  destruct (p (f a)); cbn [map]; rewrite IH; reflexivity.
Qed.

Lemma filter_none {A} (p : A -> bool) (l : list A) :
  (forall a, In a l -> p a = false) -> List.filter p l = [].
Proof.
  induction l as [|a l IH]; intros H; [reflexivity|]. cbn [List.filter].
  rewrite (H a (or_introl eq_refl)). apply IH. intros b Hb. apply H. right. exact Hb.
Qed.

Lemma in_zrange (n k : Z) : In k (zrange n) <-> 0 <= k < n.
Proof.
  unfold zrange. rewrite in_map_iff. split.
  - intros (i & <- & Hi). apply in_seq in Hi. lia.
  - intros Hk. exists (Z.to_nat k). split; [lia | apply in_seq; lia].
Qed.

Lemma seq_from (s n : nat) : seq s n = map (Nat.add s) (seq 0 n).
Proof.
  revert s. induction n as [|n IH]; intros s; [reflexivity|]. cbn [seq map].
  f_equal; [lia|]. rewrite (IH (S s)), (IH 1%nat), map_map. apply map_ext. intros i. lia.
Qed.

Lemma zrange_app (a b : Z) :
  0 <= a -> 0 <= b -> zrange (a + b) = zrange a ++ map (Z.add a) (zrange b).
Proof.
  intros Ha Hb. unfold zrange. rewrite Z2Nat.inj_add by lia.
  rewrite seq_app, map_app. f_equal. cbn [Nat.add].
  rewrite seq_from, !map_map. apply map_ext. intros i. lia.
Qed.

(** The numbers below [N] with the quotient [c] by 4. *)
Lemma filter_quotient (N c : Z) :
  0 <= c -> 4 * c + 4 <= N ->
  List.filter (fun m => m / 4 =? c) (zrange N) = [4 * c; 4 * c + 1; 4 * c + 2; 4 * c + 3].
Proof.
  intros Hc HN.
  replace N with (4 * c + (4 + (N - 4 * c - 4))) by lia.
  rewrite zrange_app by lia. rewrite zrange_app by lia.
  rewrite map_app, !List.filter_app. rewrite map_map.
  rewrite (filter_none _ (zrange (4 * c))).
  2:{ intros m Hm. apply in_zrange in Hm. apply Z.eqb_neq. intros E.
      pose proof (Z.div_mod m 4 ltac:(lia)). pose proof (Z.mod_pos_bound m 4 ltac:(lia)).
      lia. }
  rewrite (filter_none _ (map _ (zrange (N - 4 * c - 4)))).
  2:{ intros m Hm. apply in_map_iff in Hm as (i & <- & Hi). apply in_zrange in Hi.
      apply Z.eqb_neq. intros E.
      pose proof (Z.div_mod (4 * c + (4 + i)) 4 ltac:(lia)).
      pose proof (Z.mod_pos_bound (4 * c + (4 + i)) 4 ltac:(lia)). lia. }
  rewrite app_nil_r. cbn [app].
  change (zrange 4) with [0; 1; 2; 3]. cbn [map List.filter].
  assert (E : forall q, 0 <= q <= 3 -> ((4 * c + q) / 4 =? c) = true).
  { intros q Hq. apply Z.eqb_eq. symmetry. apply (Z.div_unique _ 4 c q); lia. }
  rewrite !E by lia. rewrite Z.add_0_r. reflexivity.
Qed.

(** The points of the example that the tree sorts into a cell of its finest
    level are the four corners of one cell of the grid. *)
Lemma example_cell (L j : Z) :
  1 <= L <= 8 -> 0 <= j < 4 ^ (L - 1) ->
  exists c, 0 <= c < 4 ^ (L - 1) /\
    sorted_into (L - 1) j (grid_points L) =
    map (grid_point L) [4 * c; 4 * c + 1; 4 * c + 2; 4 * c + 3].
Proof.
  intros HL Hj. set (n := 2 ^ (L - 1)).
  assert (Hn : 0 < n) by (apply Z.pow_pos_nonneg; lia).
  assert (HN : 4 ^ L = 4 * (n * n)) by (apply pow4_split; lia).
  assert (HN' : 4 ^ (L - 1) = n * n).
  { unfold n. rewrite <- Z.pow_add_r by lia. replace (L - 1 + (L - 1)) with (2 * (L - 1)) by lia.
    rewrite Z.pow_mul_r by lia. reflexivity. }
  destruct (uninterleave_ints_range j (L - 1)) as [Ha Hb]; [lia|]. fold n in Ha, Hb.
  pose proof (interleave_uninterleave_ints j (L - 1) ltac:(lia) Hj) as Hback.
  set (a := fst (Util.uninterleave_ints j (L - 1))) in *.
  set (b := snd (Util.uninterleave_ints j (L - 1))) in *.
  exists (b * n + a). split; [nia|].
  unfold sorted_into, grid_points. rewrite filter_map_comm. f_equal.
  rewrite <- (filter_quotient (4 ^ L)) by nia.
  apply filter_ext_in. intros m Hm. apply in_zrange in Hm.
  rewrite grid_point_cell by (exact HL || exact Hm). fold n.
  assert (Hc : 0 <= m / 4 < n * n).
  { split; [apply Z.div_pos; lia | apply Z.div_lt_upper_bound; lia]. }
  assert (Hcol : 0 <= (m / 4) mod n < n) by (apply Z.mod_pos_bound; lia).
  assert (Hrow : 0 <= (m / 4) / n < n).
  { split; [apply Z.div_pos; lia | apply Z.div_lt_upper_bound; lia]. }
  pose proof (Z.div_mod (m / 4) n ltac:(lia)) as Hdm.
  destruct (Z.eqb_spec (m / 4) (b * n + a)) as [E|E].
  - apply Z.eqb_eq.
    assert (E1 : (m / 4) mod n = a)
      by (symmetry; apply (Z.mod_unique _ n b a); lia).
    assert (E2 : (m / 4) / n = b)
      by (symmetry; apply (Z.div_unique _ n b a); lia).
    rewrite E1, E2. exact Hback.
  - apply Z.eqb_neq. intros E'. apply E.
    pose proof (uninterleave_ints_interleave ((m / 4) mod n) ((m / 4) / n) (L - 1)
                  ltac:(lia) Hcol Hrow) as Hu.
    rewrite E' in Hu.
    assert (Ea : a = (m / 4) mod n) by (unfold a; rewrite Hu; reflexivity).
    assert (Eb : b = (m / 4) / n) by (unfold b; rewrite Hu; reflexivity).
    rewrite Ea, Eb. lia.
Qed.

(** X30.  The points of the example.  For a level [L] from 1 to 8,
    [Example1(L)] returns [4^L] sources, the same points as targets, and
    [4^L] charges equal to 1.  The points are the four corners, a quarter and
    three quarters of a cell into the cell, of every cell of the grid of
    [2^(L-1)] by [2^(L-1)] cells, row by row; the loop counters accumulate no
    rounding error.  A tree of [L] levels sorts into every cell of its finest
    level the four corners of one cell of the grid. *)
Theorem example1_points (L : Z) :
  1 <= L <= 8 ->
  exists e, Example1.new L = Ret e /\
    Example1.getX e = grid_points L /\ Example1.getY e = grid_points L /\
    Example1.getU e = replicate (Z.to_nat (4 ^ L)) 1%float /\
    size (Example1.getX e) = 4 ^ L /\
    forall j, 0 <= j < 4 ^ (L - 1) ->
      exists c, 0 <= c < 4 ^ (L - 1) /\
        sorted_into (L - 1) j (Example1.getX e) =
        map (grid_point L) [4 * c; 4 * c + 1; 4 * c + 2; 4 * c + 3].
Proof.
  intros HL. eexists. split; [apply new_example_closed; exact HL|].
  unfold Example1.getX, Example1.getY, Example1.getU.
  cbn [Example1.x Example1.y Example1.u].
  repeat split.
  - unfold grid_points. apply size_map_zrange. lia.
  - intros j Hj. apply example_cell; assumption.
Qed.

Lemma example1_points_witness :
  exists e, Example1.new 4 = Ret e /\
    Example1.getX e = grid_points 4 /\ Example1.getY e = grid_points 4 /\
    Example1.getU e = replicate (Z.to_nat (4 ^ 4)) 1%float /\
    size (Example1.getX e) = 4 ^ 4 /\
    forall j, 0 <= j < 4 ^ (4 - 1) ->
      exists c, 0 <= c < 4 ^ (4 - 1) /\
        sorted_into (4 - 1) j (Example1.getX e) =
        map (grid_point 4) [4 * c; 4 * c + 1; 4 * c + 2; 4 * c + 3].
Proof. apply (example1_points 4). lia. Defined.
